(** * run-visualizer: GPS track pipeline, animation driver and camera controller

    A shallow embedding of [src/utils.js], the [useFrame] callback of
    [RunnerOrbs] in [src/TokyoRunVisualizer.jsx] and the hook
    [src/hooks/useCameraAnimation.js].

    Modelling conventions.
    - A JavaScript [number] is an IEEE double, and it is modelled twice.
      Where a statement is about which branch runs, which positions are
      read or how the state moves, a number is an exact rational ([Q]),
      with equality [Qeq] ([==]).  Where a statement turns on rounding, on
      [NaN] or on the infinities, a number is a double ([F64], over
      [Num.t]) and the function is embedded again in [Doubles], one
      rounded operation for each operation of the source.  Lengths,
      indices and [Date.now()] milliseconds are integers.
    - Objects that are only read (GPS points, curves) are values of an
      abstract type with decidable equality standing for [===], and field
      reads are functions on that type.
    - Browser and three.js functions the repository calls but does not
      define ([Math.cos], [Math.random], [CatmullRomCurve3], [getPoint]) are
      section variables. *)

From Stdlib Require Import ZArith QArith Qround Qminmax Qabs Qpower String
  Lia Lqa.
From stdpp Require Import base decidable option list sorting relations.

Local Open Scope Z_scope.

(** ** JavaScript numbers *)

Module Js.

(** [Math.floor]. *)
Definition floor (q : Q) : Z := Qfloor q.
#[global] Arguments floor : simpl never.

(** Truncation toward zero, the integer part used by [%]. *)
Definition trunc (q : Q) : Z := Z.quot (Qnum q) (Z.pos (Qden q)).

(** The remainder operator [a % b]: the result has the sign of [a]. *)
Definition rem (a b : Q) : Q := (a - b * inject_Z (trunc (a / b)))%Q.

(** [Math.min] of two numbers. *)
Definition min (a b : Q) : Q := Qmin a b.

(** [Math.max] of two numbers. *)
Definition max (a b : Q) : Q := Qmax a b.

(** [a < b] on numbers, as a boolean. *)
Definition ltb (a b : Q) : bool :=
  match (a ?= b)%Q with Lt => true | _ => false end.

(** The errors a call in this code base can end with. No function of
    [utils.js] has a [throw] statement; a [TypeError] is what reading a
    field of [undefined] raises. *)
Inductive Error : Type :=
| TypeError
| EmptyDatasetError.

(** What a call can do: return a value or throw. *)
Inductive Completion (A : Type) : Type :=
| Normal (v : A)
| Throw (e : Error).
Arguments Normal {A} v.
Arguments Throw {A} e.

End Js.

(** ** config.js *)

Record CameraAnimationConfig : Type := {
  enabled : bool;
  intervalSeconds : Q;
  transitionSeconds : Q;
  inactivityTimeout : Q;
  distancePaddingFactor : Q;
  minDistance : Q;
  maxDistance : Q;
  heightOffsetFactor : Q
}.

Record Config : Type := {
  animationDuration : Q;
  animationLoop : bool;
  projectionScale : Q;
  elevationScale : Q;
  maxPointsPerTrack : Z;
  curveSubdivisions : Z;
  cameraAnimation : CameraAnimationConfig;
  featuredRun_size : Q
}.

(** The values [config.js] ships. *)
Definition shippedConfig : Config := {|
  animationDuration := 60;
  animationLoop := true;
  projectionScale := 10000;
  elevationScale := 1 # 10;
  maxPointsPerTrack := 1000;
  curveSubdivisions := 50;
  cameraAnimation := {|
    enabled := true;
    intervalSeconds := 4;
    transitionSeconds := 3 # 2;
    inactivityTimeout := 3;
    distancePaddingFactor := 18 # 10;
    minDistance := 50;
    maxDistance := 300;
    heightOffsetFactor := 3 # 10
  |};
  featuredRun_size := 12 # 10
|}.

(** ** three.js vectors *)

Record Vector3 : Type := { x : Q; y : Q; z : Q }.

(** Component-wise equality of numbers. *)
Definition Vector3_eq (a b : Vector3) : Prop :=
  (x a == x b /\ y a == y b /\ z a == z b)%Q.

Infix "=v=" := Vector3_eq (at level 70, no associativity).

(** [Vector3.lerpVectors(v1, v2, alpha)] of three.js:
    each component is [v1 + (v2 - v1) * alpha]. *)
Definition lerpVectors (v1 v2 : Vector3) (alpha : Q) : Vector3 :=
  {| x := x v1 + (x v2 - x v1) * alpha;
     y := y v1 + (y v2 - y v1) * alpha;
     z := z v1 + (z v2 - z v1) * alpha |}%Q.

(** ** utils.js *)

Module Utils.

(** *** downsampleTrack *)

Section Downsample.

(** Array elements are object references; [decide (a = b)] is [a === b]. *)
Context {A : Type} `{EqDecision A}.

(** [Math.floor(i * step)] with [step = points.length / maxPoints]. *)
Definition strideIndex (len maxPoints i : Z) : Z :=
  let step := (inject_Z len / inject_Z maxPoints)%Q in
  Js.floor (inject_Z i * step).

(** The [for] loop: [count] iterations left, loop variable [i]. An index
    outside the array reads [undefined]; [downsample_loop_total] shows this
    never happens, so the model leaves such a slot out. *)
Fixpoint downsample_loop (points : list A) (maxPoints : Z)
    (count : nat) (i : Z) (downsampled : list A) : list A :=
  match count with
  | O => downsampled
  | S count' =>
      let index := strideIndex (Z.of_nat (length points)) maxPoints i in
      let downsampled' :=
        match points !! Z.to_nat index with
        | Some p => downsampled ++ [p]
        | None => downsampled
        end in
      downsample_loop points maxPoints count' (i + 1) downsampled'
  end.

Definition downsampleTrack (points : list A) (maxPoints : Z) : list A :=
  if Z.of_nat (length points) <=? maxPoints then points
  else
    let downsampled :=
      downsample_loop points maxPoints (Z.to_nat maxPoints) 0 [] in
    (* Always include the last point *)
    if decide (last downsampled = last points) then downsampled
    else match last points with
         | Some p => downsampled ++ [p]
         | None => downsampled (* not reached: [points] is not empty here *)
         end.

(** [out] lists the elements [points] holds at the positions [positions],
    one after the other. *)
Definition readsAt (points : list A) (positions : list nat)
    (out : list A) : Prop :=
  Forall2 (fun i v => points !! i = Some v) positions out.

End Downsample.

(** The array positions the loop of [downsampleTrack] reads in [count]
    turns, starting with loop variable [i]. *)
Fixpoint strideIndices (len maxPoints : Z) (count : nat) (i : Z)
    : list nat :=
  match count with
  | O => []
  | S count' =>
      Z.to_nat (strideIndex len maxPoints i)
        :: strideIndices len maxPoints count' (i + 1)
  end.


(** *** Projection, centroid, track processing *)

(** The centroid object [{lat, lon}]. *)
Module Center.
Record t : Type := { lat : Q; lon : Q }.
End Center.

Section Projection.

Variable config : Config.
(** [Math.cos] and [Math.PI]. *)
Variable Math_cos : Q -> Q.
Variable Math_PI : Q.

Definition gpsToCartesian (lat lon ele : Q) (center : Center.t) : Vector3 :=
  let latScale := projectionScale config in
  let lonScale :=
    (projectionScale config * Math_cos (Center.lat center * Math_PI / 180))%Q in
  let x := ((lon - Center.lon center) * lonScale)%Q in
  let z := (- (lat - Center.lat center) * latScale)%Q in
  let y := (ele * elevationScale config)%Q in
  {| x := x; y := y; z := z |}.

End Projection.

(** The [metadata] object [parseGPX] attaches to a track: the text of the
    track's [<time>] element, if any, and the position of the [<trk>]
    element in the GPX document. *)
Module TrackMetadata.
Record t : Type := {
  timestamp : option string;
  index : Z
}.
End TrackMetadata.

(** The [metadata] object of a processed track:
    [{...metadata, startLat, startLon, endLat, endLon}]. *)
Module ProcessedMetadata.
Record t : Type := {
  timestamp : option string;
  index : Z;
  startLat : Q;
  startLon : Q;
  endLat : Q;
  endLon : Q
}.
End ProcessedMetadata.

Section Tracks.

Variable config : Config.
Variable Math_cos : Q -> Q.
Variable Math_PI : Q.

(** A GPS point object [{lat, lon, ele}]: a reference with its three
    fields; [decide (p = q)] is [p === q]. *)
Context {Point : Type} `{EqDecision Point}.
Variable lat lon ele : Point -> Q.

(** A [THREE.CatmullRomCurve3]; the constructor call
    [new THREE.CatmullRomCurve3(points3D, false, 'catmullrom', 0.5)]
    gives [None] when it throws. *)
Variable Curve : Type.
Variable CatmullRomCurve3 : list Vector3 -> option Curve.

(** A parsed track [{points, metadata}]. *)
Record TrackData : Type := {
  points : list Point;
  metadata : TrackMetadata.t
}.

Record ProcessedTrack : Type := {
  id : nat;
  points3D : list Vector3;
  curve : option Curve;
  originalPointCount : nat;
  processedPointCount : nat;
  p_metadata : ProcessedMetadata.t
}.

(** The three accumulators of [calculateCenter]. *)
Record CenterTotals : Type := {
  totalLat : Q;
  totalLon : Q;
  totalPoints : Z
}.

Definition addPoint (acc : CenterTotals) (point : Point) : CenterTotals :=
  {| totalLat := totalLat acc + lat point;
     totalLon := totalLon acc + lon point;
     totalPoints := totalPoints acc + 1 |}%Q.

Definition addTrack (acc : CenterTotals) (trackData : TrackData)
    : CenterTotals :=
  foldl addPoint acc (points trackData).

(** With no point at all JavaScript divides zero by zero; the rational
    model gives 0 there. *)
Definition calculateCenter (tracks : list TrackData) : Center.t :=
  let totals :=
    foldl addTrack {| totalLat := 0; totalLon := 0; totalPoints := 0 |}
          tracks in
  {| Center.lat := totalLat totals / inject_Z (totalPoints totals);
     Center.lon := totalLon totals / inject_Z (totalPoints totals) |}.

(** The callback of [tracks.forEach] in [processTracks]: [None] is an
    early [return] (the track is dropped), [Throw] an uncaught error. *)
Definition processTrack (center : Center.t) (trackData : TrackData)
    (index : nat) : Js.Completion (option ProcessedTrack) :=
  let track := points trackData in
  let metadata := metadata trackData in
  let downsampledTrack := downsampleTrack track (maxPointsPerTrack config) in
  let points3D :=
    (fun point =>
       gpsToCartesian config Math_cos Math_PI
                      (lat point) (lon point) (ele point) center)
      <$> downsampledTrack in
  if (length points3D <? 2)%nat then Js.Normal None
  else
    match CatmullRomCurve3 points3D with
    | None => Js.Normal None
    | Some curve =>
        match track !! 0%nat, track !! (length track - 1)%nat with
        | Some first, Some final =>
            Js.Normal (Some {|
              id := index;
              points3D := points3D;
              curve := Some curve;
              originalPointCount := length track;
              processedPointCount := length points3D;
              p_metadata := {|
                ProcessedMetadata.timestamp :=
                  TrackMetadata.timestamp metadata;
                ProcessedMetadata.index := TrackMetadata.index metadata;
                ProcessedMetadata.startLat := lat first;
                ProcessedMetadata.startLon := lon first;
                ProcessedMetadata.endLat := lat final;
                ProcessedMetadata.endLon := lon final
              |}
            |})
        | _, _ => Js.Throw Js.TypeError
        end
    end.

(** [tracks.forEach((trackData, index) => ...)], pushing onto
    [processedTracks]. *)
Fixpoint processTracks_forEach (center : Center.t) (tracks : list TrackData)
    (index : nat) (processedTracks : list ProcessedTrack)
    : Js.Completion (list ProcessedTrack) :=
  match tracks with
  | [] => Js.Normal processedTracks
  | trackData :: rest =>
      match processTrack center trackData index with
      | Js.Throw e => Js.Throw e
      | Js.Normal None =>
          processTracks_forEach center rest (S index) processedTracks
      | Js.Normal (Some t) =>
          processTracks_forEach center rest (S index)
                                (processedTracks ++ [t])
      end
  end.

(** [tracks] is an array here; a [null] argument takes the same early
    return as the empty array. *)
Definition processTracks (tracks : list TrackData)
    : Js.Completion (list ProcessedTrack) :=
  if decide (length tracks = 0%nat) then Js.Normal []
  else
    let center := calculateCenter tracks in
    processTracks_forEach center tracks 0 [].

(** The processed tracks the callback yields for [tracks], whose first
    element has index [index]: one per track that is not dropped, in
    input order. *)
Fixpoint survivors (center : Center.t) (tracks : list TrackData)
    (index : nat) : list ProcessedTrack :=
  match tracks with
  | [] => []
  | trackData :: rest =>
      match processTrack center trackData index with
      | Js.Normal (Some t) => t :: survivors center rest (S index)
      | _ => survivors center rest (S index)
      end
  end.

(** The number of points in all the tracks together. *)
Definition totalPointCount (tracks : list TrackData) : nat :=
  sum_list_with (fun trackData => length (points trackData)) tracks.

End Tracks.

Arguments points {Point} _.
Arguments metadata {Point} _.

(** *** Curve sampling and easing *)

Section Curves.

Variable Curve : Type.
(** [curve.getPoint(t)] of three.js. *)
Variable getPoint : Curve -> Q -> Vector3.

Definition getPointOnCurve (curve : Curve) (progress : Q) : Vector3 :=
  (* Clamp progress between 0 and 1 *)
  let t := Js.max 0 (Js.min 1 progress) in
  getPoint curve t.

End Curves.

(** [Math.pow(b, 3)]. *)
Definition Math_pow3 (b : Q) : Q := (b ^ 3)%Q.

Definition easeInOutCubic (t : Q) : Q :=
  if Js.ltb t (1 # 2)
  then (4 * t * t * t)%Q
  else (1 - Math_pow3 (-2 * t + 2) / 2)%Q.

Arguments curve {Curve} _.
Arguments id {Curve} _.
Arguments points3D {Curve} _.
Arguments originalPointCount {Curve} _.
Arguments processedPointCount {Curve} _.
Arguments p_metadata {Curve} _.

End Utils.

Import Utils.

(** ** The wall clock *)

(** [ticks n] is what the [n]-th call of [Date.now()] returns, in
    milliseconds; [reads] counts the calls made so far. *)
Record Clock : Type := { ticks : nat -> Z; reads : nat }.

Definition Date_now (clock : Clock) : Z * Clock :=
  (ticks clock (reads clock),
   {| ticks := ticks clock; reads := S (reads clock) |}).

(** ** TokyoRunVisualizer.jsx: the frame callback of RunnerOrbs *)

Module TokyoRunVisualizer.

(** What [tempObject.updateMatrix()] composes: the object's position and
    scale (its rotation is never touched). *)
Record Matrix4 : Type := { m_position : Vector3; m_scale : Vector3 }.

(** A [THREE.InstancedMesh]: [instanceMatrix] has one slot per instance the
    mesh was created for; a write past its end is dropped, as a typed array
    drops it. *)
Record InstancedMesh : Type := {
  instanceMatrix : list Matrix4;
  needsUpdate : bool;
  count : nat;
  emissiveIntensity : Q
}.

Definition setMatrixAt (mesh : InstancedMesh) (i : nat) (matrix : Matrix4)
    : InstancedMesh :=
  {| instanceMatrix := <[i := matrix]> (instanceMatrix mesh);
     needsUpdate := needsUpdate mesh;
     count := count mesh;
     emissiveIntensity := emissiveIntensity mesh |}.

(** The refs of one [RunnerOrbs] component; a mesh ref is [None] until the
    mesh is mounted. *)
Record RunnerOrbs : Type := {
  nonFeaturedMeshRef : option InstancedMesh;
  featuredMeshRef : option InstancedMesh;
  startTimeRef : Z
}.

(** The two counters of the instance loop. *)
Record InstanceCursor : Type := {
  nonFeaturedIndex : nat;
  featuredIndex : nat
}.

Section AnimationDriver.

Variable config : Config.
Variable Math_sin : Q -> Q.
Variable Math_PI : Q.
Variable Curve : Type.
Variable getPoint : Curve -> Q -> Vector3.

(** [(Date.now() - startTimeRef.current) / 1000]. *)
Definition elapsedSeconds (now start : Z) : Q :=
  (inject_Z (now - start) / 1000)%Q.

Definition frameProgress (elapsed : Q) : Q :=
  if animationLoop config
  then (Js.rem elapsed (animationDuration config)
        / animationDuration config)%Q
  else Js.min (elapsed / animationDuration config) 1.

Definition blinkIntensity (elapsed : Q) : Q :=
  let blinkSpeed := 3%Q in
  let blinkProgress :=
    ((Math_sin (elapsed * blinkSpeed * Math_PI * 2) + 1) / 2)%Q in
  (10 + blinkProgress * 8)%Q.

(** One iteration of [for (let i = 0; i < count; i++)]. *)
Definition updateInstance (progress : Q) (featuredTrackIndex : option Z)
    (i : nat) (track : ProcessedTrack Curve)
    (st : RunnerOrbs * InstanceCursor) : RunnerOrbs * InstanceCursor :=
  let (self, cursor) := st in
  match curve track with
  | None => st
  | Some c =>
      (* Get position on curve based on progress *)
      let point := getPointOnCurve Curve getPoint c progress in
      if decide (Some (Z.of_nat i) = featuredTrackIndex) then
        let size := featuredRun_size config in
        let matrix :=
          {| m_position := point;
             m_scale := {| x := size; y := size; z := size |} |} in
        match featuredMeshRef self with
        | Some mesh =>
            ({| nonFeaturedMeshRef := nonFeaturedMeshRef self;
                featuredMeshRef :=
                  Some (setMatrixAt mesh (featuredIndex cursor) matrix);
                startTimeRef := startTimeRef self |},
             {| nonFeaturedIndex := nonFeaturedIndex cursor;
                featuredIndex := S (featuredIndex cursor) |})
        | None => st
        end
      else
        let matrix :=
          {| m_position := point;
             m_scale := {| x := 1; y := 1; z := 1 |} |} in
        match nonFeaturedMeshRef self with
        | Some mesh =>
            ({| nonFeaturedMeshRef :=
                  Some (setMatrixAt mesh (nonFeaturedIndex cursor) matrix);
                featuredMeshRef := featuredMeshRef self;
                startTimeRef := startTimeRef self |},
             {| nonFeaturedIndex := S (nonFeaturedIndex cursor);
                featuredIndex := featuredIndex cursor |})
        | None => st
        end
  end.

(** The loop over [tracks[i]], from index [i] on. *)
Fixpoint updateInstances (progress : Q) (featuredTrackIndex : option Z)
    (i : nat) (tracks : list (ProcessedTrack Curve))
    (st : RunnerOrbs * InstanceCursor) : RunnerOrbs * InstanceCursor :=
  match tracks with
  | [] => st
  | track :: rest =>
      updateInstances progress featuredTrackIndex (S i) rest
        (updateInstance progress featuredTrackIndex i track st)
  end.

(** The statements after the loop: flag both buffers and set their
    instance counts. *)
Definition finishFrame (intensity : Q) (st : RunnerOrbs * InstanceCursor)
    : RunnerOrbs :=
  let (self, cursor) := st in
  {| nonFeaturedMeshRef :=
       (fun mesh =>
          {| instanceMatrix := instanceMatrix mesh;
             needsUpdate := true;
             count := nonFeaturedIndex cursor;
             emissiveIntensity := emissiveIntensity mesh |})
         <$> nonFeaturedMeshRef self;
     featuredMeshRef :=
       (fun mesh =>
          {| instanceMatrix := instanceMatrix mesh;
             needsUpdate := true;
             count := featuredIndex cursor;
             emissiveIntensity := intensity |})
         <$> featuredMeshRef self;
     startTimeRef := startTimeRef self |}.

(** The callback [RunnerOrbs] passes to [useFrame]. *)
Definition RunnerOrbs_useFrame (tracks : list (ProcessedTrack Curve))
    (featuredTrackIndex : option Z) (self : RunnerOrbs) (clock : Clock)
    : RunnerOrbs * Clock :=
  let (now, clock) := Date_now clock in
  let elapsed := elapsedSeconds now (startTimeRef self) in
  let progress := frameProgress elapsed in
  let st :=
    updateInstances progress featuredTrackIndex 0 tracks
      (self, {| nonFeaturedIndex := 0; featuredIndex := 0 |}) in
  (finishFrame (blinkIntensity elapsed) st, clock).

(** The meshes as the component's JSX creates them: [count] instances for
    the non-featured mesh, one for the featured mesh. *)
Definition mounted (tracks : list (ProcessedTrack Curve))
    (self : RunnerOrbs) : Prop :=
  (forall mesh, nonFeaturedMeshRef self = Some mesh ->
                length (instanceMatrix mesh) = length tracks) /\
  (forall mesh, featuredMeshRef self = Some mesh ->
                length (instanceMatrix mesh) = 1%nat).

(** Whether loop index [i] is the featured one: [i === featuredTrackIndex]. *)
Definition isFeatured (featuredTrackIndex : option Z) (i : nat) : bool :=
  bool_decide (Some (Z.of_nat i) = featuredTrackIndex).

(** The curves of the tracks the loop sends to the featured mesh
    ([toFeatured = true]) or to the other mesh, in loop order; [i] is the
    index of the first track of [tracks]. *)
Fixpoint routed (featuredTrackIndex : option Z) (toFeatured : bool)
    (i : nat) (tracks : list (ProcessedTrack Curve)) : list Curve :=
  match tracks with
  | [] => []
  | track :: rest =>
      match curve track with
      | Some c =>
          if Bool.eqb (isFeatured featuredTrackIndex i) toFeatured
          then c :: routed featuredTrackIndex toFeatured (S i) rest
          else routed featuredTrackIndex toFeatured (S i) rest
      | None => routed featuredTrackIndex toFeatured (S i) rest
      end
  end.

(** The matrix of an orb on curve [c] at [progress]. *)
Definition orbMatrix (progress : Q) (toFeatured : bool) (c : Curve)
    : Matrix4 :=
  let size := if toFeatured then featuredRun_size config else 1%Q in
  {| m_position := getPointOnCurve Curve getPoint c progress;
     m_scale := {| x := size; y := size; z := size |} |}.

Definition meshOf (toFeatured : bool) (self : RunnerOrbs)
    : option InstancedMesh :=
  if toFeatured then featuredMeshRef self else nonFeaturedMeshRef self.

Definition cursorOf (toFeatured : bool) (cursor : InstanceCursor) : nat :=
  if toFeatured then featuredIndex cursor else nonFeaturedIndex cursor.

End AnimationDriver.

End TokyoRunVisualizer.

Import TokyoRunVisualizer.

(** The progress formula in the specification's words: the remainder of
    the elapsed time in the loop duration (the elapsed time minus the
    whole loops it contains) over the duration when looping, the elapsed
    fraction capped at 1 otherwise. *)
Definition specProgress (loopEnabled : bool) (loopDuration elapsed : Q) : Q :=
  if loopEnabled
  then ((elapsed
         - loopDuration * inject_Z (Qfloor (elapsed / loopDuration)))
        / loopDuration)%Q
  else Qmin (elapsed / loopDuration) 1.

(** ** hooks/useCameraAnimation.js *)

Module UseCameraAnimation.

Inductive AnimationState : Type := AUTO | TRANSITIONING | USER_CONTROL.

#[global] Instance AnimationState_eq_dec : EqDecision AnimationState.
Proof. solve_decision. Defined.

(** The object [startTransition] stores in [transitionDataRef]. *)
Record TransitionData : Type := {
  startPosition : Vector3;
  startTarget : Vector3;
  targetPosition : Vector3;
  targetLookAt : Vector3
}.

(** The state one [useCameraAnimation] call owns or writes. The two
    [useState] fields hold the value of the latest setter call, which is
    what the next render (and the [useFrame] callback it installs) reads;
    the [...Ref] mirrors are brought up to date by [syncRefs].
    [orbitTarget] is [orbitControlsRef.current.target], [None] while
    [orbitControlsRef.current] is null. *)
Record CameraAnimation : Type := {
  featuredTrackIndex : option Z;
  animationState : AnimationState;
  lastInteractionRef : Z;
  transitionStartRef : option Z;
  transitionDataRef : option TransitionData;
  animationStateRef : AnimationState;
  featuredTrackIndexRef : option Z;
  cameraPosition : Vector3;
  cameraFov : Q;
  orbitTarget : option Vector3
}.

(** The hook's state at mount. *)
Definition initialCameraAnimation (position : Vector3) (fov : Q)
    (target : option Vector3) : CameraAnimation :=
  {| featuredTrackIndex := None;
     animationState := AUTO;
     lastInteractionRef := 0;
     transitionStartRef := None;
     transitionDataRef := None;
     animationStateRef := AUTO;
     featuredTrackIndexRef := None;
     cameraPosition := position;
     cameraFov := fov;
     orbitTarget := target |}.

Definition setAnimationState (v : AnimationState) (s : CameraAnimation)
    : CameraAnimation :=
  {| featuredTrackIndex := featuredTrackIndex s;
     animationState := v;
     lastInteractionRef := lastInteractionRef s;
     transitionStartRef := transitionStartRef s;
     transitionDataRef := transitionDataRef s;
     animationStateRef := animationStateRef s;
     featuredTrackIndexRef := featuredTrackIndexRef s;
     cameraPosition := cameraPosition s;
     cameraFov := cameraFov s;
     orbitTarget := orbitTarget s |}.

Definition setFeaturedTrackIndex (v : option Z) (s : CameraAnimation)
    : CameraAnimation :=
  {| featuredTrackIndex := v;
     animationState := animationState s;
     lastInteractionRef := lastInteractionRef s;
     transitionStartRef := transitionStartRef s;
     transitionDataRef := transitionDataRef s;
     animationStateRef := animationStateRef s;
     featuredTrackIndexRef := featuredTrackIndexRef s;
     cameraPosition := cameraPosition s;
     cameraFov := cameraFov s;
     orbitTarget := orbitTarget s |}.

Definition setLastInteraction (v : Z) (s : CameraAnimation)
    : CameraAnimation :=
  {| featuredTrackIndex := featuredTrackIndex s;
     animationState := animationState s;
     lastInteractionRef := v;
     transitionStartRef := transitionStartRef s;
     transitionDataRef := transitionDataRef s;
     animationStateRef := animationStateRef s;
     featuredTrackIndexRef := featuredTrackIndexRef s;
     cameraPosition := cameraPosition s;
     cameraFov := cameraFov s;
     orbitTarget := orbitTarget s |}.

Definition setTransition (start : option Z) (data : option TransitionData)
    (s : CameraAnimation) : CameraAnimation :=
  {| featuredTrackIndex := featuredTrackIndex s;
     animationState := animationState s;
     lastInteractionRef := lastInteractionRef s;
     transitionStartRef := start;
     transitionDataRef := data;
     animationStateRef := animationStateRef s;
     featuredTrackIndexRef := featuredTrackIndexRef s;
     cameraPosition := cameraPosition s;
     cameraFov := cameraFov s;
     orbitTarget := orbitTarget s |}.

Definition setCamera (position : Vector3) (target : option Vector3)
    (s : CameraAnimation) : CameraAnimation :=
  {| featuredTrackIndex := featuredTrackIndex s;
     animationState := animationState s;
     lastInteractionRef := lastInteractionRef s;
     transitionStartRef := transitionStartRef s;
     transitionDataRef := transitionDataRef s;
     animationStateRef := animationStateRef s;
     featuredTrackIndexRef := featuredTrackIndexRef s;
     cameraPosition := position;
     cameraFov := cameraFov s;
     orbitTarget := target |}.

(** The two [useEffect]s that keep the refs in sync with the state. *)
Definition syncRefs (s : CameraAnimation) : CameraAnimation :=
  {| featuredTrackIndex := featuredTrackIndex s;
     animationState := animationState s;
     lastInteractionRef := lastInteractionRef s;
     transitionStartRef := transitionStartRef s;
     transitionDataRef := transitionDataRef s;
     animationStateRef := animationState s;
     featuredTrackIndexRef := featuredTrackIndex s;
     cameraPosition := cameraPosition s;
     cameraFov := cameraFov s;
     orbitTarget := orbitTarget s |}.

(** The listener of the controls' [change] event. *)
Definition handleInteraction (s : CameraAnimation) (clock : Clock)
    : CameraAnimation * Clock :=
  (* Ignore change events triggered by our own camera animation *)
  let currentState := animationStateRef s in
  if decide (currentState = TRANSITIONING) then (s, clock)
  else
    let (now, clock) := Date_now clock in
    let s := setLastInteraction now s in
    if decide (currentState = AUTO)
    then (setAnimationState USER_CONTROL s, clock)
    else (s, clock).

(** A run of the random-track loop: it returned [v] and left [rest] of the
    recorded [Math.random()] draws, or it is still looping when the
    recorded draws end. *)
Inductive Outcome (A : Type) : Type :=
| Returned (v : A) (rest : list Q)
| Starved.
Arguments Returned {A} v rest.
Arguments Starved {A}.

(** What [Math.random()] promises of a draw: it lies in [[0, 1)]. *)
Definition unitDraw (r : Q) : Prop := (0 <= r /\ r < 1)%Q.

(** The [do ... while] loop of [selectRandomTrack], one draw a turn. *)
Fixpoint selectRandomTrack_loop (len : Z) (featured : option Z)
    (random : list Q) : Outcome Z :=
  match random with
  | [] => Starved
  | r :: rest =>
      let newIndex := Js.floor (r * inject_Z len) in
      if bool_decide (Some newIndex = featured) && (1 <? len)
      then selectRandomTrack_loop len featured rest
      else Returned newIndex rest
  end.

Section CameraController.

Variable config : Config.
Variable Curve : Type.
Let cfg := cameraAnimation config.

(** [calculateOptimalCameraPosition(track, camera.fov)] of [utils.js]:
    the pose [(position, target)] it returns and the draws it leaves. No
    property below depends on the pose, so the computation is a
    parameter. *)
Variable calculateOptimalCameraPosition :
  ProcessedTrack Curve -> Q -> list Q -> Vector3 * Vector3 * list Q.

(** The callback of the inactivity [setInterval]; the effect installs it
    only while [animationState] is [USER_CONTROL]. *)
Definition checkInactivity (s : CameraAnimation) (clock : Clock)
    : CameraAnimation * Clock :=
  if decide (animationState s = USER_CONTROL) then
    let (now, clock) := Date_now clock in
    let timeSinceInteraction :=
      (inject_Z (now - lastInteractionRef s) / 1000)%Q in
    if Js.ltb (inactivityTimeout cfg) timeSinceInteraction
    then (setAnimationState AUTO s, clock)
    else (s, clock)
  else (s, clock).

Definition selectRandomTrack (tracks : list (ProcessedTrack Curve))
    (s : CameraAnimation) (random : list Q) : Outcome (option Z) :=
  if decide (length tracks = 0%nat) then Returned None random
  else
    match selectRandomTrack_loop (Z.of_nat (length tracks))
                                 (featuredTrackIndexRef s) random with
    | Returned newIndex rest => Returned (Some newIndex) rest
    | Starved => Starved
    end.

Definition startTransition (tracks : list (ProcessedTrack Curve))
    (trackIndex : Z) (s : CameraAnimation) (clock : Clock)
    (random : list Q) : CameraAnimation * Clock * list Q :=
  match (if (trackIndex <? 0) then None
         else tracks !! Z.to_nat trackIndex) with
  | None => (s, clock, random)
  | Some track =>
      let '(targetPos, targetLookAt, random) :=
        calculateOptimalCameraPosition track (cameraFov s) random in
      let data :=
        {| startPosition := cameraPosition s;
           startTarget :=
             default {| x := 0; y := 0; z := 0 |} (orbitTarget s);
           targetPosition := targetPos;
           targetLookAt := targetLookAt |} in
      let (now, clock) := Date_now clock in
      (setAnimationState TRANSITIONING
         (setTransition (Some now) (Some data) s), clock, random)
  end.

(** The callback of the selection [setInterval]. *)
Definition runInterval (tracks : list (ProcessedTrack Curve))
    (s : CameraAnimation) (clock : Clock) (random : list Q)
    : Outcome (CameraAnimation * Clock) :=
  if decide (animationStateRef s = AUTO) then
    match selectRandomTrack tracks s random with
    | Starved => Starved
    | Returned None rest => Returned (s, clock) rest
    | Returned (Some newTrackIndex) rest =>
        let '(s, clock, rest) :=
          startTransition tracks newTrackIndex
            (setFeaturedTrackIndex (Some newTrackIndex) s) clock rest in
        Returned (s, clock) rest
    end
  else Returned (s, clock) random.

(** The three numbers the transition frame computes. *)
Definition transitionElapsed (now : Z) (s : CameraAnimation) : Q :=
  (inject_Z (now - default 0%Z (transitionStartRef s)) / 1000)%Q.

Definition transitionProgress (elapsed : Q) : Q :=
  Js.min (elapsed / transitionSeconds cfg) 1.

(** The callback the hook passes to [useFrame]. *)
Definition CameraAnimation_useFrame (s : CameraAnimation) (clock : Clock)
    : CameraAnimation * Clock :=
  if decide (animationState s <> TRANSITIONING) then (s, clock)
  else
    match transitionDataRef s with
    | None => (s, clock)
    | Some data =>
        let (now, clock) := Date_now clock in
        let elapsed := transitionElapsed now s in
        let progress := transitionProgress elapsed in
        let easedProgress := easeInOutCubic progress in
        (* Lerp camera position *)
        let position :=
          lerpVectors (startPosition data) (targetPosition data)
                      easedProgress in
        (* Lerp orbit controls target *)
        let target :=
          (fun _ => lerpVectors (startTarget data) (targetLookAt data)
                                easedProgress) <$> orbitTarget s in
        let s := setCamera position target s in
        (* Transition complete *)
        if Qle_bool 1 progress
        then (setTransition (transitionStartRef s) None
                (setAnimationState AUTO s), clock)
        else (s, clock)
    end.

(** One callback of the hook other than the selection tick: a [change]
    event, an inactivity check, a frame, or the effects that bring the
    refs up to date after a render. *)
Inductive quietStep : CameraAnimation -> CameraAnimation -> Prop :=
| quiet_interaction s clock :
    quietStep s (fst (handleInteraction s clock))
| quiet_inactivity s clock :
    quietStep s (fst (checkInactivity s clock))
| quiet_frame s clock :
    quietStep s (fst (CameraAnimation_useFrame s clock))
| quiet_effects s :
    quietStep s (syncRefs s).

End CameraController.

End UseCameraAnimation.

Import UseCameraAnimation.

(** ** Sample data *)

(** Concrete values for the examples: point objects with their address,
    curves that remember their control points, and stand-ins for the
    library functions. *)
Module Sample.

Record GpsPoint : Type := {
  address : nat;
  lat : Q;
  lon : Q;
  ele : Q
}.

#[global] Instance Q_eq_dec : EqDecision Q.
Proof. solve_decision. Defined.

#[global] Instance GpsPoint_eq_dec : EqDecision GpsPoint.
Proof. solve_decision. Defined.

Definition Curve : Type := list Vector3.
Definition CatmullRomCurve3 (points3D : list Vector3) : option Curve :=
  Some points3D.
(** A curve that stands at its first control point. *)
Definition getPoint (curve : Curve) (t : Q) : Vector3 :=
  default {| x := 0; y := 0; z := 0 |} (head curve).
Definition Math_cos (a : Q) : Q := 1.
Definition Math_sin (a : Q) : Q := 0.
Definition Math_PI : Q := 355 # 113.

Definition noMetadata : TrackMetadata.t :=
  {| TrackMetadata.timestamp := None; TrackMetadata.index := 0 |}.

Definition point (a : nat) (la lo : Q) : GpsPoint :=
  {| address := a; lat := la; lon := lo; ele := 0 |}.

(** A track whose [points] array is empty. *)
Definition noPoints : TrackData (Point := GpsPoint) :=
  {| points := []; metadata := noMetadata |}.

(** A track of one point and a track of two points. *)
Definition onePoint : TrackData (Point := GpsPoint) :=
  {| points := [point 1 35 139]; metadata := noMetadata |}.
Definition twoPoints : TrackData (Point := GpsPoint) :=
  {| points := [point 2 35 139; point 3 36 140];
     metadata := noMetadata |}.

Definition processTracks
    (tracks : list (TrackData (Point := GpsPoint)))
    : Js.Completion (list (ProcessedTrack Curve)) :=
  Utils.processTracks shippedConfig Math_cos Math_PI lat lon ele
                      Curve CatmullRomCurve3 tracks.

(** A processed track whose curve stands at [p]. *)
Definition trackAt (n : nat) (p : Vector3) : ProcessedTrack Curve :=
  {| id := n;
     points3D := [p; p];
     curve := Some [p; p];
     originalPointCount := 2;
     processedPointCount := 2;
     p_metadata := {|
       ProcessedMetadata.timestamp := None;
       ProcessedMetadata.index := Z.of_nat n;
       ProcessedMetadata.startLat := 0;
       ProcessedMetadata.startLon := 0;
       ProcessedMetadata.endLat := 0;
       ProcessedMetadata.endLon := 0
     |} |}.

Definition origin : Vector3 := {| x := 0; y := 0; z := 0 |}.
Definition blank : Matrix4 := {| m_position := origin; m_scale := origin |}.

(** Three tracks and the component's two meshes as mounted for them. *)
Definition threeTracks : list (ProcessedTrack Curve) :=
  [trackAt 0 {| x := 1; y := 0; z := 0 |};
   trackAt 1 {| x := 0; y := 2; z := 0 |};
   trackAt 2 {| x := 0; y := 0; z := 3 |}].

Definition orbs : RunnerOrbs :=
  {| nonFeaturedMeshRef :=
       Some {| instanceMatrix := [blank; blank; blank];
               needsUpdate := false;
               count := 3;
               emissiveIntensity := 3 # 2 |};
     featuredMeshRef :=
       Some {| instanceMatrix := [blank];
               needsUpdate := false;
               count := 1;
               emissiveIntensity := 12 |};
     startTimeRef := 1000 |}.

(** A clock that advances 16 ms between two readings. *)
Definition clock : Clock :=
  {| ticks := fun n => 61000 + 16 * Z.of_nat n; reads := 0 |}.

(** A pose computation that looks at the origin from above. *)
Definition calculateOptimalCameraPosition (track : ProcessedTrack Curve)
    (fov : Q) (random : list Q) : Vector3 * Vector3 * list Q :=
  ({| x := 0; y := 100; z := 0 |}, origin, drop 2 random).

(** A transition towards [(7, 8, 9)], looking at [(1, 1, 1)], started at
    time 60000 from the camera's mount pose. *)
Definition transition : TransitionData :=
  {| startPosition := {| x := 0; y := 150; z := 150 |};
     startTarget := origin;
     targetPosition := {| x := 7; y := 8; z := 9 |};
     targetLookAt := {| x := 1; y := 1; z := 1 |} |}.

Definition transitioning : CameraAnimation :=
  {| featuredTrackIndex := Some 1;
     animationState := TRANSITIONING;
     lastInteractionRef := 0;
     transitionStartRef := Some 59000;
     transitionDataRef := Some transition;
     animationStateRef := TRANSITIONING;
     featuredTrackIndexRef := Some 1;
     cameraPosition := {| x := 0; y := 150; z := 150 |};
     cameraFov := 50;
     orbitTarget := Some origin |}.

End Sample.

(** ** Runs of the camera hook *)

Section HookRuns.

Variable config : Config.
Variable Curve : Type.
Variable calculateOptimalCameraPosition :
  ProcessedTrack Curve -> Q -> list Q -> Vector3 * Vector3 * list Q.
Variable tracks : list (ProcessedTrack Curve).

(** One callback of the hook: a quiet step, or a selection tick that
    returns, run on draws [Math.random()] can give. *)
Inductive hookStep : CameraAnimation -> CameraAnimation -> Prop :=
| step_quiet s s' :
    quietStep config s s' -> hookStep s s'
| step_tick s clock random s' clock' rest :
    Forall unitDraw random ->
    runInterval Curve calculateOptimalCameraPosition tracks s clock random
    = Returned (s', clock') rest ->
    hookStep s s'.

End HookRuns.

(** What every state of a run satisfies: a transition in progress has
    its data and start time, and the featured index, in the state and in
    the ref, is the position of a track. *)
Definition hookInvariant (Curve : Type)
    (tracks : list (ProcessedTrack Curve)) (s : CameraAnimation) : Prop :=
  (animationState s = TRANSITIONING ->
   is_Some (transitionDataRef s) /\ is_Some (transitionStartRef s)) /\
  (forall i, featuredTrackIndex s = Some i ->
     0 <= i < Z.of_nat (length tracks)) /\
  (forall i, featuredTrackIndexRef s = Some i ->
     0 <= i < Z.of_nat (length tracks)).




(** ** JavaScript numbers with infinities and NaN *)

(** The bounding boxes start from [Infinity] and [-Infinity], so the
    numbers that flow through them are rationals extended with the two
    infinities and [NaN]. Zero is taken as positive zero. *)
Module Num.

Inductive t : Type :=
| Fin (q : Q)
| PosInf
| NegInf
| NaN.

(** [isNaN]. *)
Definition isNaN (a : t) : bool :=
  match a with NaN => true | _ => false end.

(** [Math.min]. *)
Definition min (a b : t) : t :=
  match a, b with
  | NaN, _ | _, NaN => NaN
  | NegInf, _ | _, NegInf => NegInf
  | PosInf, c | c, PosInf => c
  | Fin p, Fin q => Fin (Qmin p q)
  end.

(** [Math.max]. *)
Definition max (a b : t) : t :=
  match a, b with
  | NaN, _ | _, NaN => NaN
  | PosInf, _ | _, PosInf => PosInf
  | NegInf, c | c, NegInf => c
  | Fin p, Fin q => Fin (Qmax p q)
  end.

(** Unary minus. *)
Definition neg (a : t) : t :=
  match a with
  | Fin p => Fin (- p)
  | PosInf => NegInf
  | NegInf => PosInf
  | NaN => NaN
  end.

(** [a + b]. *)
Definition add (a b : t) : t :=
  match a, b with
  | NaN, _ | _, NaN => NaN
  | PosInf, NegInf | NegInf, PosInf => NaN
  | PosInf, _ | _, PosInf => PosInf
  | NegInf, _ | _, NegInf => NegInf
  | Fin p, Fin q => Fin (p + q)
  end.

(** [a - b]. *)
Definition sub (a b : t) : t := add a (neg b).

(** An infinity times a finite number. *)
Definition scaleInf (inf : t) (q : Q) : t :=
  match (q ?= 0)%Q with
  | Gt => inf
  | Lt => neg inf
  | Eq => NaN
  end.

(** [a * b]. *)
Definition mul (a b : t) : t :=
  match a, b with
  | NaN, _ | _, NaN => NaN
  | Fin p, Fin q => Fin (p * q)
  | Fin p, inf => scaleInf inf p
  | inf, Fin q => scaleInf inf q
  | PosInf, PosInf | NegInf, NegInf => PosInf
  | PosInf, NegInf | NegInf, PosInf => NegInf
  end.

(** [a / b]. *)
Definition div (a b : t) : t :=
  match a, b with
  | NaN, _ | _, NaN => NaN
  | Fin p, Fin q =>
      if Qeq_bool q 0
      then match (p ?= 0)%Q with
           | Gt => PosInf
           | Lt => NegInf
           | Eq => NaN
           end
      else Fin (p / q)
  | Fin _, _ => Fin 0
  | inf, Fin q =>
      match (q ?= 0)%Q with
      | Lt => neg inf
      | _ => inf
      end
  | _, _ => NaN
  end.

End Num.

(** ** utils.js: bounding boxes and trail geometry *)

(** An object [{x, y, z}] of numbers. *)
Module XYZ.
Record t : Type := { x : Num.t; y : Num.t; z : Num.t }.
End XYZ.

(** The box [{min, max, center, size}] a bounding-box function returns. *)
Module Box.
Record t : Type := {
  min : XYZ.t;
  max : XYZ.t;
  center : XYZ.t;
  size : XYZ.t
}.
End Box.

(** A vector of finite coordinates as an [{x, y, z}] object. *)
Definition finite (v : Vector3) : XYZ.t :=
  {| XYZ.x := Num.Fin (x v); XYZ.y := Num.Fin (y v);
     XYZ.z := Num.Fin (z v) |}.

(** [p] lies in the box with corners [lo] and [hi]. *)
Definition inside (lo hi p : Vector3) : Prop :=
  (x lo <= x p <= x hi /\ y lo <= y p <= y hi /\ z lo <= z p <= z hi)%Q.

(** [a] is the least value of [f] over [seen]: a finite number that bounds
    them all from below and is the value at one of them. *)
Definition leastOf (f : Vector3 -> Q) (seen : list Vector3) (a : Num.t)
    : Prop :=
  exists m, a = Num.Fin m /\
            Forall (fun p => (m <= f p)%Q) seen /\
            exists p, p ∈ seen /\ f p = m.

(** [a] is the greatest value of [f] over [seen]. *)
Definition greatestOf (f : Vector3 -> Q) (seen : list Vector3) (a : Num.t)
    : Prop :=
  exists m, a = Num.Fin m /\
            Forall (fun p => (f p <= m)%Q) seen /\
            exists p, p ∈ seen /\ f p = m.

Module Framing.

(** The running [bounds] object of the two bounding-box functions. *)
Record Bounds : Type := {
  minX : Num.t;
  maxX : Num.t;
  minY : Num.t;
  maxY : Num.t;
  minZ : Num.t;
  maxZ : Num.t
}.

Definition initialBounds : Bounds :=
  {| minX := Num.PosInf; maxX := Num.NegInf;
     minY := Num.PosInf; maxY := Num.NegInf;
     minZ := Num.PosInf; maxZ := Num.NegInf |}.

(** The body of [points.forEach(point => ...)]. *)
Definition growBounds (bounds : Bounds) (point : Vector3) : Bounds :=
  {| minX := Num.min (minX bounds) (Num.Fin (x point));
     maxX := Num.max (maxX bounds) (Num.Fin (x point));
     minY := Num.min (minY bounds) (Num.Fin (y point));
     maxY := Num.max (maxY bounds) (Num.Fin (y point));
     minZ := Num.min (minZ bounds) (Num.Fin (z point));
     maxZ := Num.max (maxZ bounds) (Num.Fin (z point)) |}.

(** The bounds are tight for the points seen so far. *)
Definition tightBounds (seen : list Vector3) (bounds : Bounds) : Prop :=
  leastOf x seen (minX bounds) /\ greatestOf x seen (maxX bounds) /\
  leastOf y seen (minY bounds) /\ greatestOf y seen (maxY bounds) /\
  leastOf z seen (minZ bounds) /\ greatestOf z seen (maxZ bounds).

(** The object both functions return from the final [bounds]. *)
Definition boxOf (bounds : Bounds) : Box.t :=
  let half := fun a b => Num.div (Num.add a b) (Num.Fin 2) in
  {| Box.min := {| XYZ.x := minX bounds; XYZ.y := minY bounds;
                   XYZ.z := minZ bounds |};
     Box.max := {| XYZ.x := maxX bounds; XYZ.y := maxY bounds;
                   XYZ.z := maxZ bounds |};
     Box.center := {| XYZ.x := half (minX bounds) (maxX bounds);
                      XYZ.y := half (minY bounds) (maxY bounds);
                      XYZ.z := half (minZ bounds) (maxZ bounds) |};
     Box.size := {| XYZ.x := Num.sub (maxX bounds) (minX bounds);
                    XYZ.y := Num.sub (maxY bounds) (minY bounds);
                    XYZ.z := Num.sub (maxZ bounds) (minZ bounds) |} |}.

Section Boxes.

Variable Curve : Type.

(** [calculateBoundingBox], over all the tracks; the [points] of a
    processed track are its [points3D]. *)
Definition calculateBoundingBox (processedTracks : list (ProcessedTrack Curve))
    : Box.t :=
  boxOf (foldl (fun bounds track => foldl growBounds bounds (points3D track))
               initialBounds processedTracks).

End Boxes.

Section Trails.

Variable config : Config.
Variable Curve : Type.
Variable getPoint : Curve -> Q -> Vector3.

(** [curve.getPoints(divisions)] of three.js: the points at
    [d / divisions] for [d = 0, ..., divisions]. *)
Definition getPoints (c : Curve) (divisions : Z) : list Vector3 :=
  (fun d => getPoint c (inject_Z d / inject_Z divisions))
    <$> seqZ 0 (divisions + 1).

(** The inner [for] loop: one segment, six numbers, per pair of
    neighbouring points. *)
Fixpoint lineSegments (points : list Vector3) : list Q :=
  match points with
  | p :: (q :: _) as rest =>
      [x p; y p; z p; x q; y q; z q] ++ lineSegments rest
  | _ => []
  end.

(** [createTrailGeometry]: the [positions] array the geometry's position
    attribute is made of (its rounding to single precision is outside the
    number model). Reading [getPoints] of a missing curve throws. *)
Fixpoint createTrailGeometry (processedTracks : list (ProcessedTrack Curve))
    : Js.Completion (list Q) :=
  match processedTracks with
  | [] => Js.Normal []
  | track :: rest =>
      match curve track with
      | None => Js.Throw Js.TypeError
      | Some c =>
          match createTrailGeometry rest with
          | Js.Normal positions =>
              Js.Normal (lineSegments (getPoints c (curveSubdivisions config))
                         ++ positions)
          | Js.Throw e => Js.Throw e
          end
      end
  end.

End Trails.

End Framing.

Import Framing.

(** ** components/Stations.jsx *)

Module Stations.

Section Markers.

Variable Math_cos : Q -> Q.
Variable Math_PI : Q.

(** The component's own [gpsToCartesian], with its scale written in. *)
Definition gpsToCartesian (lat lon : Q) (center : Center.t) : Vector3 :=
  let projectionScale := 10000%Q in
  let latScale := projectionScale in
  let lonScale :=
    (projectionScale * Math_cos (Center.lat center * Math_PI / 180))%Q in
  let x := ((lon - Center.lon center) * lonScale)%Q in
  let z := (- (lat - Center.lat center) * latScale)%Q in
  let y := 0%Q in (* Ground level *)
  {| x := x; y := y; z := z |}.

End Markers.

End Stations.

(** ** utils.js: parseGPX *)

Module Gpx.

(** The parsed XML document as [DOMParser] hands it over: text nodes and
    elements with their attributes and children (comments and processing
    instructions carry nothing [parseGPX] reads and are left out). The
    document node is an [Element] whose only element child is the root. *)
#[local] Unset Elimination Schemes.
Inductive Node : Type :=
| Text (data : string)
| Element (tagName : string) (attributes : list (string * string))
          (childNodes : list Node).
#[local] Set Elimination Schemes.

(** The descendants of a node in document order, the node itself not
    among them. *)
Fixpoint descendants (node : Node) : list Node :=
  match node with
  | Text _ => []
  | Element _ _ childNodes =>
      flat_map (fun child => child :: descendants child) childNodes
  end.

Definition hasTag (name : string) (node : Node) : bool :=
  match node with
  | Text _ => false
  | Element tagName _ _ => String.eqb tagName name
  end.

Definition getElementsByTagName (node : Node) (name : string) : list Node :=
  List.filter (hasTag name) (descendants node).

Fixpoint textContent (node : Node) : string :=
  match node with
  | Text data => data
  | Element _ _ childNodes =>
      fold_right (fun child rest => (textContent child ++ rest)%string)
                 EmptyString childNodes
  end.

(** [getAttribute] gives [null] for a missing attribute. *)
Definition getAttribute (node : Node) (name : string) : option string :=
  match node with
  | Text _ => None
  | Element _ attributes _ =>
      snd <$> List.find (fun a => String.eqb (fst a) name) attributes
  end.

(** A point object [{ lat, lon, ele }] as [parseGPX] builds it. *)
Record Point : Type := {
  lat : Num.t;
  lon : Num.t;
  ele : Num.t
}.

Section Parse.

(** [parseFloat] and [String.prototype.trim]. *)
Variable parseFloat : string -> Num.t.
Variable trim : string -> string.

(** [parseFloat] turns its argument into a string first, [null] into
    ["null"]. *)
Definition parseFloatOf (value : option string) : Num.t :=
  parseFloat (default "null"%string value).

(** The body of the inner [for] loop: the point pushed for [trkpt], if
    one is pushed. *)
Definition readPoint (trkpt : Node) : option Point :=
  let lat := parseFloatOf (getAttribute trkpt "lat") in
  let lon := parseFloatOf (getAttribute trkpt "lon") in
  let eleElements := getElementsByTagName trkpt "ele" in
  let ele :=
    match eleElements with
    | first :: _ => parseFloat (textContent first)
    | [] => Num.Fin 0
    end in
  if negb (Num.isNaN lat) && negb (Num.isNaN lon)
  then Some {| lat := lat; lon := lon; ele := ele |}
  else None.

Definition timestampOf (trkElement : Node) : option string :=
  match getElementsByTagName trkElement "time" with
  | first :: _ => Some (trim (textContent first))
  | [] => None
  end.

Definition pointsOf (trkElement : Node) : list Point :=
  omap readPoint (getElementsByTagName trkElement "trkpt").

(** The outer [for] loop from [i] on, [tracks] being the array built so
    far. *)
Fixpoint parseGPX_for (trkElements : list Node) (i : Z)
    (tracks : list (TrackData (Point := Point)))
    : list (TrackData (Point := Point)) :=
  match trkElements with
  | [] => tracks
  | trkElement :: rest =>
      let timestamp := timestampOf trkElement in
      let trkpts := getElementsByTagName trkElement "trkpt" in
      if decide (length trkpts = 0%nat) then parseGPX_for rest (i + 1) tracks
      else
        let points := omap readPoint trkpts in
        if (0 <? length points)%nat then
          parseGPX_for rest (i + 1)
            (tracks ++ [{| points := points;
                           metadata := {|
                             TrackMetadata.timestamp := timestamp;
                             TrackMetadata.index := i
                           |} |}])
        else parseGPX_for rest (i + 1) tracks
  end.

Definition parseGPX (xmlDoc : Node) : list (TrackData (Point := Point)) :=
  parseGPX_for (getElementsByTagName xmlDoc "trk") 0 [].

(** The tracks the loop adds for [trkElements], the first of which
    stands at position [i]: one for each element with a usable point. *)
Fixpoint parsedFrom (trkElements : list Node) (i : Z)
    : list (TrackData (Point := Point)) :=
  match trkElements with
  | [] => []
  | trkElement :: rest =>
      match pointsOf trkElement with
      | [] => parsedFrom rest (i + 1)
      | points =>
          {| points := points;
             metadata := {|
               TrackMetadata.timestamp := timestampOf trkElement;
               TrackMetadata.index := i
             |} |} :: parsedFrom rest (i + 1)
      end
  end.

(** A point [parseFloat] could read both coordinates of. *)
Definition usable (point : Point) : Prop :=
  Num.isNaN (lat point) = false /\ Num.isNaN (lon point) = false.

(** What a parsed track records of the [<trk>] element it was made
    from, [base] being the position of the first of [trkElements]. *)
Definition fromElement (trkElements : list Node) (base : Z)
    (track : TrackData (Point := Point)) : Prop :=
  base <= TrackMetadata.index (metadata track) /\
  exists trkElement,
    trkElements !! Z.to_nat (TrackMetadata.index (metadata track) - base)
    = Some trkElement /\
    points track = pointsOf trkElement /\
    TrackMetadata.timestamp (metadata track) = timestampOf trkElement.

End Parse.

End Gpx.

(** A small GPX document: a track with a time stamp, one good point with
    an elevation and one point whose latitude does not parse; a track
    without points; a track with one good point. *)
Module GpxSample.

(** [parseFloat] on the strings of the sample documents. *)
Definition parseFloat (s : string) : Num.t :=
  if String.eqb s "35.5" then Num.Fin (71 # 2)
  else if String.eqb s "139.5" then Num.Fin (279 # 2)
  else if String.eqb s "12" then Num.Fin 12
  else Num.NaN.

Definition trim (s : string) : string :=
  if String.eqb s " 2024 " then "2024"%string else s.

Definition trkpt (lat lon : string) (children : list Gpx.Node) : Gpx.Node :=
  Gpx.Element "trkpt" [("lat", lat); ("lon", lon)]%string children.

Definition firstTrk : Gpx.Node :=
  Gpx.Element "trk" []
    [Gpx.Element "time" [] [Gpx.Text " 2024 "];
     Gpx.Element "trkseg" []
       [trkpt "35.5" "139.5" [Gpx.Element "ele" [] [Gpx.Text "12"]];
        trkpt "north" "139.5" []]].

Definition emptyTrk : Gpx.Node := Gpx.Element "trk" [] [].

Definition lastTrk : Gpx.Node :=
  Gpx.Element "trk" [] [Gpx.Element "trkseg" [] [trkpt "35.5" "139.5" []]].

Definition document : Gpx.Node :=
  Gpx.Element "#document" []
    [Gpx.Element "gpx" [] [firstTrk; emptyTrk; lastTrk]].

Definition fullDocument : Gpx.Node :=
  Gpx.Element "#document" [] [Gpx.Element "gpx" [] [firstTrk; lastTrk]].

End GpxSample.

(** ** IEEE 754 double precision *)

(** A double is its exact rational value (or an infinity or [NaN], the
    other cases of [Num.t]); an arithmetic operation is the exact
    operation followed by rounding to the nearest double, ties to the even
    significand: 53 significant bits, subnormals spaced [2^-1074] apart,
    overflow from [2^1024] on. The sign of a zero is not kept. *)
Module F64.

Local Open Scope Q_scope.

Definition pow2 (e : Z) : Q := 2 ^ e.

(** [floor (log2 q)] for a positive [q]. *)
Definition ilog2 (q : Q) : Z :=
  let e := (Z.log2 (Qnum q) - Z.log2 (Z.pos (Qden q)))%Z in
  if Qle_bool (pow2 e) q then e else (e - 1)%Z.

(** The exponent of the last significand bit of the doubles around [q]. *)
Definition ulpExp (q : Q) : Z := Z.max (ilog2 (Qabs q) - 52) (-1074).

(** The nearest integer, a tie going to the even one. *)
Definition nearestEven (q : Q) : Z :=
  let f := Qfloor q in
  match Qcompare (q - inject_Z f) (1 # 2) with
  | Lt => f
  | Gt => (f + 1)%Z
  | Eq => if Z.even f then f else (f + 1)%Z
  end.

(** The nearest number with a 53-bit significand (exponent unbounded
    above). *)
Definition roundQ (q : Q) : Q :=
  if Qeq_bool q 0 then 0
  else inject_Z (nearestEven (q / pow2 (ulpExp q))) * pow2 (ulpExp q).

(** The double nearest to [q]; its value is kept in lowest terms, so that
    equal doubles are equal terms. *)
Definition round (q : Q) : Num.t :=
  let r := Qred (roundQ q) in
  if Qle_bool (pow2 1024) r then Num.PosInf
  else if Qle_bool r (- pow2 1024) then Num.NegInf
  else Num.Fin r.

(** Rounding the exact result of an operation. *)
Definition rounded (a : Num.t) : Num.t :=
  match a with
  | Num.Fin q => round q
  | _ => a
  end.

Definition add (a b : Num.t) : Num.t := rounded (Num.add a b).
Definition sub (a b : Num.t) : Num.t := rounded (Num.sub a b).
Definition mul (a b : Num.t) : Num.t := rounded (Num.mul a b).
Definition div (a b : Num.t) : Num.t := rounded (Num.div a b).

(** A numeric literal of the source, and an integer such as an array
    length or a [Date.now()] reading, as doubles. *)
Definition lit (q : Q) : Num.t := round q.
Definition ofZ (z : Z) : Num.t := round (inject_Z z).

(** [Math.floor]; the result of flooring a double is a double. *)
Definition floor (a : Num.t) : Num.t :=
  match a with
  | Num.Fin q => Num.Fin (inject_Z (Qfloor q))
  | _ => a
  end.

(** [a % b]: the remainder of the truncated quotient, which is exact. *)
Definition rem (a b : Num.t) : Num.t :=
  match a, b with
  | Num.Fin p, Num.Fin q =>
      if Qeq_bool q 0 then Num.NaN else Num.Fin (Qred (Js.rem p q))
  | Num.Fin p, (Num.PosInf | Num.NegInf) => a
  | _, _ => Num.NaN
  end.

(** [a < b] and [a >= b]; a comparison with [NaN] is false. *)
Definition ltb (a b : Num.t) : bool :=
  match a, b with
  | Num.NaN, _ | _, Num.NaN => false
  | Num.Fin p, Num.Fin q => Js.ltb p q
  | Num.NegInf, Num.NegInf | Num.PosInf, _ => false
  | Num.NegInf, _ | _, Num.PosInf => true
  | _, Num.NegInf => false
  end.

Definition geb (a b : Num.t) : bool :=
  match a, b with
  | Num.NaN, _ | _, Num.NaN => false
  | _, _ => negb (ltb a b)
  end.

End F64.

(** ** The source in double precision *)

(** The functions whose result turns on rounding or on [NaN], with
    numbers as doubles ([F64]): every arithmetic operation of the source
    is one rounded operation here, in the order the source writes them. *)
Module Doubles.

(** *** utils.js: downsampleTrack *)

Section Downsample.

(** Array elements are object references; [decide (a = b)] is [a === b],
    and [None] is [undefined]. *)
Context {A : Type} `{EqDecision A}.

(** [points[index]]: [undefined] unless [index] is a position of the
    array. *)
Definition at_index (points : list A) (index : Num.t) : option A :=
  match index with
  | Num.Fin q =>
      if Qeq_bool q (inject_Z (Qfloor q)) && (0 <=? Qfloor q)
      then points !! Z.to_nat (Qfloor q)
      else None
  | _ => None
  end.

(** [Math.floor(i * step)] with [step = points.length / maxPoints]. *)
Definition strideIndex (len maxPoints i : Z) : Num.t :=
  let step := F64.div (F64.ofZ len) (F64.ofZ maxPoints) in
  F64.floor (F64.mul (F64.ofZ i) step).

(** The [for] loop: [count] iterations left, loop variable [i]. *)
Fixpoint downsample_loop (points : list A) (maxPoints : Z)
    (count : nat) (i : Z) (downsampled : list (option A))
    : list (option A) :=
  match count with
  | O => downsampled
  | S count' =>
      let index := strideIndex (Z.of_nat (length points)) maxPoints i in
      downsample_loop points maxPoints count' (i + 1)
                      (downsampled ++ [at_index points index])
  end.

Definition downsampleTrack (points : list A) (maxPoints : Z)
    : list (option A) :=
  if Z.of_nat (length points) <=? maxPoints then Some <$> points
  else
    let downsampled :=
      downsample_loop points maxPoints (Z.to_nat maxPoints) 0 [] in
    (* Always include the last point *)
    if decide (mjoin (last downsampled) = last points) then downsampled
    else downsampled ++ [last points].

End Downsample.

(** *** TokyoRunVisualizer.jsx: the progress of a frame *)

Section Progress.

Variable config : Config.

(** [(Date.now() - startTimeRef.current) / 1000]. *)
Definition elapsedSeconds (now start : Z) : Num.t :=
  F64.div (F64.sub (F64.ofZ now) (F64.ofZ start)) (Num.Fin 1000).

Definition frameProgress (now start : Z) : Num.t :=
  let elapsed := elapsedSeconds now start in
  let animationDuration := F64.lit (animationDuration config) in
  if animationLoop config
  then F64.div (F64.rem elapsed animationDuration) animationDuration
  else Num.min (F64.div elapsed animationDuration) (Num.Fin 1).

End Progress.

(** *** utils.js: easeInOutCubic; three.js: lerpVectors *)

Section Easing.

(** [Math.pow], which the language leaves to the engine except for its
    exact cases. *)
Variable Math_pow : Num.t -> Num.t -> Num.t.

Definition easeInOutCubic (t : Num.t) : Num.t :=
  if F64.ltb t (F64.lit (1 # 2))
  then F64.mul (F64.mul (F64.mul (Num.Fin 4) t) t) t
  else F64.sub (Num.Fin 1)
         (F64.div
            (Math_pow (F64.add (F64.mul (Num.Fin (-2)) t) (Num.Fin 2))
                      (Num.Fin 3))
            (Num.Fin 2)).

End Easing.

(** [Vector3.lerpVectors(v1, v2, alpha)] of three.js:
    each component is [v1 + (v2 - v1) * alpha]. *)
Definition lerpVectors (v1 v2 : XYZ.t) (alpha : Num.t) : XYZ.t :=
  {| XYZ.x :=
       F64.add (XYZ.x v1) (F64.mul (F64.sub (XYZ.x v2) (XYZ.x v1)) alpha);
     XYZ.y :=
       F64.add (XYZ.y v1) (F64.mul (F64.sub (XYZ.y v2) (XYZ.y v1)) alpha);
     XYZ.z :=
       F64.add (XYZ.z v1) (F64.mul (F64.sub (XYZ.z v2) (XYZ.z v1)) alpha) |}.

(** *** hooks/useCameraAnimation.js: the frame callback *)

(** The object [startTransition] stores in [transitionDataRef]. *)
Record TransitionData : Type := {
  startPosition : XYZ.t;
  startTarget : XYZ.t;
  targetPosition : XYZ.t;
  targetLookAt : XYZ.t
}.

(** What the frame callback reads and writes of the hook's state:
    [orbitTarget] is [orbitControlsRef.current.target], [None] while
    [orbitControlsRef.current] is null. *)
Record Transition : Type := {
  animationState : AnimationState;
  transitionStartRef : option Z;
  transitionDataRef : option TransitionData;
  cameraPosition : XYZ.t;
  orbitTarget : option XYZ.t
}.

Section Frame.

Variable config : Config.
Let cfg := cameraAnimation config.
Variable Math_pow : Num.t -> Num.t -> Num.t.

(** [orbitControlsRef.current.update()] of three.js's [OrbitControls]:
    what it makes of the camera position and the orbit target. *)
Variable OrbitControls_update : XYZ.t * XYZ.t -> XYZ.t * XYZ.t.

Definition transitionProgress (now : Z) (s : Transition) : Num.t :=
  let elapsed :=
    F64.div (F64.sub (F64.ofZ now)
                     (F64.ofZ (default 0%Z (transitionStartRef s))))
            (Num.Fin 1000) in
  Num.min (F64.div elapsed (F64.lit (transitionSeconds cfg))) (Num.Fin 1).

(** The callback the hook passes to [useFrame]; its progress log writes
    nothing and is left out. *)
Definition CameraAnimation_useFrame (s : Transition) (clock : Clock)
    : Transition * Clock :=
  if decide (animationState s <> TRANSITIONING) then (s, clock)
  else
    match transitionDataRef s with
    | None => (s, clock)
    | Some data =>
        let (now, clock) := Date_now clock in
        let progress := transitionProgress now s in
        let easedProgress := easeInOutCubic Math_pow progress in
        (* Lerp camera position *)
        let position :=
          lerpVectors (startPosition data) (targetPosition data)
                      easedProgress in
        (* Lerp orbit controls target *)
        let '(position, target) :=
          match orbitTarget s with
          | Some _ =>
              let newTarget :=
                lerpVectors (startTarget data) (targetLookAt data)
                            easedProgress in
              let (position, target) :=
                OrbitControls_update (position, newTarget) in
              (position, Some target)
          | None => (position, None)
          end in
        (* Transition complete *)
        if F64.geb progress (Num.Fin 1)
        then ({| animationState := AUTO;
                 transitionStartRef := transitionStartRef s;
                 transitionDataRef := None;
                 cameraPosition := position;
                 orbitTarget := target |}, clock)
        else ({| animationState := animationState s;
                 transitionStartRef := transitionStartRef s;
                 transitionDataRef := transitionDataRef s;
                 cameraPosition := position;
                 orbitTarget := target |}, clock)
    end.

End Frame.

(** *** utils.js: bounding boxes and the viewing pose *)

(** A processed track as the bounding-box functions read it: they use its
    [points] only, whose coordinates may be any number. *)
Record Track : Type := { points : list XYZ.t }.

(** The body of [points.forEach(point => ...)]. *)
Definition growBounds (bounds : Framing.Bounds) (point : XYZ.t)
    : Framing.Bounds :=
  {| Framing.minX := Num.min (Framing.minX bounds) (XYZ.x point);
     Framing.maxX := Num.max (Framing.maxX bounds) (XYZ.x point);
     Framing.minY := Num.min (Framing.minY bounds) (XYZ.y point);
     Framing.maxY := Num.max (Framing.maxY bounds) (XYZ.y point);
     Framing.minZ := Num.min (Framing.minZ bounds) (XYZ.z point);
     Framing.maxZ := Num.max (Framing.maxZ bounds) (XYZ.z point) |}.

(** The object both functions return from the final [bounds]. *)
Definition boxOf (bounds : Framing.Bounds) : Box.t :=
  let half := fun a b => F64.div (F64.add a b) (Num.Fin 2) in
  {| Box.min := {| XYZ.x := Framing.minX bounds;
                   XYZ.y := Framing.minY bounds;
                   XYZ.z := Framing.minZ bounds |};
     Box.max := {| XYZ.x := Framing.maxX bounds;
                   XYZ.y := Framing.maxY bounds;
                   XYZ.z := Framing.maxZ bounds |};
     Box.center :=
       {| XYZ.x := half (Framing.minX bounds) (Framing.maxX bounds);
          XYZ.y := half (Framing.minY bounds) (Framing.maxY bounds);
          XYZ.z := half (Framing.minZ bounds) (Framing.maxZ bounds) |};
     Box.size :=
       {| XYZ.x := F64.sub (Framing.maxX bounds) (Framing.minX bounds);
          XYZ.y := F64.sub (Framing.maxY bounds) (Framing.minY bounds);
          XYZ.z := F64.sub (Framing.maxZ bounds) (Framing.minZ bounds) |} |}.

Definition calculateTrackBoundingBox (track : Track) : Box.t :=
  boxOf (foldl growBounds Framing.initialBounds (points track)).

Definition calculateBoundingBox (processedTracks : list Track) : Box.t :=
  boxOf (foldl (fun bounds track => foldl growBounds bounds (points track))
               Framing.initialBounds processedTracks).

(** A point all of whose coordinates are finite numbers. *)
Definition finitePoint (p : XYZ.t) : Prop := exists v : Vector3, p = finite v.

(** The box has no number along [axis]: there its [min], [max], [center]
    and [size] are all [NaN]. *)
Definition poisoned (axis : XYZ.t -> Num.t) (box : Box.t) : Prop :=
  axis (Box.min box) = Num.NaN /\ axis (Box.max box) = Num.NaN /\
  axis (Box.center box) = Num.NaN /\ axis (Box.size box) = Num.NaN.

(** The object [{position, target, bbox}] the pose computation returns;
    the two [THREE.Vector3] are given by their coordinates. *)
Record Pose : Type := {
  position : XYZ.t;
  target : XYZ.t;
  bbox : Box.t
}.

Section CameraPose.

Variable config : Config.
Variable Math_tan Math_sin Math_cos : Num.t -> Num.t.
Variable Math_PI : Num.t.
Let cfg := cameraAnimation config.

(** [calculateOptimalCameraPosition]: it makes two [Math.random()] draws,
    the horizontal angle and then the vertical angle. *)
Definition calculateOptimalCameraPosition (track : Track)
    (cameraFov : Num.t) (random : list Q) : Outcome Pose :=
  let bbox := calculateTrackBoundingBox track in
  (* Calculate required distance to fit track in view *)
  let maxDimension :=
    Num.max (XYZ.x (Box.size bbox)) (XYZ.z (Box.size bbox)) in
  let fovRadians :=
    F64.div (F64.mul cameraFov Math_PI) (Num.Fin 180) in
  let baseDistance :=
    F64.div (F64.div maxDimension (Num.Fin 2))
            (Math_tan (F64.div fovRadians (Num.Fin 2))) in
  let distance :=
    Num.max (F64.lit (minDistance cfg))
            (Num.min (F64.lit (maxDistance cfg))
                     (F64.mul baseDistance
                              (F64.lit (distancePaddingFactor cfg)))) in
  match random with
  | r1 :: r2 :: rest =>
      let horizontalAngle :=
        F64.mul (F64.mul (Num.Fin r1) Math_PI) (Num.Fin 2) in
      let verticalAngleDegrees :=
        F64.add (Num.Fin 10) (F64.mul (Num.Fin r2) (Num.Fin 80)) in
      let verticalAngle :=
        F64.div (F64.mul verticalAngleDegrees Math_PI) (Num.Fin 180) in
      let heightOffset := F64.mul distance (Math_sin verticalAngle) in
      let horizontalDistance :=
        F64.mul distance (Math_cos verticalAngle) in
      let position :=
        {| XYZ.x :=
             F64.add (XYZ.x (Box.center bbox))
                     (F64.mul horizontalDistance
                              (Math_cos horizontalAngle));
           XYZ.y :=
             F64.add (F64.add (XYZ.y (Box.center bbox)) heightOffset)
                     (F64.mul (XYZ.y (Box.size bbox))
                              (F64.lit (heightOffsetFactor cfg)));
           XYZ.z :=
             F64.add (XYZ.z (Box.center bbox))
                     (F64.mul horizontalDistance
                              (Math_sin horizontalAngle)) |} in
      let target :=
        {| XYZ.x := XYZ.x (Box.center bbox);
           XYZ.y := XYZ.y (Box.center bbox);
           XYZ.z := XYZ.z (Box.center bbox) |} in
      Returned {| position := position; target := target; bbox := bbox |}
               rest
  | _ => Starved
  end.

End CameraPose.

End Doubles.

(** Concrete values for the examples in double precision. *)
Module DoublesSample.

(** A cube by two rounded products, standing in for [Math.pow(b, 3)]. *)
Definition Math_pow (b e : Num.t) : Num.t := F64.mul (F64.mul b b) b.

(** Controls whose [update()] leaves the camera and the target alone. *)
Definition OrbitControls_update (pose : XYZ.t * XYZ.t) : XYZ.t * XYZ.t :=
  pose.

Definition vector (x y z : Q) : XYZ.t :=
  {| XYZ.x := Num.Fin x; XYZ.y := Num.Fin y; XYZ.z := Num.Fin z |}.

(** A transition from [(0, 150, 0)] to the double next below 25 in
    height, [24.999999999999996], started at time 59000. *)
Definition transition : Doubles.TransitionData :=
  {| Doubles.startPosition := vector 0 150 0;
     Doubles.startTarget := vector 0 0 0;
     Doubles.targetPosition :=
       vector 0 (7036874417766399 # 281474976710656) 0;
     Doubles.targetLookAt := vector 0 0 0 |}.

Definition transitioning : Doubles.Transition :=
  {| Doubles.animationState := TRANSITIONING;
     Doubles.transitionStartRef := Some 59000;
     Doubles.transitionDataRef := Some transition;
     Doubles.cameraPosition := vector 0 150 0;
     Doubles.orbitTarget := Some (vector 0 0 0) |}.

(** A track of two points, and one whose second point has an elevation
    that did not parse. *)
Definition level : Doubles.Track :=
  {| Doubles.points := [vector 1 2 3; vector 4 0 (-1)] |}.

Definition broken : Doubles.Track :=
  {| Doubles.points :=
       [vector 1 2 3;
        {| XYZ.x := Num.Fin 4; XYZ.y := Num.NaN; XYZ.z := Num.Fin (-1) |}] |}.

End DoublesSample.
(** * Properties *)

(** ** Arithmetic of the number model *)

Lemma inject_Z_div_floor (n d : Z) :
  0 < d -> Qfloor (inject_Z n / inject_Z d) = n / d.
Proof. intros _. symmetry. apply Zdiv_Qdiv. Qed.

Lemma strideIndex_div (len maxPoints i : Z) :
  0 < maxPoints -> strideIndex len maxPoints i = i * len / maxPoints.
Proof.
  intros Hmax. unfold strideIndex, Js.floor.
  rewrite <- (inject_Z_div_floor (i * len) maxPoints Hmax).
  apply Qfloor_comp. rewrite inject_Z_mult. field.
  intros H. apply (Qeq_bool_neq (inject_Z maxPoints) 0); [|exact H].
  destruct maxPoints; try lia. reflexivity.
Qed.

Lemma stride_step (len maxPoints i : Z) :
  0 < maxPoints -> maxPoints <= len -> 0 <= i ->
  i * len / maxPoints < (i + 1) * len / maxPoints.
Proof.
  intros Hmax Hlen Hi.
  assert (i * len / maxPoints + 1 <= (i + 1) * len / maxPoints); [|lia].
  rewrite <- (Z.div_add _ 1 maxPoints) by lia.
  apply Z.div_le_mono; lia.
Qed.

Lemma stride_mono (len maxPoints i j : Z) :
  0 < maxPoints -> 0 <= len -> 0 <= i -> i <= j ->
  i * len / maxPoints <= j * len / maxPoints.
Proof. intros. apply Z.div_le_mono; nia. Qed.

Lemma stride_in_range (len maxPoints i : Z) :
  0 < maxPoints -> 0 <= i -> i < maxPoints -> 0 < len ->
  0 <= i * len / maxPoints < len.
Proof.
  intros. split.
  - apply Z.div_pos; nia.
  - apply Z.div_lt_upper_bound; nia.
Qed.

(** ** downsampleTrack *)

Lemma strideIndices_length (len maxPoints : Z) (count : nat) (i : Z) :
  length (strideIndices len maxPoints count i) = count.
Proof. revert i. induction count as [|c IH]; intros i; simpl; auto. Qed.

Lemma strideIndices_lookup (len maxPoints : Z) (count : nat) (i : Z)
    (k : nat) :
  (k < count)%nat ->
  strideIndices len maxPoints count i !! k
  = Some (Z.to_nat (strideIndex len maxPoints (i + Z.of_nat k))).
Proof.
  revert i k. induction count as [|c IH]; intros i k Hk; [lia|].
  destruct k as [|k]; simpl.
  - now rewrite Z.add_0_r.
  - rewrite IH by lia. do 3 f_equal. lia.
Qed.

Lemma strideIndices_lower (len maxPoints : Z) (count : nat) (i : Z) :
  0 < maxPoints -> 0 <= len -> 0 <= i ->
  Forall (fun j => (Z.to_nat (i * len / maxPoints) <= j)%nat)
         (strideIndices len maxPoints count i).
Proof.
  intros Hmax Hlen. revert i.
  induction count as [|c IH]; intros i Hi; simpl; constructor.
  - rewrite strideIndex_div by lia. lia.
  - eapply Forall_impl; [apply IH; lia|].
    intros j Hj; simpl in Hj.
    pose proof (stride_mono len maxPoints i (i + 1) Hmax Hlen Hi ltac:(lia)).
    lia.
Qed.

Lemma strideIndices_sorted (len maxPoints : Z) (count : nat) (i : Z) :
  0 < maxPoints -> maxPoints <= len -> 0 <= i ->
  StronglySorted lt (strideIndices len maxPoints count i).
Proof.
  intros Hmax Hlen. revert i.
  induction count as [|c IH]; intros i Hi; simpl; constructor.
  - apply IH; lia.
  - eapply Forall_impl;
      [apply (strideIndices_lower len maxPoints c (i + 1)); lia|].
    intros j Hj; simpl in Hj.
    rewrite strideIndex_div by lia.
    pose proof (stride_step len maxPoints i Hmax Hlen Hi).
    assert (0 <= i * len / maxPoints) by (apply Z.div_pos; nia).
    lia.
Qed.

Lemma strideIndices_bound (len maxPoints : Z) (count : nat) (i : Z) :
  0 < maxPoints -> 0 < len -> 0 <= i -> i + Z.of_nat count <= maxPoints ->
  Forall (fun j => (j < Z.to_nat len)%nat)
         (strideIndices len maxPoints count i).
Proof.
  intros Hmax Hlen. revert i.
  induction count as [|c IH]; intros i Hi Hc; simpl; constructor.
  - rewrite strideIndex_div by lia.
    pose proof (stride_in_range len maxPoints i Hmax Hi ltac:(lia) Hlen).
    lia.
  - apply IH; lia.
Qed.

Lemma seq_sorted (j n : nat) : StronglySorted lt (seq j n).
Proof.
  revert j. induction n as [|n IH]; intros j; simpl; constructor; auto.
  apply Forall_seq. intros; lia.
Qed.

Section DownsampleFacts.

Context {A : Type} `{EqDecision A}.
Implicit Types (points : list A) (maxPoints : Z).

Lemma readsAt_all points : readsAt points (seq 0 (length points)) points.
Proof.
  apply Forall2_same_length_lookup. split; [now rewrite length_seq|].
  intros i j v Hj Hv. apply lookup_seq in Hj as [-> _]. exact Hv.
Qed.

Lemma readsAt_snoc points positions out i v :
  readsAt points positions out -> points !! i = Some v ->
  readsAt points (positions ++ [i]) (out ++ [v]).
Proof.
  intros Hr Hv. apply Forall2_app; [exact Hr|].
  constructor; [exact Hv|constructor].
Qed.

(** The loop never reads past the end of the array, and what it appends
    are the elements at the stride positions. *)
Lemma downsample_loop_total points maxPoints (count : nat) (i : Z)
    (downsampled : list A) :
  0 < maxPoints -> 0 <= i -> i + Z.of_nat count <= maxPoints ->
  (0 < length points)%nat ->
  exists picked,
    downsample_loop points maxPoints count i downsampled
    = downsampled ++ picked /\
    readsAt points
      (strideIndices (Z.of_nat (length points)) maxPoints count i) picked.
Proof.
  intros Hmax Hi Hc Hlen. revert i downsampled Hi Hc.
  induction count as [|c IH]; intros i downsampled Hi Hc; simpl.
  - exists []. split; [now rewrite app_nil_r|constructor].
  - pose proof (stride_in_range (Z.of_nat (length points)) maxPoints i
                  Hmax Hi ltac:(lia) ltac:(lia)) as Hrange.
    rewrite <- strideIndex_div in Hrange by lia.
    destruct (lookup_lt_is_Some_2 points
                (Z.to_nat (strideIndex (Z.of_nat (length points))
                                       maxPoints i)) ltac:(lia))
      as [p Hp].
    rewrite Hp.
    destruct (IH (i + 1) (downsampled ++ [p]) ltac:(lia) ltac:(lia))
      as (picked & Heq & Hreads).
    exists (p :: picked). split.
    + rewrite Heq. now rewrite <- app_assoc.
    + constructor; assumption.
Qed.

(** The shape of the result when the track is longer than [maxPoints]:
    the stride picks, followed by the last point unless the last pick
    is that very object. *)
Lemma downsampleTrack_long points maxPoints :
  1 <= maxPoints -> maxPoints < Z.of_nat (length points) ->
  exists picked final,
    last points = Some final /\
    readsAt points
      (strideIndices (Z.of_nat (length points)) maxPoints
                     (Z.to_nat maxPoints) 0) picked /\
    ((last picked = Some final /\
      downsampleTrack points maxPoints = picked) \/
     (last picked <> Some final /\
      downsampleTrack points maxPoints = picked ++ [final])).
Proof.
  intros Hmax Hlen.
  destruct (downsample_loop_total points maxPoints (Z.to_nat maxPoints)
              0 [] ltac:(lia) ltac:(lia) ltac:(lia) ltac:(lia))
    as (picked & Heq & Hreads).
  simpl in Heq.
  destruct (last points) as [final|] eqn:Hlast.
  2: { apply last_None in Hlast. subst points. simpl in Hlen. lia. }
  exists picked, final. split; [reflexivity|]. split; [exact Hreads|].
  unfold downsampleTrack.
  destruct (Z.leb_spec (Z.of_nat (length points)) maxPoints); [lia|].
  rewrite Heq, Hlast.
  destruct (decide (last picked = Some final)); [left|right]; auto.
Qed.

End DownsampleFacts.

Lemma stride_below_last (len maxPoints i : Z) :
  0 < maxPoints -> maxPoints < len -> 0 <= i -> i < maxPoints ->
  i * len / maxPoints < len - 1.
Proof. intros. apply Z.div_lt_upper_bound; nia. Qed.

Lemma strideIndices_below_last (len maxPoints : Z) (count : nat) (i : Z) :
  0 < maxPoints -> maxPoints < len -> 0 <= i ->
  i + Z.of_nat count <= maxPoints ->
  Forall (fun j => (j < Z.to_nat len - 1)%nat)
         (strideIndices len maxPoints count i).
Proof.
  intros Hmax Hlen. revert i.
  induction count as [|c IH]; intros i Hi Hc; simpl; constructor.
  - rewrite strideIndex_div by lia.
    pose proof (stride_below_last len maxPoints i Hmax Hlen Hi ltac:(lia)).
    assert (0 <= i * len / maxPoints) by (apply Z.div_pos; nia).
    lia.
  - apply IH; lia.
Qed.

Section SubsequenceFacts.

Context {A : Type}.
Implicit Types (points out : list A) (positions : list nat).

(** Reading a list at strictly increasing positions gives a sublist. *)
Lemma readsAt_sublist_from positions : forall out points (base : nat),
  StronglySorted lt positions ->
  Forall (fun i => (base <= i)%nat) positions ->
  Forall2 (fun i v => points !! (i - base)%nat = Some v) positions out ->
  out `sublist_of` points.
Proof.
  induction positions as [|i rest IH]; intros out points base Hs Hb Hr.
  - apply Forall2_nil_inv_l in Hr. subst out. apply sublist_nil_l.
  - destruct out as [|v out']; [inversion Hr|].
    apply Forall2_cons in Hr as [Hv Hr].
    apply StronglySorted_cons in Hs as [Hgt Hs].
    apply Forall_cons in Hb as [Hbi Hb].
    rewrite <- (take_drop_middle points (i - base) v Hv).
    apply sublist_inserts_l, sublist_skip.
    apply (IH out' _ (S i) Hs).
    + eapply Forall_impl; [exact Hgt|]. intros j Hj; simpl in Hj. lia.
    + apply Forall2_same_length_lookup. split.
      * now apply Forall2_length in Hr.
      * intros k j w Hj Hw.
        pose proof (Forall2_lookup_lr _ _ _ _ _ _ Hr Hj Hw) as Hjw.
        simpl in Hjw. rewrite lookup_drop.
        rewrite Forall_forall in Hgt.
        assert (i < j)%nat
          by (apply Hgt; eapply list_elem_of_lookup_2; exact Hj).
        replace (S (i - base) + (j - S i))%nat with (j - base)%nat by lia.
        exact Hjw.
Qed.

Lemma readsAt_sublist points positions out :
  StronglySorted lt positions -> readsAt points positions out ->
  out `sublist_of` points.
Proof.
  intros Hs Hr. apply (readsAt_sublist_from positions out points 0 Hs).
  - apply Forall_forall. intros; lia.
  - unfold readsAt in Hr. eapply Forall2_impl; [exact Hr|].
    intros i v Hv; simpl. now rewrite Nat.sub_0_r.
Qed.

End SubsequenceFacts.

Section DownsampleClaims.

Context {A : Type} `{EqDecision A}.
Implicit Types (points : list A) (maxPoints : Z).

Lemma downsampleTrack_short points maxPoints :
  Z.of_nat (length points) <= maxPoints ->
  downsampleTrack points maxPoints = points.
Proof.
  intros Hle. unfold downsampleTrack.
  destruct (Z.leb_spec (Z.of_nat (length points)) maxPoints);
    [reflexivity|lia].
Qed.

Lemma downsampleTrack_last points maxPoints :
  1 <= maxPoints ->
  last (downsampleTrack points maxPoints) = last points.
Proof.
  intros Hmax.
  destruct (Z.le_gt_cases (Z.of_nat (length points)) maxPoints) as [Hle|Hgt].
  - now rewrite downsampleTrack_short.
  - destruct (downsampleTrack_long points maxPoints Hmax ltac:(lia))
      as (picked & final & Hlast & _ & [[Hp ->]|[_ ->]]).
    + congruence.
    + now rewrite last_snoc.
Qed.

(** C10. For every point list and every [maxPoints >= 1] the result of
    [downsampleTrack] reads the input at strictly increasing positions:
    every element of the result is the input element at its position,
    positions grow from one element to the next, so no position is used
    twice and the result is a sublist of the input. *)
Theorem downsampleTrack_increasing_positions points maxPoints :
  1 <= maxPoints ->
  exists positions : list nat,
    StronglySorted lt positions /\
    Forall2 (fun i v => points !! i = Some v) positions
            (downsampleTrack points maxPoints) /\
    downsampleTrack points maxPoints `sublist_of` points.
Proof.
  intros Hmax.
  assert (exists positions : list nat,
    StronglySorted lt positions /\
    readsAt points positions (downsampleTrack points maxPoints))
    as (positions & Hs & Hr).
  { destruct (Z.le_gt_cases (Z.of_nat (length points)) maxPoints)
      as [Hle|Hgt].
    - rewrite downsampleTrack_short by exact Hle.
      exists (seq 0 (length points)).
      split; [apply seq_sorted|apply readsAt_all].
    - destruct (downsampleTrack_long points maxPoints Hmax ltac:(lia))
        as (picked & final & Hlast & Hreads & [[_ ->]|[_ ->]]).
      + eexists. split; [|exact Hreads].
        apply strideIndices_sorted; lia.
      + exists (strideIndices (Z.of_nat (length points)) maxPoints
                              (Z.to_nat maxPoints) 0
                ++ [(length points - 1)%nat]).
        split.
        * apply StronglySorted_app_2.
          -- intros j k Hj Hk. apply list_elem_of_singleton in Hk. subst k.
             pose proof (strideIndices_below_last
                           (Z.of_nat (length points)) maxPoints
                           (Z.to_nat maxPoints) 0
                           ltac:(lia) ltac:(lia) ltac:(lia) ltac:(lia))
               as Hb.
             rewrite Forall_forall in Hb. specialize (Hb j Hj).
             simpl in Hb. lia.
          -- apply strideIndices_sorted; lia.
          -- repeat constructor.
        * apply readsAt_snoc; [exact Hreads|].
          rewrite last_lookup in Hlast.
          replace (length points - 1)%nat with (pred (length points))
            by lia.
          exact Hlast. }
  exists positions. split; [exact Hs|]. split; [exact Hr|].
  eapply readsAt_sublist; eassumption.
Qed.

End DownsampleClaims.

Lemma downsampleTrack_increasing_positions_witness :
  1 <= 3 /\
  exists positions : list nat,
    StronglySorted lt positions /\
    Forall2 (fun i v => [10; 11; 12; 13; 14; 15; 16]%nat !! i = Some v)
            positions [10; 12; 14; 16]%nat /\
    [10; 12; 14; 16]%nat `sublist_of` [10; 11; 12; 13; 14; 15; 16]%nat.
Proof.
  split; [lia|].
  exact (downsampleTrack_increasing_positions
           [10; 11; 12; 13; 14; 15; 16]%nat 3 ltac:(lia)).
Defined.

(** ** gpsToCartesian *)


(** ** processTracks *)

Lemma downsampleTrack_nil {A : Type} `{EqDecision A} (maxPoints : Z) :
  downsampleTrack (@nil A) maxPoints = [].
Proof.
  unfold downsampleTrack. change (Z.of_nat (length (@nil A))) with 0.
  destruct (Z.leb_spec 0 maxPoints) as [|Hneg]; [reflexivity|].
  replace (Z.to_nat maxPoints) with 0%nat by lia. simpl.
  destruct (decide (@None A = None)); reflexivity.
Qed.

Section TrackFacts.

Variable config : Config.
Variable Math_cos : Q -> Q.
Variable Math_PI : Q.
Context {Point : Type} `{EqDecision Point}.
Variable lat lon ele : Point -> Q.
Variable Curve : Type.
Variable CatmullRomCurve3 : list Vector3 -> option Curve.

Local Abbreviation processTrack :=
  (Utils.processTrack config Math_cos Math_PI lat lon ele Curve
                      CatmullRomCurve3).
Local Abbreviation processTracks_forEach :=
  (Utils.processTracks_forEach config Math_cos Math_PI lat lon ele Curve
                               CatmullRomCurve3).
Local Abbreviation processTracks :=
  (Utils.processTracks config Math_cos Math_PI lat lon ele Curve
                       CatmullRomCurve3).
Local Abbreviation survivors :=
  (Utils.survivors config Math_cos Math_PI lat lon ele Curve CatmullRomCurve3).

Implicit Types (tracks : list (TrackData (Point := Point)))
  (trackData : TrackData (Point := Point)) (center : Center.t).

(** A track without points is dropped. *)
Lemma processTrack_no_points center trackData (index : nat) :
  points trackData = [] ->
  processTrack center trackData index = Js.Normal None.
Proof.
  intros Hnil. unfold Utils.processTrack.
  rewrite Hnil, downsampleTrack_nil. reflexivity.
Qed.

(** The callback never throws: when it reads [track[0]] and
    [track[track.length - 1]] the track has a point. *)
Lemma processTrack_normal center trackData (index : nat) :
  exists r, processTrack center trackData index = Js.Normal r.
Proof.
  destruct (points trackData) as [|p track] eqn:Hpts.
  - exists None. now apply processTrack_no_points.
  - unfold Utils.processTrack. rewrite Hpts.
    destruct (_ <? 2)%nat; [eauto|].
    destruct (CatmullRomCurve3 _); [|eauto].
    destruct (lookup_lt_is_Some_2 (p :: track) 0 ltac:(simpl; lia))
      as [first ->].
    destruct (lookup_lt_is_Some_2 (p :: track)
                (length (p :: track) - 1) ltac:(simpl; lia))
      as [final ->].
    eauto.
Qed.

(** A track that is kept carries the index it was processed with. *)
Lemma processTrack_id center trackData (index : nat) t :
  processTrack center trackData index = Js.Normal (Some t) ->
  id t = index /\ originalPointCount t = length (points trackData).
Proof.
  unfold Utils.processTrack.
  destruct (_ <? 2)%nat; [discriminate|].
  destruct (CatmullRomCurve3 _); [|discriminate].
  destruct (_ !! 0%nat); [|discriminate].
  destruct (_ !! _); [|discriminate].
  intros [= <-]. simpl. auto.
Qed.

Lemma processTracks_forEach_survivors center tracks :
  forall (index : nat) processedTracks,
    processTracks_forEach center tracks index processedTracks
    = Js.Normal (processedTracks ++ survivors center tracks index).
Proof.
  induction tracks as [|trackData rest IH]; intros index acc; simpl.
  - now rewrite app_nil_r.
  - destruct (processTrack_normal center trackData index) as [r ->].
    destruct r as [t|]; rewrite IH; [|reflexivity].
    now rewrite <- app_assoc.
Qed.

(** Every survivor comes from the track at the position its [id] names,
    and ids grow along the output. *)
Lemma survivors_ids center tracks :
  forall (index : nat),
    Forall (fun t =>
              (index <= id t)%nat /\
              exists trackData,
                tracks !! (id t - index)%nat = Some trackData /\
                processTrack center trackData (id t) = Js.Normal (Some t))
           (survivors center tracks index) /\
    StronglySorted lt (id <$> survivors center tracks index).
Proof.
  induction tracks as [|trackData rest IH]; intros index; simpl.
  - split; constructor.
  - destruct (IH (S index)) as [Hall Hsorted].
    assert (Hshift :
      Forall (fun t =>
                (index <= id t)%nat /\
                exists td,
                  (trackData :: rest) !! (id t - index)%nat = Some td /\
                  processTrack center td (id t) = Js.Normal (Some t))
             (survivors center rest (S index))).
    { eapply Forall_impl; [exact Hall|].
      intros t (Hge & td & Hlook & Hproc). split; [lia|].
      exists td. split; [|exact Hproc].
      replace (id t - index)%nat with (S (id t - S index)) by lia.
      exact Hlook. }
    destruct (processTrack center trackData index) as [[t|]|e] eqn:Hp;
      try (split; assumption).
    destruct (processTrack_id _ _ _ _ Hp) as [Hid _].
    split.
    + constructor; [|exact Hshift].
      split; [lia|]. exists trackData. rewrite Hid, Nat.sub_diag.
      split; [reflexivity|exact Hp].
    + csimpl. constructor; [exact Hsorted|].
      apply Forall_fmap. eapply Forall_impl; [exact Hall|].
      intros u [Hge _]. simpl. lia.
Qed.

(** Every track the callback keeps is in the output. *)
Lemma survivors_complete center tracks :
  forall (index i : nat) trackData t,
    tracks !! i = Some trackData ->
    processTrack center trackData (index + i) = Js.Normal (Some t) ->
    t ∈ survivors center tracks index.
Proof.
  induction tracks as [|td rest IH]; intros index i trackData t Hl Hp.
  - discriminate.
  - destruct i as [|i]; simpl in *.
    + injection Hl as ->. rewrite Nat.add_0_r in Hp. rewrite Hp.
      apply list_elem_of_here.
    + assert (t ∈ survivors center rest (S index)) as Hin.
      { apply (IH (S index) i trackData t Hl).
        now replace (S index + i)%nat with (index + S i)%nat by lia. }
      destruct (processTrack center td index) as [[u|]|e]; auto.
      now apply list_elem_of_further.
Qed.

Lemma processTracks_survivors tracks :
  processTracks tracks
  = Js.Normal (survivors (calculateCenter lat lon tracks) tracks 0).
Proof.
  unfold Utils.processTracks.
  destruct (decide (length tracks = 0%nat)) as [Hz|Hnz].
  - apply nil_length_inv in Hz. now subst tracks.
  - now rewrite processTracks_forEach_survivors.
Qed.

End TrackFacts.

Section TrackClaims.

Variable config : Config.
Variable Math_cos : Q -> Q.
Variable Math_PI : Q.
Context {Point : Type} `{EqDecision Point}.
Variable lat lon ele : Point -> Q.
Variable Curve : Type.
Variable CatmullRomCurve3 : list Vector3 -> option Curve.

Local Abbreviation processTrack :=
  (Utils.processTrack config Math_cos Math_PI lat lon ele Curve
                      CatmullRomCurve3).
Local Abbreviation processTracks :=
  (Utils.processTracks config Math_cos Math_PI lat lon ele Curve
                       CatmullRomCurve3).

Implicit Types (tracks : list (TrackData (Point := Point))).

Lemma totalPointCount_zero tracks :
  totalPointCount tracks = 0%nat ->
  Forall (fun trackData => points trackData = []) tracks.
Proof.
  induction tracks as [|trackData rest IH]; intros Hz; constructor.
  - unfold totalPointCount in Hz; simpl in Hz.
    apply nil_length_inv. lia.
  - apply IH. unfold totalPointCount in *; simpl in Hz. lia.
Qed.

Lemma survivors_no_points tracks center : forall index : nat,
  Forall (fun trackData => points trackData = []) tracks ->
  survivors config Math_cos Math_PI lat lon ele Curve CatmullRomCurve3
            center tracks index = [].
Proof.
  induction tracks as [|trackData rest IH]; intros index Hall; simpl.
  - reflexivity.
  - apply Forall_cons in Hall as [Hnil Hall].
    rewrite processTrack_no_points by exact Hnil. now apply IH.
Qed.

(** C8, as the code has it. When the input holds no point at all,
    [processTracks] returns normally, with the empty list of processed
    tracks; no error is raised. *)
Theorem processTracks_no_points_returns_empty tracks :
  totalPointCount tracks = 0%nat ->
  processTracks tracks = Js.Normal [].
Proof.
  intros Hz. rewrite processTracks_survivors.
  now rewrite survivors_no_points by (apply totalPointCount_zero, Hz).
Qed.

(** C9. [processTracks] always returns, and every processed track it
    returns carries as [id] the position its source track has in the
    input array: the track at that position is the one it was built
    from. Every input track that is not dropped is in the output, and
    the ids grow strictly along the output, whatever was dropped. *)
Theorem processTracks_id_is_input_position tracks :
  let center := calculateCenter lat lon tracks in
  exists processed,
    processTracks tracks = Js.Normal processed /\
    (forall t, t ∈ processed ->
       exists trackData,
         tracks !! id t = Some trackData /\
         processTrack center trackData (id t) = Js.Normal (Some t)) /\
    (forall (i : nat) trackData t,
       tracks !! i = Some trackData ->
       processTrack center trackData i = Js.Normal (Some t) ->
       t ∈ processed) /\
    StronglySorted lt (id <$> processed).
Proof.
  intros center. eexists. split; [apply processTracks_survivors|].
  fold center.
  destruct (survivors_ids config Math_cos Math_PI lat lon ele Curve
              CatmullRomCurve3 center tracks 0) as [Hall Hsorted].
  split; [|split; [|exact Hsorted]].
  - intros t Hin. rewrite Forall_forall in Hall.
    destruct (Hall t Hin) as (_ & trackData & Hlook & Hproc).
    rewrite Nat.sub_0_r in Hlook. eauto.
  - intros i trackData t Hlook Hproc.
    eapply survivors_complete; [exact Hlook|exact Hproc].
Qed.

End TrackClaims.

Lemma processTracks_no_points_returns_empty_witness :
  totalPointCount [Sample.noPoints; Sample.noPoints] = 0%nat /\
  Sample.processTracks [Sample.noPoints; Sample.noPoints] = Js.Normal [].
Proof.
  split; [reflexivity|]. unfold Sample.processTracks.
  apply (processTracks_no_points_returns_empty shippedConfig
           Sample.Math_cos Sample.Math_PI Sample.lat Sample.lon Sample.ele
           Sample.Curve Sample.CatmullRomCurve3
           [Sample.noPoints; Sample.noPoints]).
  reflexivity.
Defined.

(** C8, as stated, fails: with no track at all, and with tracks that hold
    no point, [processTracks] does not end in an [EmptyDatasetError]. *)
Lemma processTracks_empty_dataset_no_error :
  ~ (totalPointCount (@nil (TrackData (Point := Sample.GpsPoint))) = 0%nat ->
     Sample.processTracks [] = Js.Throw Js.EmptyDatasetError) /\
  ~ (totalPointCount [Sample.noPoints] = 0%nat ->
     Sample.processTracks [Sample.noPoints]
     = Js.Throw Js.EmptyDatasetError).
Proof.
  split; intros Hclaim; specialize (Hclaim eq_refl);
    vm_compute in Hclaim; discriminate Hclaim.
Qed.

(** Dropping the first track leaves the second with id 1, at position 0
    of the output. *)
Example processTracks_keeps_id_after_drop :
  id <$> match Sample.processTracks [Sample.onePoint; Sample.twoPoints] with
         | Js.Normal processed => processed
         | Js.Throw _ => []
         end = [1%nat].
Proof. vm_compute. reflexivity. Qed.

(** ** The animation progress *)

Lemma Qfloor_unique (q : Q) (k : Z) :
  (inject_Z k <= q)%Q -> (q < inject_Z (k + 1))%Q -> Qfloor q = k.
Proof.
  intros Hlo Hhi.
  pose proof (Qfloor_le q) as Hfl. pose proof (Qlt_floor q) as Hfu.
  assert (k < Qfloor q + 1)
    by (rewrite Zlt_Qlt; eapply Qle_lt_trans; eassumption).
  assert (Qfloor q < k + 1)
    by (rewrite Zlt_Qlt; eapply Qle_lt_trans; eassumption).
  lia.
Qed.

Lemma Qfloor_succ (q : Q) : Qfloor (q + 1) = Qfloor q + 1.
Proof.
  apply Qfloor_unique.
  - rewrite inject_Z_plus. change (inject_Z 1) with 1%Q.
    pose proof (Qfloor_le q). lra.
  - rewrite !inject_Z_plus. pose proof (Qlt_floor q) as Hu.
    rewrite inject_Z_plus in Hu. change (inject_Z 1) with 1%Q in *. lra.
Qed.

Lemma trunc_nonneg (q : Q) : (0 <= q)%Q -> Js.trunc q = Qfloor q.
Proof.
  destruct q as [n d]. unfold Qle, Js.trunc, Qfloor; simpl. intros Hn.
  apply Z.quot_div_nonneg; lia.
Qed.

Lemma Qdiv_nonneg (a b : Q) : (0 <= a)%Q -> (0 < b)%Q -> (0 <= a / b)%Q.
Proof.
  intros Ha Hb. apply Qle_shift_div_l; [exact Hb|]. lra.
Qed.

Lemma Qdiv_le_mono (a b d : Q) : (0 < d)%Q -> (a <= b)%Q -> (a / d <= b / d)%Q.
Proof.
  intros Hd Hab. apply Qmult_le_compat_r; [exact Hab|].
  apply Qlt_le_weak, Qinv_lt_0_compat, Hd.
Qed.

Section ProgressClaims.

Variable config : Config.
Local Abbreviation duration := (animationDuration config).
Local Abbreviation progress := (frameProgress config).

Hypothesis duration_positive : (0 < duration)%Q.

Lemma frameProgress_spec (t : Q) :
  (0 <= t)%Q -> progress t == specProgress (animationLoop config) duration t.
Proof.
  intros Ht. unfold frameProgress, specProgress.
  destruct (animationLoop config); [|reflexivity].
  unfold Js.rem. rewrite trunc_nonneg; [reflexivity|].
  now apply Qdiv_nonneg.
Qed.

End ProgressClaims.

(** ** The frame callback of RunnerOrbs *)

Section AnimationFacts.

Variable config : Config.
Variable Math_sin : Q -> Q.
Variable Math_PI : Q.
Variable Curve : Type.
Variable getPoint : Curve -> Q -> Vector3.

Local Abbreviation updateInstance :=
  (TokyoRunVisualizer.updateInstance config Curve getPoint).
Local Abbreviation updateInstances :=
  (TokyoRunVisualizer.updateInstances config Curve getPoint).
Local Abbreviation routed := (TokyoRunVisualizer.routed Curve).
Local Abbreviation orbMatrix :=
  (TokyoRunVisualizer.orbMatrix config Curve getPoint).

Implicit Types (tracks : list (ProcessedTrack Curve))
  (track : ProcessedTrack Curve) (featured : option Z) (b : bool)
  (st : RunnerOrbs * InstanceCursor).

(** What one turn of the loop does to one of the two meshes and its
    counter. *)
Lemma updateInstance_view b progress featured (i : nat) track st :
  let st' := updateInstance progress featured i track st in
  match curve track, meshOf b (fst st) with
  | Some c, Some mesh =>
      if Bool.eqb (isFeatured featured i) b
      then meshOf b (fst st')
           = Some (setMatrixAt mesh (cursorOf b (snd st))
                               (orbMatrix progress b c)) /\
           cursorOf b (snd st') = S (cursorOf b (snd st))
      else meshOf b (fst st') = meshOf b (fst st) /\
           cursorOf b (snd st') = cursorOf b (snd st)
  | _, _ =>
      meshOf b (fst st') = meshOf b (fst st) /\
      cursorOf b (snd st') = cursorOf b (snd st)
  end.
Proof.
  destruct st as [self cursor].
  unfold TokyoRunVisualizer.updateInstance, isFeatured, meshOf, cursorOf.
  destruct (curve track) as [c|]; simpl.
  - destruct (decide (Some (Z.of_nat i) = featured)) as [Hf|Hf];
      [rewrite (bool_decide_eq_true_2 _ Hf)
      |rewrite (bool_decide_eq_false_2 _ Hf)];
      destruct b, (featuredMeshRef self) eqn:Hfm,
        (nonFeaturedMeshRef self) eqn:Hnm; simpl; auto.
  - destruct b, (featuredMeshRef self) eqn:Hfm,
      (nonFeaturedMeshRef self) eqn:Hnm; auto.
Qed.

Lemma routed_length featured b tracks : forall i : nat,
  (length (routed featured b i tracks) <= length tracks)%nat.
Proof.
  induction tracks as [|track rest IH]; intros i; simpl; [lia|].
  destruct (curve track); [destruct (Bool.eqb _ _)|];
    simpl; specialize (IH (S i)); lia.
Qed.

(** Past the featured index no track is sent to the featured mesh. *)
Lemma routed_featured_past (f : Z) tracks : forall i : nat,
  f < Z.of_nat i -> routed (Some f) true i tracks = [].
Proof.
  induction tracks as [|track rest IH]; intros i Hlt; simpl; [reflexivity|].
  unfold isFeatured. rewrite bool_decide_eq_false_2 by (intros [= ?]; lia).
  simpl. rewrite IH by lia. now destruct (curve track).
Qed.

(** At most one track is sent to the featured mesh. *)
Lemma routed_featured_length featured tracks : forall i : nat,
  (length (routed featured true i tracks) <= 1)%nat.
Proof.
  induction tracks as [|track rest IH]; intros i; simpl; [lia|].
  destruct (curve track) as [c|]; [|apply IH].
  unfold isFeatured.
  destruct (decide (Some (Z.of_nat i) = featured)) as [Hf|Hf].
  - rewrite (bool_decide_eq_true_2 _ Hf). simpl. subst featured.
    rewrite routed_featured_past by lia. simpl. lia.
  - rewrite (bool_decide_eq_false_2 _ Hf). simpl. apply IH.
Qed.

(** Every track with a curve is sent to one of the two meshes. *)
Lemma routed_elem featured tracks : forall (i k : nat) track c,
  tracks !! k = Some track -> curve track = Some c ->
  c ∈ routed featured (isFeatured featured (i + k)) i tracks.
Proof.
  induction tracks as [|t rest IH]; intros i k track c Hk Hc;
    [discriminate|].
  destruct k as [|k]; simpl in *.
  - injection Hk as ->. rewrite Hc, Nat.add_0_r, Bool.eqb_reflx.
    apply list_elem_of_here.
  - replace (i + S k)%nat with (S i + k)%nat by lia.
    specialize (IH (S i) k track c Hk Hc).
    destruct (curve t); [destruct (Bool.eqb _ _)|]; auto.
    now apply list_elem_of_further.
Qed.

(** The loop fills the mesh, from the counter on, with the matrices of
    the curves sent to it, all at the one [progress]. *)
Lemma updateInstances_view b progress featured tracks :
  forall (i : nat) st mesh,
    meshOf b (fst st) = Some mesh ->
    (cursorOf b (snd st) + length (routed featured b i tracks)
     <= length (instanceMatrix mesh))%nat ->
    let st' := updateInstances progress featured i tracks st in
    exists mesh',
      meshOf b (fst st') = Some mesh' /\
      cursorOf b (snd st')
      = (cursorOf b (snd st) + length (routed featured b i tracks))%nat /\
      take (cursorOf b (snd st')) (instanceMatrix mesh')
      = take (cursorOf b (snd st)) (instanceMatrix mesh)
        ++ (orbMatrix progress b <$> routed featured b i tracks).
Proof.
  induction tracks as [|track rest IH]; intros i st mesh Hmesh Hcap; simpl.
  - exists mesh. rewrite Nat.add_0_r, app_nil_r. auto.
  - pose proof (updateInstance_view b progress featured i track st)
      as Hstep.
    simpl in Hstep, Hcap. rewrite Hmesh in Hstep.
    destruct (curve track) as [c|].
    + destruct (Bool.eqb (isFeatured featured i) b).
      * destruct Hstep as [Hm1 Hc1]. simpl in Hcap.
        destruct (IH (S i) _ _ Hm1) as (mesh' & Hm' & Hc' & Htake).
        { simpl. rewrite length_insert, Hc1. lia. }
        exists mesh'. split; [exact Hm'|].
        rewrite Hc1 in Hc'. split; [rewrite Hc'; simpl; lia|].
        rewrite Htake, Hc1. simpl.
        rewrite (take_S_r _ _ (orbMatrix progress b c))
          by (apply list_lookup_insert_eq; lia).
        rewrite take_insert_ge by lia.
        now rewrite <- app_assoc.
      * destruct Hstep as [Hm1 Hc1].
        destruct (IH (S i) _ _ Hm1) as (mesh' & Hm' & Hc' & Htake).
        { rewrite Hc1. exact Hcap. }
        exists mesh'. rewrite Hc1 in *. auto.
    + destruct Hstep as [Hm1 Hc1].
      destruct (IH (S i) _ _ Hm1) as (mesh' & Hm' & Hc' & Htake).
      { rewrite Hc1. exact Hcap. }
      exists mesh'. rewrite Hc1 in *. auto.
Qed.

Lemma finishFrame_view b (intensity : Q) st mesh :
  meshOf b (fst st) = Some mesh ->
  exists mesh',
    meshOf b (finishFrame intensity st) = Some mesh' /\
    instanceMatrix mesh' = instanceMatrix mesh /\
    count mesh' = cursorOf b (snd st).
Proof.
  destruct st as [self cursor]. unfold meshOf, cursorOf, finishFrame.
  destruct b; simpl; intros ->; simpl; eauto.
Qed.

(** C7. One frame update reads the clock once, and there is one
    progress value [p], computed from that reading, such that each mesh
    holds, in its first [count] slots, exactly the matrices of the
    curves sent to it, sampled at [p]; so every track with a curve has a
    slot of its mesh whose position is [getPointOnCurve(track.curve, p)]
    for this same [p]. *)
Theorem RunnerOrbs_useFrame_single_progress tracks featured
    (self : RunnerOrbs) (clock : Clock) :
  mounted Curve tracks self ->
  let (self', clock') :=
    RunnerOrbs_useFrame config Math_sin Math_PI Curve getPoint
                        tracks featured self clock in
  reads clock' = S (reads clock) /\
  ticks clock' = ticks clock /\
  exists p : Q,
    p = frameProgress config
          (elapsedSeconds (ticks clock (reads clock)) (startTimeRef self)) /\
    (forall b mesh,
       meshOf b self = Some mesh ->
       exists mesh',
         meshOf b self' = Some mesh' /\
         take (count mesh') (instanceMatrix mesh')
         = orbMatrix p b <$> routed featured b 0 tracks) /\
    (forall (i : nat) track c mesh,
       tracks !! i = Some track -> curve track = Some c ->
       meshOf (isFeatured featured i) self = Some mesh ->
       exists mesh' (slot : nat) matrix,
         meshOf (isFeatured featured i) self' = Some mesh' /\
         (slot < count mesh')%nat /\
         instanceMatrix mesh' !! slot = Some matrix /\
         m_position matrix = getPointOnCurve Curve getPoint c p).
Proof.
  intros [Hcap0 Hcap1]. unfold RunnerOrbs_useFrame, Date_now.
  split; [reflexivity|]. split; [reflexivity|].
  set (p := frameProgress config _). exists p. split; [reflexivity|].
  assert (Hfill : forall b mesh,
    meshOf b self = Some mesh ->
    exists mesh',
      meshOf b
        (finishFrame
           (blinkIntensity Math_sin Math_PI
              (elapsedSeconds (ticks clock (reads clock))
                              (startTimeRef self)))
           (updateInstances p featured 0 tracks
              (self, {| nonFeaturedIndex := 0; featuredIndex := 0 |})))
      = Some mesh' /\
      take (count mesh') (instanceMatrix mesh')
      = orbMatrix p b <$> routed featured b 0 tracks).
  { intros b mesh Hmesh.
    destruct (updateInstances_view b p featured tracks 0
                (self, {| nonFeaturedIndex := 0; featuredIndex := 0 |})
                mesh Hmesh) as (mesh1 & Hm1 & Hc1 & Htake).
    { destruct b; simpl in *.
      - rewrite (Hcap1 mesh Hmesh). apply routed_featured_length.
      - rewrite (Hcap0 mesh Hmesh). apply routed_length. }
    destruct (finishFrame_view b
                (blinkIntensity Math_sin Math_PI
                   (elapsedSeconds (ticks clock (reads clock))
                                   (startTimeRef self)))
                _ mesh1 Hm1) as (mesh' & Hm' & Hbuf & Hcount).
    exists mesh'. split; [exact Hm'|].
    rewrite Hbuf, Hcount, Htake.
    replace (cursorOf b (self, {| nonFeaturedIndex := 0;
                                  featuredIndex := 0 |}).2)
      with 0%nat by (now destruct b).
    reflexivity. }
  split; [exact Hfill|].
  intros i track c mesh Hi Hc Hmesh.
  destruct (Hfill _ _ Hmesh) as (mesh' & Hm' & Htake).
  pose proof (routed_elem featured tracks 0 i track c Hi Hc) as Hin.
  apply list_elem_of_lookup_1 in Hin as [slot Hslot].
  apply (list_lookup_fmap_Some_2
           (orbMatrix p (isFeatured featured (0 + i)))) in Hslot.
  simpl in Hslot. rewrite <- Htake in Hslot.
  pose proof (lookup_lt_Some _ _ _ Hslot) as Hlt.
  rewrite length_take in Hlt.
  rewrite lookup_take_lt in Hslot by lia.
  exists mesh', slot, (orbMatrix p (isFeatured featured i) c).
  split; [exact Hm'|]. split; [lia|]. split; [exact Hslot|reflexivity].
Qed.

End AnimationFacts.

Lemma RunnerOrbs_useFrame_single_progress_witness :
  mounted Sample.Curve Sample.threeTracks Sample.orbs /\
  reads (snd (RunnerOrbs_useFrame shippedConfig Sample.Math_sin
                Sample.Math_PI Sample.Curve Sample.getPoint
                Sample.threeTracks (Some 1) Sample.orbs Sample.clock))
  = 1%nat.
Proof.
  assert (Hm : mounted Sample.Curve Sample.threeTracks Sample.orbs)
    by (split; intros mesh [= <-]; reflexivity).
  split; [exact Hm|].
  pose proof (RunnerOrbs_useFrame_single_progress shippedConfig
                Sample.Math_sin Sample.Math_PI Sample.Curve Sample.getPoint
                Sample.threeTracks (Some 1) Sample.orbs Sample.clock Hm)
    as H.
  destruct (RunnerOrbs_useFrame _ _ _ _ _ _ _ _ _) as [self' clock'].
  exact (proj1 H).
Defined.

(** ** The camera controller *)

(** C5, as amended. A [change] event delivered while the state is
    TRANSITIONING and [animationStateRef] mirrors it, as it does from the
    ref-sync effect of that render on, leaves everything as it was: the
    state stays TRANSITIONING (it does not become USER_CONTROL), no
    last-interaction time is recorded, and the clock is not even read. *)
Theorem handleInteraction_ignored_once_mirrored (s : CameraAnimation)
    (clock : Clock) :
  animationState s = TRANSITIONING ->
  (animationStateRef s = animationState s ->
   handleInteraction s clock = (s, clock)) /\
  handleInteraction (syncRefs s) clock = (syncRefs s, clock) /\
  animationState (fst (handleInteraction (syncRefs s) clock))
  = TRANSITIONING /\
  lastInteractionRef (fst (handleInteraction (syncRefs s) clock))
  = lastInteractionRef s /\
  reads (snd (handleInteraction (syncRefs s) clock)) = reads clock.
Proof.
  intros Hstate.
  assert (Hsynced : handleInteraction (syncRefs s) clock
                    = (syncRefs s, clock)).
  { unfold handleInteraction. cbn [animationStateRef syncRefs].
    rewrite Hstate. reflexivity. }
  split.
  - intros Href. unfold handleInteraction. rewrite Href, Hstate.
    reflexivity.
  - rewrite Hsynced. cbn [fst snd]. repeat split. exact Hstate.
Qed.

Lemma handleInteraction_ignored_once_mirrored_witness :
  animationState Sample.transitioning = TRANSITIONING /\
  handleInteraction Sample.transitioning Sample.clock
  = (Sample.transitioning, Sample.clock).
Proof.
  split; [reflexivity|].
  exact (proj1 (handleInteraction_ignored_once_mirrored
                  Sample.transitioning Sample.clock eq_refl) eq_refl).
Defined.

(** C5, as stated, fails: a selection tick sets the state to
    TRANSITIONING and leaves [animationStateRef] at AUTO until the
    ref-sync effect runs; a [change] event delivered in between hands
    control to the user and records its time. *)
Lemma handleInteraction_before_sync_not_ignored :
  match runInterval Sample.Curve Sample.calculateOptimalCameraPosition
          Sample.threeTracks
          (initialCameraAnimation Sample.origin 50 (Some Sample.origin))
          Sample.clock [1 # 2; 1 # 4; 3 # 4] with
  | Returned (s, clock) _ =>
      animationState s = TRANSITIONING /\
      animationState (fst (handleInteraction s clock)) = USER_CONTROL /\
      lastInteractionRef (fst (handleInteraction s clock))
      <> lastInteractionRef s /\
      ~ (animationState s = TRANSITIONING ->
         handleInteraction s clock = (s, clock))
  | Starved => False
  end.
Proof.
  vm_compute. repeat split; try discriminate.
  intros H. specialize (H eq_refl). discriminate H.
Qed.

(** Outside a transition the listener does react: from AUTO it records the
    time and hands control to the user. *)
Lemma handleInteraction_from_auto (s : CameraAnimation) (clock : Clock) :
  animationStateRef s = AUTO ->
  animationState (fst (handleInteraction s clock)) = USER_CONTROL /\
  lastInteractionRef (fst (handleInteraction s clock))
  = ticks clock (reads clock).
Proof.
  intros Href. unfold handleInteraction. rewrite Href. simpl. auto.
Qed.

(** Once the effects have run, the ref mirrors the state. *)
Lemma syncRefs_mirrors (s : CameraAnimation) :
  animationStateRef (syncRefs s) = animationState s /\
  featuredTrackIndexRef (syncRefs s) = featuredTrackIndex s /\
  animationState (syncRefs s) = animationState s /\
  featuredTrackIndex (syncRefs s) = featuredTrackIndex s.
Proof. repeat split. Qed.

(** ** Featured-track selection *)

Lemma draw_index_range (r : Q) (len : Z) :
  unitDraw r -> 0 < len -> 0 <= Js.floor (r * inject_Z len) < len.
Proof.
  intros [Hlo Hhi] Hlen. unfold Js.floor.
  assert (HL : (inject_Z 0 < inject_Z len)%Q)
    by (rewrite <- Zlt_Qlt; exact Hlen).
  change (inject_Z 0) with 0%Q in HL.
  split.
  - change 0 with (Qfloor 0). apply Qfloor_resp_le.
    apply Qmult_le_0_compat; lra.
  - rewrite Zlt_Qlt. eapply Qle_lt_trans; [apply Qfloor_le|].
    apply Qlt_le_trans with (1 * inject_Z len)%Q.
    + apply Qmult_lt_compat_r; assumption.
    + rewrite Qmult_1_l. apply Qle_refl.
Qed.

(** An index the loop returns when there are several tracks is not the
    featured one. *)
Lemma selectRandomTrack_loop_differs (len : Z) (featured : option Z)
    (random : list Q) :
  1 < len ->
  forall newIndex rest,
    selectRandomTrack_loop len featured random = Returned newIndex rest ->
    Some newIndex <> featured.
Proof.
  intros Hlen. induction random as [|r random IH]; intros i rest;
    cbn [selectRandomTrack_loop].
  - discriminate.
  - destruct (bool_decide (Some (Js.floor (r * inject_Z len)) = featured))
      eqn:Hsame; cbn [andb].
    + destruct (Z.ltb_spec 1 len); [|lia]. apply IH.
    + intros [= <- _]. apply bool_decide_eq_false in Hsame. exact Hsame.
Qed.

(** Every index the loop returns is the position of a track. *)
Lemma selectRandomTrack_loop_range (len : Z) (featured : option Z)
    (random : list Q) :
  0 < len -> Forall unitDraw random ->
  forall newIndex rest,
    selectRandomTrack_loop len featured random = Returned newIndex rest ->
    0 <= newIndex < len.
Proof.
  intros Hlen Hdraws.
  induction Hdraws as [|r random Hr _ IH]; intros i rest;
    cbn [selectRandomTrack_loop].
  - discriminate.
  - destruct (_ && _); [apply IH|].
    intros [= <- _]. now apply draw_index_range.
Qed.

(** The loop ends as soon as a draw lands on another track. *)
Lemma selectRandomTrack_loop_returns (len : Z) (featured : option Z)
    (random : list Q) :
  Exists (fun r => Some (Js.floor (r * inject_Z len)) <> featured) random ->
  exists newIndex rest,
    selectRandomTrack_loop len featured random = Returned newIndex rest.
Proof.
  induction random as [|r random IH]; intros Hex.
  - inversion Hex.
  - cbn [selectRandomTrack_loop]. destruct (_ && _) eqn:Hagain; [|eauto].
    apply IH. apply Exists_cons in Hex as [Hr|Hex]; [|exact Hex].
    apply andb_prop in Hagain as [Hsame _].
    apply bool_decide_eq_true in Hsame. contradiction.
Qed.

(** With a single track the first draw is returned, and it is 0. *)
Lemma selectRandomTrack_loop_single (featured : option Z) (r : Q)
    (rest : list Q) :
  unitDraw r ->
  selectRandomTrack_loop 1 featured (r :: rest) = Returned 0 rest.
Proof.
  intros Hr. cbn [selectRandomTrack_loop].
  change (1 <? 1) with false. rewrite andb_false_r.
  pose proof (draw_index_range r 1 Hr ltac:(lia)) as Hrange.
  f_equal. lia.
Qed.

Section SelectionClaims.

Variable config : Config.
Variable Curve : Type.
Variable calculateOptimalCameraPosition :
  ProcessedTrack Curve -> Q -> list Q -> Vector3 * Vector3 * list Q.
Variable tracks : list (ProcessedTrack Curve).

Local Abbreviation selectRandomTrack :=
  (UseCameraAnimation.selectRandomTrack Curve tracks).
Local Abbreviation runInterval :=
  (UseCameraAnimation.runInterval Curve calculateOptimalCameraPosition
                                  tracks).
Local Abbreviation quietStep := (UseCameraAnimation.quietStep config).
Local Abbreviation trackCount := (Z.of_nat (length tracks)).

Lemma selectRandomTrack_differs (s : CameraAnimation) (random : list Q)
    v rest :
  (1 < length tracks)%nat ->
  selectRandomTrack s random = Returned v rest ->
  exists newIndex,
    v = Some newIndex /\ Some newIndex <> featuredTrackIndexRef s.
Proof.
  intros Hlen. unfold UseCameraAnimation.selectRandomTrack.
  destruct (decide (length tracks = 0%nat)); [lia|].
  destruct (selectRandomTrack_loop _ _ _) as [i rest'|] eqn:Hloop;
    [|discriminate].
  intros [= <- <-]. exists i. split; [reflexivity|].
  eapply selectRandomTrack_loop_differs; [|exact Hloop]. lia.
Qed.

Lemma startTransition_featured (trackIndex : Z) (s : CameraAnimation)
    (clock : Clock) (random : list Q) :
  featuredTrackIndex
    (fst (fst (startTransition Curve calculateOptimalCameraPosition
                               tracks trackIndex s clock random)))
  = featuredTrackIndex s.
Proof.
  unfold startTransition.
  destruct (if trackIndex <? 0 then None else tracks !! Z.to_nat trackIndex)
    as [track|]; [|reflexivity].
  destruct (calculateOptimalCameraPosition _ _ _) as [[pos look] rnd].
  reflexivity.
Qed.

(** A selection tick that runs in AUTO with several tracks changes the
    featured index to one the ref does not hold. *)
Lemma runInterval_features_another (s : CameraAnimation) (clock : Clock)
    (random : list Q) s' clock' rest :
  (1 < length tracks)%nat ->
  animationStateRef s = AUTO ->
  runInterval s clock random = Returned (s', clock') rest ->
  exists newIndex,
    featuredTrackIndex s' = Some newIndex /\
    Some newIndex <> featuredTrackIndexRef s.
Proof.
  intros Hlen Hauto. unfold UseCameraAnimation.runInterval.
  rewrite Hauto.
  destruct (decide (AUTO = AUTO)) as [_|Hne]; [|now destruct Hne].
  destruct (selectRandomTrack s random) as [v rnd|] eqn:Hsel;
    [|discriminate].
  destruct (selectRandomTrack_differs s random v rnd Hlen Hsel)
    as (i & -> & Hdiff).
  pose proof (startTransition_featured i
                (setFeaturedTrackIndex (Some i) s) clock rnd) as Hkeep.
  destruct (startTransition _ _ _ _ _ _ _) as [[s1 c1] r1].
  intros [= <- _ _]. exists i. split; [exact Hkeep|exact Hdiff].
Qed.

(** The other callbacks leave the featured index alone, and the only
    value they ever give the ref is that index. *)
Lemma quietStep_featured (s s' : CameraAnimation) :
  quietStep s s' ->
  featuredTrackIndex s' = featuredTrackIndex s /\
  (featuredTrackIndexRef s' = featuredTrackIndexRef s \/
   featuredTrackIndexRef s' = featuredTrackIndex s).
Proof.
  intros [s0 clock|s0 clock|s0 clock|s0].
  - unfold handleInteraction.
    destruct (decide _); [auto|]. simpl.
    destruct (decide _); simpl; auto.
  - unfold checkInactivity.
    destruct (decide _); [|auto]. simpl.
    destruct (Js.ltb _ _); simpl; auto.
  - unfold CameraAnimation_useFrame.
    destruct (decide _); [auto|].
    destruct (transitionDataRef s0); [|auto]. simpl.
    destruct (Qle_bool _ _); simpl; auto.
  - simpl. auto.
Qed.

Lemma quietSteps_mirrored (s s' : CameraAnimation) (i : Z) :
  rtc quietStep s s' ->
  featuredTrackIndex s = Some i -> featuredTrackIndexRef s = Some i ->
  featuredTrackIndex s' = Some i /\ featuredTrackIndexRef s' = Some i.
Proof.
  induction 1 as [s|s s1 s2 Hstep _ IH]; intros Hf Hr; [auto|].
  destruct (quietStep_featured s s1 Hstep) as [Hf1 [Hr1|Hr1]];
    apply IH; congruence.
Qed.

Lemma quietSteps_featured (s s' : CameraAnimation) :
  rtc quietStep s s' -> featuredTrackIndex s' = featuredTrackIndex s.
Proof.
  induction 1 as [s|s s1 s2 Hstep _ IH]; [reflexivity|].
  destruct (quietStep_featured s s1 Hstep) as [Hf1 _]. congruence.
Qed.

(** C4. With more than one track, a selection returns an index of a
    track that differs from the currently featured index (the value of
    [featuredTrackIndexRef]), and it does return as soon as one random
    draw lands on another track; so two consecutive selection ticks,
    with the hook's effects run in between, never feature the same
    index twice in a row. With exactly one track the selection returns
    index 0, the index of that track. *)
Theorem selectRandomTrack_never_repeats :
  ((1 < length tracks)%nat ->
   (forall s random v rest,
      Forall unitDraw random ->
      selectRandomTrack s random = Returned v rest ->
      exists newIndex,
        v = Some newIndex /\
        Some newIndex <> featuredTrackIndexRef s /\
        0 <= newIndex < trackCount) /\
   (forall s random,
      Exists (fun r => Some (Js.floor (r * inject_Z trackCount))
                       <> featuredTrackIndexRef s) random ->
      exists newIndex rest,
        selectRandomTrack s random = Returned (Some newIndex) rest) /\
   (forall s0 clock0 random0 s1 clock1 rest1 sa s2 clock2 random2
           s3 clock3 rest3,
      animationStateRef s0 = AUTO ->
      runInterval s0 clock0 random0 = Returned (s1, clock1) rest1 ->
      rtc quietStep s1 sa ->
      rtc quietStep (syncRefs sa) s2 ->
      animationStateRef s2 = AUTO ->
      runInterval s2 clock2 random2 = Returned (s3, clock3) rest3 ->
      exists first second,
        featuredTrackIndex s1 = Some first /\
        featuredTrackIndex s3 = Some second /\
        second <> first)) /\
  (length tracks = 1%nat ->
   forall s r rest,
     unitDraw r ->
     selectRandomTrack s (r :: rest) = Returned (Some 0) rest).
Proof.
  split.
  - intros Hlen. split; [|split].
    + intros s random v rest Hdraws Hsel.
      destruct (selectRandomTrack_differs s random v rest Hlen Hsel)
        as (i & -> & Hdiff).
      exists i. split; [reflexivity|]. split; [exact Hdiff|].
      unfold UseCameraAnimation.selectRandomTrack in Hsel.
      destruct (decide (length tracks = 0%nat)); [lia|].
      destruct (selectRandomTrack_loop _ _ _) as [j rest'|] eqn:Hloop;
        [|discriminate].
      injection Hsel as -> ->.
      eapply selectRandomTrack_loop_range; [|exact Hdraws|exact Hloop].
      lia.
    + intros s random Hex.
      unfold UseCameraAnimation.selectRandomTrack.
      destruct (decide (length tracks = 0%nat)); [lia|].
      destruct (selectRandomTrack_loop_returns _ _ _ Hex)
        as (i & rest & ->).
      eauto.
    + intros s0 clock0 random0 s1 clock1 rest1 sa s2 clock2 random2
             s3 clock3 rest3 Hauto0 Hrun1 Hq1 Hq2 Hauto2 Hrun2.
      destruct (runInterval_features_another _ _ _ _ _ _ Hlen Hauto0 Hrun1)
        as (first & Hfirst & _).
      destruct (runInterval_features_another _ _ _ _ _ _ Hlen Hauto2 Hrun2)
        as (second & Hsecond & Hdiff).
      exists first, second. split; [exact Hfirst|].
      split; [exact Hsecond|].
      pose proof (quietSteps_featured _ _ Hq1) as Hsa.
      destruct (quietSteps_mirrored (syncRefs sa) s2 first Hq2)
        as [_ Href]; [simpl; congruence|simpl; congruence|].
      intros ->. apply Hdiff. now rewrite Href.
  - intros Hone s r rest Hr.
    unfold UseCameraAnimation.selectRandomTrack.
    destruct (decide (length tracks = 0%nat)); [lia|].
    rewrite Hone. change (Z.of_nat 1) with 1.
    now rewrite selectRandomTrack_loop_single.
Qed.

End SelectionClaims.

Lemma selectRandomTrack_never_repeats_witness :
  (1 < length Sample.threeTracks)%nat /\
  exists newIndex rest,
    selectRandomTrack Sample.Curve Sample.threeTracks Sample.transitioning
                      [1 # 2; 9 # 10; 1 # 3]
    = Returned (Some newIndex) rest.
Proof.
  assert (Hlen : (1 < length Sample.threeTracks)%nat) by (simpl; lia).
  split; [exact Hlen|].
  apply (proj1 (proj2 (proj1 (selectRandomTrack_never_repeats
                                shippedConfig Sample.Curve
                                Sample.calculateOptimalCameraPosition
                                Sample.threeTracks) Hlen))).
  apply Exists_cons_tl, Exists_cons_hd. vm_compute. discriminate.
Defined.

(** Two draws on the featured track 1 are skipped, the third gives 2. *)
Example selectRandomTrack_skips_featured :
  selectRandomTrack Sample.Curve Sample.threeTracks Sample.transitioning
                    [1 # 2; 2 # 5; 9 # 10; 1 # 3]
  = Returned (Some 2) [1 # 3].
Proof. vm_compute. reflexivity. Qed.

(** * Further properties of the code *)

(** ** easeInOutCubic *)

Lemma ltb_lt (a b : Q) : Js.ltb a b = true <-> (a < b)%Q.
Proof.
  unfold Js.ltb. rewrite Qlt_alt.
  destruct (a ?= b)%Q; split; congruence.
Qed.

Lemma ltb_ge (a b : Q) : Js.ltb a b = false <-> (b <= a)%Q.
Proof.
  destruct (Js.ltb a b) eqn:E.
  - apply ltb_lt in E. split; [discriminate|intros; exfalso; lra].
  - split; [intros _|reflexivity].
    apply Qnot_lt_le. intros H. apply ltb_lt in H. congruence.
Qed.

Lemma Math_pow3_cube (b : Q) : Math_pow3 b == b * b * b.
Proof. unfold Math_pow3. simpl. ring. Qed.

Lemma square_nonneg (a : Q) : (0 <= a * a)%Q.
Proof.
  destruct (Qlt_le_dec a 0) as [Hneg|Hpos].
  - assert (E : a * a == (- a) * (- a)) by ring.
    rewrite E. apply Qmult_le_0_compat; lra.
  - apply Qmult_le_0_compat; exact Hpos.
Qed.

Lemma cube_mono (a b : Q) : (a <= b -> a * a * a <= b * b * b)%Q.
Proof.
  intros Hab.
  assert (E : b * b * b - a * a * a
              == (b - a) * (((a + b) * (a + b) + a * a + b * b) * (1 # 2)))
    by ring.
  assert (H : (0 <= b * b * b - a * a * a)%Q).
  { rewrite E. apply Qmult_le_0_compat; [lra|].
    pose proof (square_nonneg (a + b)). pose proof (square_nonneg a).
    pose proof (square_nonneg b). lra. }
  lra.
Qed.

Lemma easeInOutCubic_low (t : Q) :
  (t < 1 # 2)%Q -> easeInOutCubic t == 4 * t * t * t.
Proof.
  intros Ht. unfold easeInOutCubic.
  rewrite (proj2 (ltb_lt t (1 # 2)) Ht). reflexivity.
Qed.

Lemma easeInOutCubic_high (t : Q) :
  ((1 # 2) <= t)%Q ->
  easeInOutCubic t
  == 1 - (1 # 2) * ((2 - 2 * t) * (2 - 2 * t) * (2 - 2 * t)).
Proof.
  intros Ht. unfold easeInOutCubic.
  rewrite (proj2 (ltb_ge t (1 # 2)) Ht), Math_pow3_cube. field.
Qed.

(** The easing function does not decrease. *)
Lemma easeInOutCubic_le (t1 t2 : Q) :
  (t1 <= t2)%Q -> (easeInOutCubic t1 <= easeInOutCubic t2)%Q.
Proof.
  intros Hle.
  destruct (Qlt_le_dec t1 (1 # 2)) as [H1|H1];
    destruct (Qlt_le_dec t2 (1 # 2)) as [H2|H2].
  - rewrite !easeInOutCubic_low by assumption.
    pose proof (cube_mono t1 t2 Hle). lra.
  - rewrite easeInOutCubic_low, easeInOutCubic_high by assumption.
    pose proof (cube_mono t1 (1 # 2) ltac:(lra)) as Ha.
    pose proof (cube_mono (2 - 2 * t2) 1 ltac:(lra)) as Hb.
    lra.
  - lra.
  - rewrite !easeInOutCubic_high by assumption.
    pose proof (cube_mono (2 - 2 * t2) (2 - 2 * t1) ltac:(lra)). lra.
Qed.

(** X2. The easing function maps 0 to 0, the midpoint to one half and 1
    to 1, and keeps every progress of [[0, 1]] inside [[0, 1]]. *)
Theorem easeInOutCubic_unit_interval (t : Q) :
  (0 <= t <= 1)%Q ->
  (0 <= easeInOutCubic t <= 1)%Q /\
  easeInOutCubic 0 == 0 /\
  easeInOutCubic (1 # 2) == 1 # 2 /\
  easeInOutCubic 1 == 1.
Proof.
  intros [H0 H1].
  assert (Hz : easeInOutCubic 0 == 0) by reflexivity.
  assert (Ho : easeInOutCubic 1 == 1) by reflexivity.
  split; [|split; [exact Hz|split; [reflexivity|exact Ho]]].
  pose proof (easeInOutCubic_le 0 t H0).
  pose proof (easeInOutCubic_le t 1 H1).
  lra.
Qed.

Lemma easeInOutCubic_unit_interval_witness :
  (0 <= 1 # 3 <= 1)%Q /\ (0 <= easeInOutCubic (1 # 3) <= 1)%Q.
Proof.
  assert (H : (0 <= 1 # 3 <= 1)%Q) by (split; vm_compute; discriminate).
  split; [exact H|exact (proj1 (easeInOutCubic_unit_interval _ H))].
Defined.

(** ** getPointOnCurve and the frame progress *)

(** X4. Sampling clamps the progress: at or below 0 the curve is read at
    0, at or above 1 it is read at 1, and strictly in between at the
    progress itself. *)
Theorem getPointOnCurve_clamps (Curve : Type)
    (getPoint : Curve -> Q -> Vector3) (c : Curve) (progress : Q) :
  ((progress <= 0)%Q ->
   getPointOnCurve Curve getPoint c progress = getPoint c 0%Q) /\
  ((1 <= progress)%Q ->
   getPointOnCurve Curve getPoint c progress = getPoint c 1%Q) /\
  ((0 < progress < 1)%Q ->
   getPointOnCurve Curve getPoint c progress = getPoint c progress).
Proof.
  unfold getPointOnCurve, Js.max, Js.min, Qmax, Qmin, GenericMinMax.gmax,
    GenericMinMax.gmin.
  split; [|split].
  - intros Hp. destruct (1 ?= progress)%Q eqn:E1.
    + apply Qeq_alt in E1. lra.
    + apply Qlt_alt in E1. lra.
    + destruct (0 ?= progress)%Q eqn:E0; try reflexivity.
      apply Qlt_alt in E0. lra.
  - intros Hp. destruct (1 ?= progress)%Q eqn:E1; try reflexivity.
    apply Qgt_alt in E1. lra.
  - intros [H0 H1]. destruct (1 ?= progress)%Q eqn:E1.
    + apply Qeq_alt in E1. lra.
    + apply Qlt_alt in E1. lra.
    + destruct (0 ?= progress)%Q eqn:E0; try reflexivity.
      * apply Qeq_alt in E0. lra.
      * apply Qgt_alt in E0. lra.
Qed.

Section ProgressRange.

Variable config : Config.
Local Abbreviation duration := (animationDuration config).
Local Abbreviation progress := (frameProgress config).

Hypothesis duration_positive : (0 < duration)%Q.

Lemma specProgress_loop_range (t : Q) :
  (0 <= specProgress true duration t < 1)%Q.
Proof.
  unfold specProgress.
  pose proof (Qfloor_le (t / duration)) as Hlo.
  pose proof (Qlt_floor (t / duration)) as Hhi.
  rewrite inject_Z_plus in Hhi. change (inject_Z 1) with 1%Q in Hhi.
  assert (Hne : ~ duration == 0) by lra.
  assert (E : (t - duration * inject_Z (Qfloor (t / duration))) / duration
              == t / duration - inject_Z (Qfloor (t / duration)))
    by (field; exact Hne).
  rewrite E. lra.
Qed.

(** X5. With a positive loop duration and a clock that has not gone back
    behind the start time, the progress of a looping animation lies in
    [[0, 1)]; without looping it lies in [[0, 1]] and stays at 1 from the
    end of the duration on. *)
Theorem frameProgress_range (t : Q) :
  (0 <= t)%Q ->
  (animationLoop config = true -> (0 <= progress t < 1)%Q) /\
  (animationLoop config = false ->
   (0 <= progress t <= 1)%Q /\ ((duration <= t)%Q -> progress t == 1)).
Proof.
  intros Ht. split.
  - intros Hon.
    rewrite (frameProgress_spec config duration_positive t Ht), Hon.
    apply specProgress_loop_range.
  - intros Hoff. unfold frameProgress. rewrite Hoff. unfold Js.min.
    assert (Hdiv : (0 <= t / duration)%Q) by now apply Qdiv_nonneg.
    split.
    + split; [apply Q.min_glb; lra|apply Q.le_min_r].
    + intros Hend. apply Q.min_r.
      apply Qle_shift_div_l; [exact duration_positive|lra].
Qed.

End ProgressRange.

Lemma frameProgress_range_witness :
  (0 < animationDuration shippedConfig)%Q /\ (0 <= 75)%Q /\
  (0 <= frameProgress shippedConfig 75 < 1)%Q.
Proof.
  assert (Hpos : (0 < animationDuration shippedConfig)%Q) by reflexivity.
  assert (Ht : (0 <= 75)%Q) by (vm_compute; discriminate).
  split; [exact Hpos|]. split; [exact Ht|].
  exact (proj1 (frameProgress_range shippedConfig Hpos 75%Q Ht) eq_refl).
Defined.

(** X6. As long as [Math.sin] stays within [[-1, 1]], the emissive
    intensity of the featured orb stays between 10 and 18. *)
Theorem blinkIntensity_range (Math_sin : Q -> Q) (Math_PI elapsed : Q) :
  (forall a, (-1 <= Math_sin a <= 1)%Q) ->
  (10 <= blinkIntensity Math_sin Math_PI elapsed <= 18)%Q.
Proof.
  intros Hsin. unfold blinkIntensity.
  specialize (Hsin (elapsed * 3 * Math_PI * 2)%Q).
  set (v := Math_sin _) in *.
  assert (E : 10 + (v + 1) / 2 * 8 == 14 + 4 * v) by field.
  rewrite E. lra.
Qed.

Lemma blinkIntensity_range_witness :
  (forall a, (-1 <= Sample.Math_sin a <= 1)%Q) /\
  (10 <= blinkIntensity Sample.Math_sin Sample.Math_PI 5 <= 18)%Q.
Proof.
  assert (H : forall a, (-1 <= Sample.Math_sin a <= 1)%Q)
    by (intros a; split; vm_compute; discriminate).
  split; [exact H|exact (blinkIntensity_range _ _ _ H)].
Defined.

(** ** More on downsampleTrack *)

Section DownsampleEnds.

Context {A : Type} `{EqDecision A}.
Implicit Types (points : list A) (maxPoints : Z).

(** The stride picks start with the first point. *)
Lemma stride_picks_head points maxPoints (picked : list A) :
  1 <= maxPoints -> maxPoints < Z.of_nat (length points) ->
  readsAt points
    (strideIndices (Z.of_nat (length points)) maxPoints
                   (Z.to_nat maxPoints) 0) picked ->
  head picked = head points /\ Z.of_nat (length picked) = maxPoints.
Proof.
  intros Hmax Hlong Hreads.
  pose proof (Forall2_length _ _ _ Hreads) as Hlen.
  rewrite strideIndices_length in Hlen.
  split; [|lia].
  pose proof (strideIndices_lookup (Z.of_nat (length points)) maxPoints
                (Z.to_nat maxPoints) 0 0 ltac:(lia)) as Hidx.
  rewrite strideIndex_div in Hidx by lia.
  replace ((0 + Z.of_nat 0) * Z.of_nat (length points) / maxPoints)
    with 0 in Hidx by (simpl; now rewrite Z.div_0_l by lia).
  change (Z.to_nat 0) with 0%nat in Hidx.
  destruct (lookup_lt_is_Some_2 picked 0 ltac:(lia)) as [p Hp].
  pose proof (Forall2_lookup_lr _ _ _ _ _ _ Hreads Hidx Hp) as Hpt.
  simpl in Hpt. rewrite !head_lookup. congruence.
Qed.

(** Both ends and the size of the result, in one statement. *)
Lemma downsampleTrack_ends points maxPoints :
  1 <= maxPoints ->
  head (downsampleTrack points maxPoints) = head points /\
  last (downsampleTrack points maxPoints) = last points /\
  Z.of_nat (length (downsampleTrack points maxPoints)) <= maxPoints + 1 /\
  Z.min (Z.of_nat (length points)) maxPoints
  <= Z.of_nat (length (downsampleTrack points maxPoints)).
Proof.
  intros Hmax.
  split; [|split; [now apply downsampleTrack_last|]].
  - destruct (Z.le_gt_cases (Z.of_nat (length points)) maxPoints)
      as [Hle|Hgt]; [now rewrite downsampleTrack_short|].
    destruct (downsampleTrack_long points maxPoints Hmax ltac:(lia))
      as (picked & final & _ & Hreads & Hout).
    destruct (stride_picks_head points maxPoints picked Hmax ltac:(lia)
                Hreads) as [Hhead Hlen].
    destruct Hout as [[_ ->]|[_ ->]]; [exact Hhead|].
    rewrite <- Hhead. destruct picked; [simpl in Hlen; lia|reflexivity].
  - destruct (Z.le_gt_cases (Z.of_nat (length points)) maxPoints)
      as [Hle|Hgt]; [rewrite downsampleTrack_short by exact Hle; lia|].
    destruct (downsampleTrack_long points maxPoints Hmax ltac:(lia))
      as (picked & final & _ & Hreads & Hout).
    destruct (stride_picks_head points maxPoints picked Hmax ltac:(lia)
                Hreads) as [_ Hlen].
    destruct Hout as [[_ ->]|[_ ->]]; rewrite ?length_app; simpl; lia.
Qed.

End DownsampleEnds.

Section DownsampleMore.

Context {A : Type} `{EqDecision A}.
Implicit Types (points : list A) (maxPoints : Z).

(** X7. The first point of a track is always kept, as the first point of
    the result. *)
Theorem downsampleTrack_head points maxPoints :
  1 <= maxPoints ->
  head (downsampleTrack points maxPoints) = head points.
Proof.
  intros Hmax.
  destruct (Z.le_gt_cases (Z.of_nat (length points)) maxPoints) as [Hle|Hgt].
  - now rewrite downsampleTrack_short.
  - destruct (downsampleTrack_long points maxPoints Hmax ltac:(lia))
      as (picked & final & _ & Hreads & Hout).
    destruct (stride_picks_head points maxPoints picked Hmax ltac:(lia)
                Hreads) as [Hhead Hlen].
    destruct Hout as [[_ ->]|[_ ->]]; [exact Hhead|].
    rewrite <- Hhead. destruct picked; [simpl in Hlen; lia|reflexivity].
Qed.


End DownsampleMore.

Lemma downsampleTrack_head_witness :
  1 <= 3 /\
  head (downsampleTrack [10; 11; 12; 13; 14; 15; 16]%nat 3) = Some 10%nat.
Proof.
  split; [lia|].
  exact (downsampleTrack_head [10; 11; 12; 13; 14; 15; 16]%nat 3
                              ltac:(lia)).
Defined.



(** ** More on processTracks *)

Section TrackMore.

Variable config : Config.
Variable Math_cos : Q -> Q.
Variable Math_PI : Q.
Context {Point : Type} `{EqDecision Point}.
Variable lat lon ele : Point -> Q.
Variable Curve : Type.
Variable CatmullRomCurve3 : list Vector3 -> option Curve.

Local Abbreviation processTrack :=
  (Utils.processTrack config Math_cos Math_PI lat lon ele Curve
                      CatmullRomCurve3).
Local Abbreviation processTracks :=
  (Utils.processTracks config Math_cos Math_PI lat lon ele Curve
                       CatmullRomCurve3).
Local Abbreviation survivors :=
  (Utils.survivors config Math_cos Math_PI lat lon ele Curve
                   CatmullRomCurve3).
Local Abbreviation project :=
  (fun center point =>
     gpsToCartesian config Math_cos Math_PI
                    (lat point) (lon point) (ele point) center).
Local Abbreviation limit := (maxPointsPerTrack config).

Implicit Types (tracks : list (TrackData (Point := Point)))
  (trackData : TrackData (Point := Point)) (center : Center.t).

(** X9. A track that is kept has between 2 and [maxPointsPerTrack + 1]
    control points, its curve is the one built from them, and the control
    points start at the projection of the raw track's first point and end
    at the projection of its last point, the two points whose coordinates
    the metadata records. *)
Theorem processTrack_kept_shape center trackData (index : nat)
    (t : ProcessedTrack Curve) :
  1 <= limit ->
  processTrack center trackData index = Js.Normal (Some t) ->
  (2 <= length (points3D t))%nat /\
  Z.of_nat (length (points3D t)) <= limit + 1 /\
  processedPointCount t = length (points3D t) /\
  curve t = CatmullRomCurve3 (points3D t) /\
  is_Some (curve t) /\
  exists first final,
    head (points trackData) = Some first /\
    last (points trackData) = Some final /\
    head (points3D t) = Some (project center first) /\
    last (points3D t) = Some (project center final) /\
    ProcessedMetadata.startLat (p_metadata t) = lat first /\
    ProcessedMetadata.startLon (p_metadata t) = lon first /\
    ProcessedMetadata.endLat (p_metadata t) = lat final /\
    ProcessedMetadata.endLon (p_metadata t) = lon final.
Proof.
  intros Hlimit. unfold Utils.processTrack.
  destruct (downsampleTrack_ends (points trackData) limit Hlimit)
    as (Hhead & Hlast & Hupper & _).
  destruct (Nat.ltb_spec
              (length (project center
                         <$> downsampleTrack (points trackData) limit)) 2)
    as [|Hlen]; [discriminate|].
  destruct (CatmullRomCurve3 _) as [c|] eqn:Hcurve; [|discriminate].
  destruct (points trackData !! 0%nat) as [first|] eqn:Hfirst;
    [|discriminate].
  destruct (points trackData !! (length (points trackData) - 1)%nat)
    as [final|] eqn:Hfinal; [|discriminate].
  intros [= <-]. simpl.
  split; [exact Hlen|]. split; [rewrite length_fmap; exact Hupper|].
  split; [reflexivity|]. split; [now rewrite Hcurve|].
  split; [eauto|].
  exists first, final.
  assert (Hh : head (points trackData) = Some first)
    by (now rewrite head_lookup).
  assert (Hl : last (points trackData) = Some final).
  { rewrite last_lookup.
    now replace (pred (length (points trackData)))
      with (length (points trackData) - 1)%nat by lia. }
  split; [exact Hh|]. split; [exact Hl|].
  split; [|split; [|repeat split]].
  - rewrite head_lookup, list_lookup_fmap, <- head_lookup, Hhead, Hh.
    reflexivity.
  - rewrite last_lookup, list_lookup_fmap, length_fmap, <- last_lookup,
      Hlast, Hl.
    reflexivity.
Qed.

(** X10. With a point limit of at least 2, a track is dropped exactly
    when it has fewer than two points or the curve constructor throws on
    its projected, downsampled points. *)
Theorem processTrack_dropped_iff center trackData (index : nat) :
  2 <= limit ->
  processTrack center trackData index = Js.Normal None <->
  ((length (points trackData) < 2)%nat \/
   CatmullRomCurve3
     (project center <$> downsampleTrack (points trackData) limit) = None).
Proof.
  intros Hlimit.
  destruct (downsampleTrack_ends (points trackData) limit ltac:(lia))
    as (_ & _ & _ & Hlower).
  assert (Hshort :
    (length (project center <$> downsampleTrack (points trackData) limit)
     < 2)%nat <-> (length (points trackData) < 2)%nat).
  { rewrite length_fmap. split; intros Hlt.
    - lia.
    - destruct (Z.le_gt_cases (Z.of_nat (length (points trackData))) limit)
        as [Hle|Hgt]; [now rewrite downsampleTrack_short|lia]. }
  unfold Utils.processTrack.
  destruct (Nat.ltb_spec
              (length (project center
                         <$> downsampleTrack (points trackData) limit)) 2)
    as [Hlt|Hge].
  - split; [intros _; left; now apply Hshort|reflexivity].
  - destruct (CatmullRomCurve3 _) as [c|] eqn:Hcurve.
    + assert (2 <= length (points trackData))%nat
        by (destruct (Nat.lt_ge_cases (length (points trackData)) 2)
              as [Hc|Hc]; [apply Hshort in Hc; lia|exact Hc]).
      destruct (lookup_lt_is_Some_2 (points trackData) 0 ltac:(lia))
        as [first ->].
      destruct (lookup_lt_is_Some_2 (points trackData)
                  (length (points trackData) - 1) ltac:(lia))
        as [final ->].
      split; [discriminate|]. intros [Hlt|Hnone]; [lia|discriminate].
    + split; [intros _; now right|reflexivity].
Qed.

Lemma survivors_length center tracks : forall index : nat,
  (length (survivors center tracks index) <= length tracks)%nat.
Proof.
  induction tracks as [|trackData rest IH]; intros index; simpl; [lia|].
  specialize (IH (S index)).
  destruct (processTrack center trackData index) as [[t|]|e]; simpl; lia.
Qed.

Lemma survivors_all_kept center tracks : forall index : nat,
  2 <= limit ->
  Forall (fun trackData => (2 <= length (points trackData))%nat) tracks ->
  (forall points3D, CatmullRomCurve3 points3D <> None) ->
  id <$> survivors center tracks index = seq index (length tracks).
Proof.
  induction tracks as [|trackData rest IH];
    intros index Hlimit Hall Hctor; simpl; [reflexivity|].
  apply Forall_cons in Hall as [Hlen Hall].
  destruct (processTrack center trackData index) as [[t|]|e] eqn:Hp.
  - csimpl. rewrite (IH (S index) Hlimit Hall Hctor).
    destruct (processTrack_id config Math_cos Math_PI lat lon ele Curve
                CatmullRomCurve3 center trackData index t Hp) as [-> _].
    reflexivity.
  - apply (processTrack_dropped_iff center trackData index Hlimit) in Hp.
    destruct Hp as [Hlt|Hnone]; [lia|now apply Hctor in Hnone].
  - destruct (processTrack_normal config Math_cos Math_PI lat lon ele
                Curve CatmullRomCurve3 center trackData index) as [r Hr].
    congruence.
Qed.

(** X11. [processTracks] never returns more tracks than it was given, and
    when every track has at least two points and the curve constructor
    never throws it keeps them all, with ids 0, 1, 2, ... in input
    order. *)
Theorem processTracks_keeps_complete_tracks tracks :
  2 <= limit ->
  exists processed,
    processTracks tracks = Js.Normal processed /\
    (length processed <= length tracks)%nat /\
    (Forall (fun trackData => (2 <= length (points trackData))%nat) tracks ->
     (forall points3D, CatmullRomCurve3 points3D <> None) ->
     id <$> processed = seq 0 (length tracks)).
Proof.
  intros Hlimit. eexists. split; [apply processTracks_survivors|].
  split; [apply survivors_length|].
  intros Hall Hctor. now apply survivors_all_kept.
Qed.

End TrackMore.

Lemma processTrack_kept_shape_witness :
  1 <= maxPointsPerTrack shippedConfig /\
  match Utils.processTrack shippedConfig Sample.Math_cos Sample.Math_PI
          Sample.lat Sample.lon Sample.ele Sample.Curve
          Sample.CatmullRomCurve3 {| Center.lat := 35; Center.lon := 139 |}
          Sample.twoPoints 4 with
  | Js.Normal (Some t) => (2 <= length (points3D t))%nat
  | _ => False
  end.
Proof.
  assert (Hlimit : 1 <= maxPointsPerTrack shippedConfig) by (simpl; lia).
  split; [exact Hlimit|].
  destruct (Utils.processTrack _ _ _ _ _ _ _ _ _ _ _) as [[t|]|e] eqn:Hp.
  - exact (proj1 (processTrack_kept_shape shippedConfig Sample.Math_cos
                    Sample.Math_PI Sample.lat Sample.lon Sample.ele
                    Sample.Curve Sample.CatmullRomCurve3 _ _ _ t Hlimit Hp)).
  - vm_compute in Hp. discriminate Hp.
  - vm_compute in Hp. discriminate Hp.
Defined.

Lemma processTrack_dropped_iff_witness :
  2 <= maxPointsPerTrack shippedConfig /\
  Utils.processTrack shippedConfig Sample.Math_cos Sample.Math_PI
    Sample.lat Sample.lon Sample.ele Sample.Curve Sample.CatmullRomCurve3
    {| Center.lat := 35; Center.lon := 139 |} Sample.onePoint 0
  = Js.Normal None.
Proof.
  assert (Hlimit : 2 <= maxPointsPerTrack shippedConfig) by (simpl; lia).
  split; [exact Hlimit|].
  apply (processTrack_dropped_iff shippedConfig Sample.Math_cos
           Sample.Math_PI Sample.lat Sample.lon Sample.ele Sample.Curve
           Sample.CatmullRomCurve3 _ Sample.onePoint 0%nat Hlimit).
  left. simpl. lia.
Defined.

Lemma processTracks_keeps_complete_tracks_witness :
  2 <= maxPointsPerTrack shippedConfig /\
  exists processed,
    Utils.processTracks shippedConfig Sample.Math_cos Sample.Math_PI
      Sample.lat Sample.lon Sample.ele Sample.Curve Sample.CatmullRomCurve3
      [Sample.twoPoints; Sample.onePoint] = Js.Normal processed /\
    (length processed <= 2)%nat.
Proof.
  assert (Hlimit : 2 <= maxPointsPerTrack shippedConfig) by (simpl; lia).
  split; [exact Hlimit|].
  destruct (processTracks_keeps_complete_tracks shippedConfig
              Sample.Math_cos Sample.Math_PI Sample.lat Sample.lon
              Sample.ele Sample.Curve Sample.CatmullRomCurve3
              [Sample.twoPoints; Sample.onePoint] Hlimit)
    as (processed & Hrun & Hlen & _).
  exists processed. split; [exact Hrun|exact Hlen].
Defined.

(** ** More on the camera hook *)

Section HookMore.

Variable config : Config.
Variable Curve : Type.
Variable calculateOptimalCameraPosition :
  ProcessedTrack Curve -> Q -> list Q -> Vector3 * Vector3 * list Q.
Variable tracks : list (ProcessedTrack Curve).

Local Abbreviation cfg := (cameraAnimation config).
Local Abbreviation selectRandomTrack :=
  (UseCameraAnimation.selectRandomTrack Curve tracks).
Local Abbreviation startTransition :=
  (UseCameraAnimation.startTransition Curve calculateOptimalCameraPosition
                                      tracks).
Local Abbreviation runInterval :=
  (UseCameraAnimation.runInterval Curve calculateOptimalCameraPosition
                                  tracks).
Local Abbreviation checkInactivity :=
  (UseCameraAnimation.checkInactivity config).
Local Abbreviation useFrame :=
  (UseCameraAnimation.CameraAnimation_useFrame config).
Local Abbreviation hookStep :=
  (hookStep config Curve calculateOptimalCameraPosition tracks).

(** X13. After a [change] event in AUTO, and the effects of the render
    it causes, the user is in control from the time of the event:
    selection ticks change nothing and use no random draw, an inactivity
    check within [inactivityTimeout] seconds of the event changes
    nothing, and a check later than that hands control back to AUTO. *)
Theorem user_control_until_inactive (s : CameraAnimation) (clock : Clock) :
  animationStateRef s = AUTO ->
  let s1 := syncRefs (fst (handleInteraction s clock)) in
  let touched := ticks clock (reads clock) in
  animationState s1 = USER_CONTROL /\
  lastInteractionRef s1 = touched /\
  (forall clock' random,
     runInterval s1 clock' random = Returned (s1, clock') random) /\
  (forall clock',
     let now := ticks clock' (reads clock') in
     ((inject_Z (now - touched) / 1000 <= inactivityTimeout cfg)%Q ->
      fst (checkInactivity s1 clock') = s1) /\
     ((inactivityTimeout cfg < inject_Z (now - touched) / 1000)%Q ->
      fst (checkInactivity s1 clock') = setAnimationState AUTO s1)).
Proof.
  intros Hauto s1 touched.
  assert (Hs1 : animationState s1 = USER_CONTROL /\
                animationStateRef s1 = USER_CONTROL /\
                lastInteractionRef s1 = touched).
  { subst s1 touched. unfold handleInteraction. rewrite Hauto. simpl.
    auto. }
  destruct Hs1 as (Hstate & Href & Hlast).
  split; [exact Hstate|]. split; [exact Hlast|]. split.
  - intros clock' random. unfold UseCameraAnimation.runInterval.
    rewrite Href. reflexivity.
  - intros clock' now. unfold UseCameraAnimation.checkInactivity.
    rewrite Hstate, Hlast. simpl. fold now. split; intros Hcmp.
    + now rewrite (proj2 (ltb_ge _ _) Hcmp).
    + now rewrite (proj2 (ltb_lt _ _) Hcmp).
Qed.

(** A selection with tracks and draws from [[0, 1)] picks the position of
    a track. *)
Lemma selectRandomTrack_valid (s : CameraAnimation) (random : list Q)
    v rest :
  tracks <> [] -> Forall unitDraw random ->
  selectRandomTrack s random = Returned v rest ->
  exists newIndex track,
    v = Some newIndex /\ 0 <= newIndex < Z.of_nat (length tracks) /\
    tracks !! Z.to_nat newIndex = Some track.
Proof.
  intros Hne Hdraws. unfold UseCameraAnimation.selectRandomTrack.
  destruct (decide (length tracks = 0%nat)) as [Hz|Hnz];
    [apply nil_length_inv in Hz; contradiction|].
  destruct (selectRandomTrack_loop _ _ _) as [i rest'|] eqn:Hloop;
    [|discriminate].
  intros [= <- <-].
  pose proof (selectRandomTrack_loop_range (Z.of_nat (length tracks))
                (featuredTrackIndexRef s) random ltac:(lia) Hdraws
                i rest' Hloop) as Hrange.
  destruct (lookup_lt_is_Some_2 tracks (Z.to_nat i) ltac:(lia))
    as [track Htrack].
  exists i, track. auto.
Qed.

(** X14. A selection tick that runs in AUTO on a non-empty track list
    features the position of a track and starts a transition: the state
    becomes TRANSITIONING, the recorded start pose is the camera's
    current position and orbit target (the origin without controls), the
    recorded end pose is the one computed for the featured track, the
    start time is the one clock reading the tick makes, and the camera
    itself has not moved yet. *)
Theorem runInterval_starts_transition (s : CameraAnimation) (clock : Clock)
    (random : list Q) s' clock' rest :
  tracks <> [] -> Forall unitDraw random ->
  animationStateRef s = AUTO ->
  runInterval s clock random = Returned (s', clock') rest ->
  exists newIndex track data,
    featuredTrackIndex s' = Some newIndex /\
    tracks !! Z.to_nat newIndex = Some track /\
    0 <= newIndex < Z.of_nat (length tracks) /\
    animationState s' = TRANSITIONING /\
    transitionDataRef s' = Some data /\
    startPosition data = cameraPosition s /\
    startTarget data = default {| x := 0; y := 0; z := 0 |} (orbitTarget s) /\
    (exists drawn,
       calculateOptimalCameraPosition track (cameraFov s) drawn
       = (targetPosition data, targetLookAt data, rest)) /\
    transitionStartRef s' = Some (ticks clock (reads clock)) /\
    reads clock' = S (reads clock) /\
    cameraPosition s' = cameraPosition s /\
    orbitTarget s' = orbitTarget s.
Proof.
  intros Hne Hdraws Hauto. unfold UseCameraAnimation.runInterval.
  rewrite Hauto.
  destruct (decide (AUTO = AUTO)) as [_|Hn]; [|now destruct Hn].
  destruct (selectRandomTrack s random) as [v rnd|] eqn:Hsel;
    [|discriminate].
  destruct (selectRandomTrack_valid s random v rnd Hne Hdraws Hsel)
    as (i & track & -> & Hrange & Htrack).
  unfold UseCameraAnimation.startTransition.
  destruct (Z.ltb_spec i 0) as [|_]; [lia|]. rewrite Htrack.
  cbn [cameraFov setFeaturedTrackIndex].
  destruct (calculateOptimalCameraPosition track (cameraFov s) rnd)
    as [[pos look] rnd'] eqn:Hpose.
  unfold Date_now. intros [= <- <- <-].
  exists i, track. eexists. simpl.
  repeat (split; [first [reflexivity|eassumption|lia]|]).
  split; [|repeat split].
  exists rnd. exact Hpose.
Qed.





Hypothesis seconds_positive : (0 < transitionSeconds cfg)%Q.


End HookMore.

Section HookInvariants.

Variable config : Config.
Variable Curve : Type.
Variable calculateOptimalCameraPosition :
  ProcessedTrack Curve -> Q -> list Q -> Vector3 * Vector3 * list Q.
Variable tracks : list (ProcessedTrack Curve).

Local Abbreviation selectRandomTrack :=
  (UseCameraAnimation.selectRandomTrack Curve tracks).
Local Abbreviation runInterval :=
  (UseCameraAnimation.runInterval Curve calculateOptimalCameraPosition
                                  tracks).
Local Abbreviation hookStep :=
  (hookStep config Curve calculateOptimalCameraPosition tracks).
Local Abbreviation hookInvariant := (hookInvariant Curve).

Lemma hookInvariant_leave (st : AnimationState) (s : CameraAnimation) :
  st <> TRANSITIONING -> hookInvariant tracks s ->
  hookInvariant tracks (setAnimationState st s).
Proof.
  intros Hst (_ & Hfeat & Href).
  split; [intros E; simpl in E; contradiction|exact (conj Hfeat Href)].
Qed.

Lemma quietStep_invariant (s s' : CameraAnimation) :
  quietStep config s s' -> hookInvariant tracks s -> hookInvariant tracks s'.
Proof.
  intros Hstep Hinv.
  destruct Hstep as [s0 clock|s0 clock|s0 clock|s0].
  - unfold handleInteraction.
    destruct (decide (animationStateRef s0 = TRANSITIONING));
      [exact Hinv|].
    simpl. destruct (decide (animationStateRef s0 = AUTO)); simpl.
    + apply (hookInvariant_leave USER_CONTROL); [discriminate|exact Hinv].
    + exact Hinv.
  - unfold UseCameraAnimation.checkInactivity.
    destruct (decide (animationState s0 = USER_CONTROL)); [|exact Hinv].
    simpl. destruct (Js.ltb _ _); simpl; [|exact Hinv].
    apply (hookInvariant_leave AUTO); [discriminate|exact Hinv].
  - unfold UseCameraAnimation.CameraAnimation_useFrame.
    destruct (decide (animationState s0 <> TRANSITIONING)); [exact Hinv|].
    destruct (transitionDataRef s0) as [data|] eqn:Hdata; [|exact Hinv].
    simpl. destruct (Qle_bool _ _); simpl.
    + destruct Hinv as (_ & Hfeat & Href).
      split; [discriminate|exact (conj Hfeat Href)].
    + destruct Hinv as (Htrans & Hfeat & Href).
      split; [|exact (conj Hfeat Href)].
      exact Htrans.
  - destruct Hinv as (Htrans & Hfeat & Href).
    exact (conj Htrans (conj Hfeat Hfeat)).
Qed.

Lemma runInterval_invariant (s : CameraAnimation) (clock : Clock)
    (random : list Q) s' clock' rest :
  Forall unitDraw random ->
  runInterval s clock random = Returned (s', clock') rest ->
  hookInvariant tracks s -> hookInvariant tracks s'.
Proof.
  intros Hdraws Hrun Hinv.
  destruct (decide (animationStateRef s = AUTO)) as [Hauto|Hbusy].
  - destruct tracks as [|t0 ts] eqn:Htracks.
    + revert Hrun. unfold UseCameraAnimation.runInterval.
      rewrite Hauto. simpl. intros [= <- _ _]. exact Hinv.
    + rewrite <- Htracks in *.
      destruct (runInterval_starts_transition Curve
                  calculateOptimalCameraPosition tracks s clock random
                  s' clock' rest
                  ltac:(rewrite Htracks; discriminate) Hdraws Hauto Hrun)
        as (i & track & data & Hf & _ & Hrange & Hst & Hdata & _ & _ & _
            & Hstart & _).
      destruct Hinv as (_ & _ & Href).
      assert (Hrefs : featuredTrackIndexRef s' = featuredTrackIndexRef s).
      { revert Hrun. unfold UseCameraAnimation.runInterval.
        rewrite Hauto. simpl.
        destruct (selectRandomTrack s random) as [[j|] rnd|];
          [|now intros [= <- _ _]|discriminate].
        unfold UseCameraAnimation.startTransition.
        destruct (if j <? 0 then None else tracks !! Z.to_nat j);
          [|now intros [= <- _ _]].
        destruct (calculateOptimalCameraPosition _ _ _) as [[pos look] r].
        now intros [= <- _ _]. }
      split; [intros _; rewrite Hdata, Hstart; eauto|]. split.
      * intros j Hj. rewrite Hf in Hj. injection Hj as <-. exact Hrange.
      * intros j Hj. rewrite Hrefs in Hj. now apply Href.
  - revert Hrun. unfold UseCameraAnimation.runInterval.
    destruct (decide (animationStateRef s = AUTO)); [contradiction|].
    intros [= <- _ _]. exact Hinv.
Qed.

(** X16. In every state the hook can reach from its mount state, by any
    sequence of selection ticks, frames, [change] events, inactivity
    checks and effect runs, a state of TRANSITIONING comes with recorded
    transition data and start time (so the next frame animates it), and
    the featured index, both the one returned to the components and the
    one in the ref, is the position of a track. *)
Theorem hook_reachable_invariant (position : Vector3) (fov : Q)
    (target : option Vector3) (s : CameraAnimation) :
  rtc hookStep (initialCameraAnimation position fov target) s ->
  (animationState s = TRANSITIONING ->
   is_Some (transitionDataRef s) /\ is_Some (transitionStartRef s)) /\
  (forall i, featuredTrackIndex s = Some i ->
     is_Some (tracks !! Z.to_nat i) /\ 0 <= i) /\
  (forall i, featuredTrackIndexRef s = Some i ->
     is_Some (tracks !! Z.to_nat i) /\ 0 <= i).
Proof.
  intros Hrun.
  assert (Hinv : hookInvariant tracks s).
  { revert s Hrun.
    apply (rtc_ind_r (fun s => hookInvariant tracks s)
                     (initialCameraAnimation position fov target)).
    - repeat split; simpl; discriminate.
    - intros s1 s2 _ Hstep IH.
      destruct Hstep as [sa sb Hq|sa clock random sb clock' rest Hd Hr].
      + exact (quietStep_invariant sa sb Hq IH).
      + exact (runInterval_invariant sa clock random sb clock' rest
                 Hd Hr IH). }
  destruct Hinv as (Htrans & Hfeat & Href).
  split; [exact Htrans|].
  split; intros i Hi; [apply Hfeat in Hi|apply Href in Hi];
    (split; [apply lookup_lt_is_Some_2|]; lia).
Qed.

End HookInvariants.

Lemma user_control_until_inactive_witness :
  animationStateRef
    (initialCameraAnimation Sample.origin 50 (Some Sample.origin)) = AUTO /\
  animationState
    (syncRefs
       (fst (handleInteraction
               (initialCameraAnimation Sample.origin 50 (Some Sample.origin))
               Sample.clock)))
  = USER_CONTROL.
Proof.
  split; [reflexivity|].
  exact (proj1 (user_control_until_inactive shippedConfig Sample.Curve
                  Sample.calculateOptimalCameraPosition Sample.threeTracks
                  (initialCameraAnimation Sample.origin 50
                                          (Some Sample.origin))
                  Sample.clock eq_refl)).
Defined.

Lemma runInterval_starts_transition_witness :
  Sample.threeTracks <> [] /\
  Forall unitDraw [1 # 2; 1 # 4; 3 # 4] /\
  match runInterval Sample.Curve Sample.calculateOptimalCameraPosition
          Sample.threeTracks
          (initialCameraAnimation Sample.origin 50 (Some Sample.origin))
          Sample.clock [1 # 2; 1 # 4; 3 # 4] with
  | Returned (s', _) _ => animationState s' = TRANSITIONING
  | Starved => False
  end.
Proof.
  assert (Hne : Sample.threeTracks <> []) by discriminate.
  assert (Hdraws : Forall unitDraw [1 # 2; 1 # 4; 3 # 4])
    by (repeat constructor; vm_compute; discriminate).
  split; [exact Hne|]. split; [exact Hdraws|].
  destruct (runInterval _ _ _ _ _ _) as [[s' clock'] rest|] eqn:Hrun.
  - destruct (runInterval_starts_transition Sample.Curve
                Sample.calculateOptimalCameraPosition Sample.threeTracks
                (initialCameraAnimation Sample.origin 50
                                        (Some Sample.origin))
                Sample.clock [1 # 2; 1 # 4; 3 # 4] s' clock' rest
                Hne Hdraws eq_refl Hrun)
      as (i & track & data & _ & _ & _ & Hstate & _).
    exact Hstate.
  - vm_compute in Hrun. discriminate Hrun.
Defined.


Lemma hook_reachable_invariant_witness :
  rtc (hookStep shippedConfig Sample.Curve
         Sample.calculateOptimalCameraPosition Sample.threeTracks)
      (initialCameraAnimation Sample.origin 50 None)
      (syncRefs (initialCameraAnimation Sample.origin 50 None)) /\
  (forall i,
     featuredTrackIndex
       (syncRefs (initialCameraAnimation Sample.origin 50 None)) = Some i ->
     is_Some (Sample.threeTracks !! Z.to_nat i) /\ 0 <= i).
Proof.
  assert (Hrun :
    rtc (hookStep shippedConfig Sample.Curve
           Sample.calculateOptimalCameraPosition Sample.threeTracks)
        (initialCameraAnimation Sample.origin 50 None)
        (syncRefs (initialCameraAnimation Sample.origin 50 None)))
    by (apply rtc_once, step_quiet, quiet_effects).
  split; [exact Hrun|].
  exact (proj1 (proj2 (hook_reachable_invariant shippedConfig Sample.Curve
                         Sample.calculateOptimalCameraPosition
                         Sample.threeTracks Sample.origin 50 None _ Hrun))).
Defined.

(** ** More on the frame callback of RunnerOrbs *)

Section AnimationMore.

Variable config : Config.
Variable Math_sin : Q -> Q.
Variable Math_PI : Q.
Variable Curve : Type.
Variable getPoint : Curve -> Q -> Vector3.

Local Abbreviation routed := (TokyoRunVisualizer.routed Curve).
Local Abbreviation frame :=
  (RunnerOrbs_useFrame config Math_sin Math_PI Curve getPoint).

Implicit Types (tracks : list (ProcessedTrack Curve)) (featured : option Z).

(** The two meshes share out the tracks that have a curve. *)
Lemma routed_partition featured tracks : forall i : nat,
  (length (routed featured true i tracks)
   + length (routed featured false i tracks))%nat
  = length (omap curve tracks).
Proof.
  unfold omap.
  induction tracks as [|track rest IH]; intros i; simpl; [reflexivity|].
  specialize (IH (S i)).
  destruct (curve track); [|exact IH].
  unfold isFeatured. destruct (bool_decide _); simpl; lia.
Qed.

Lemma routed_no_featured tracks : forall i : nat,
  routed None true i tracks = [].
Proof.
  induction tracks as [|track rest IH]; intros i; simpl; [reflexivity|].
  rewrite IH. now destruct (curve track).
Qed.

(** The instance count a frame leaves in a mounted mesh. *)
Lemma frame_count (b : bool) tracks featured (self : RunnerOrbs)
    (clock : Clock) mesh :
  mounted Curve tracks self ->
  meshOf b self = Some mesh ->
  exists mesh',
    meshOf b (fst (frame tracks featured self clock)) = Some mesh' /\
    count mesh' = length (routed featured b 0 tracks).
Proof.
  intros [Hcap0 Hcap1] Hmesh. unfold RunnerOrbs_useFrame, Date_now.
  cbn [fst].
  set (p := frameProgress config _).
  destruct (updateInstances_view config Curve getPoint b p featured tracks 0
              (self, {| nonFeaturedIndex := 0; featuredIndex := 0 |})
              mesh Hmesh) as (mesh1 & Hm1 & Hc1 & _).
  { destruct b; simpl in *.
    - rewrite (Hcap1 mesh Hmesh). apply routed_featured_length.
    - rewrite (Hcap0 mesh Hmesh). apply routed_length. }
  destruct (finishFrame_view b
              (blinkIntensity Math_sin Math_PI
                 (elapsedSeconds (ticks clock (reads clock))
                                 (startTimeRef self)))
              _ mesh1 Hm1) as (mesh' & Hm' & _ & Hcount).
  exists mesh'. split; [exact Hm'|].
  rewrite Hcount, Hc1. now destruct b.
Qed.

(** X17. With both meshes mounted, a frame leaves in them instance counts
    that add up to the number of tracks that have a curve: each such
    track is drawn once. The featured mesh draws at most one orb, and
    none while no track is featured. *)
Theorem RunnerOrbs_useFrame_counts tracks featured (self : RunnerOrbs)
    (clock : Clock) normal special :
  mounted Curve tracks self ->
  nonFeaturedMeshRef self = Some normal ->
  featuredMeshRef self = Some special ->
  exists normal' special',
    nonFeaturedMeshRef (fst (frame tracks featured self clock))
    = Some normal' /\
    featuredMeshRef (fst (frame tracks featured self clock))
    = Some special' /\
    (count normal' + count special')%nat = length (omap curve tracks) /\
    (count special' <= 1)%nat /\
    (featured = None -> count special' = 0%nat).
Proof.
  intros Hmounted Hnormal Hspecial.
  destruct (frame_count false tracks featured self clock normal
              Hmounted Hnormal) as (normal' & Hn' & Hcn).
  destruct (frame_count true tracks featured self clock special
              Hmounted Hspecial) as (special' & Hs' & Hcs).
  exists normal', special'. split; [exact Hn'|]. split; [exact Hs'|].
  rewrite Hcn, Hcs. split; [|split].
  - rewrite Nat.add_comm. apply routed_partition.
  - apply routed_featured_length.
  - intros ->. now rewrite routed_no_featured.
Qed.

End AnimationMore.

Lemma RunnerOrbs_useFrame_counts_witness :
  mounted Sample.Curve Sample.threeTracks Sample.orbs /\
  exists normal' special',
    nonFeaturedMeshRef
      (fst (RunnerOrbs_useFrame shippedConfig Sample.Math_sin
              Sample.Math_PI Sample.Curve Sample.getPoint
              Sample.threeTracks (Some 1) Sample.orbs Sample.clock))
    = Some normal' /\
    featuredMeshRef
      (fst (RunnerOrbs_useFrame shippedConfig Sample.Math_sin
              Sample.Math_PI Sample.Curve Sample.getPoint
              Sample.threeTracks (Some 1) Sample.orbs Sample.clock))
    = Some special' /\
    (count normal' + count special')%nat = 3%nat.
Proof.
  assert (Hm : mounted Sample.Curve Sample.threeTracks Sample.orbs)
    by (split; intros mesh [= <-]; reflexivity).
  split; [exact Hm|].
  destruct (RunnerOrbs_useFrame_counts shippedConfig Sample.Math_sin
              Sample.Math_PI Sample.Curve Sample.getPoint
              Sample.threeTracks (Some 1) Sample.orbs Sample.clock
              _ _ Hm eq_refl eq_refl)
    as (normal' & special' & Hn & Hs & Hsum & _).
  exists normal', special'. split; [exact Hn|]. split; [exact Hs|].
  exact Hsum.
Defined.

(** ** Bounding boxes *)

Lemma Qmin_cases (a b : Q) :
  (Qmin a b = a /\ (a <= b)%Q) \/ (Qmin a b = b /\ (b <= a)%Q).
Proof.
  unfold Qmin, GenericMinMax.gmin.
  destruct (a ?= b)%Q eqn:E.
  - left. split; [reflexivity|]. apply Qeq_alt in E. lra.
  - left. split; [reflexivity|]. apply Qlt_alt in E. lra.
  - right. split; [reflexivity|]. apply Qgt_alt in E. lra.
Qed.

Lemma Qmax_cases (a b : Q) :
  (Qmax a b = a /\ (b <= a)%Q) \/ (Qmax a b = b /\ (a <= b)%Q).
Proof.
  unfold Qmax, GenericMinMax.gmax.
  destruct (a ?= b)%Q eqn:E.
  - left. split; [reflexivity|]. apply Qeq_alt in E. lra.
  - right. split; [reflexivity|]. apply Qlt_alt in E. lra.
  - left. split; [reflexivity|]. apply Qgt_alt in E. lra.
Qed.

Section BoundFacts.

Variable f : Vector3 -> Q.
Implicit Types (seen : list Vector3) (p : Vector3) (a : Num.t).

Lemma leastOf_first p : leastOf f [p] (Num.min Num.PosInf (Num.Fin (f p))).
Proof.
  exists (f p). split; [reflexivity|]. split.
  - constructor; [apply Qle_refl|constructor].
  - exists p. split; [apply list_elem_of_here|reflexivity].
Qed.

Lemma leastOf_next seen p a :
  leastOf f seen a -> leastOf f (seen ++ [p]) (Num.min a (Num.Fin (f p))).
Proof.
  intros (m & -> & Hall & q & Hq & Hfq). simpl.
  destruct (Qmin_cases m (f p)) as [[-> Hle]|[-> Hle]].
  - exists m. split; [reflexivity|]. split.
    + apply Forall_app. split; [exact Hall|]. now repeat constructor.
    + exists q. split; [apply elem_of_app; now left|exact Hfq].
  - exists (f p). split; [reflexivity|]. split.
    + apply Forall_app. split.
      * eapply Forall_impl; [exact Hall|]. intros r Hr. simpl in Hr. lra.
      * constructor; [apply Qle_refl|constructor].
    + exists p. split; [|reflexivity].
      apply elem_of_app. right. apply list_elem_of_here.
Qed.

Lemma greatestOf_first p :
  greatestOf f [p] (Num.max Num.NegInf (Num.Fin (f p))).
Proof.
  exists (f p). split; [reflexivity|]. split.
  - constructor; [apply Qle_refl|constructor].
  - exists p. split; [apply list_elem_of_here|reflexivity].
Qed.

Lemma greatestOf_next seen p a :
  greatestOf f seen a ->
  greatestOf f (seen ++ [p]) (Num.max a (Num.Fin (f p))).
Proof.
  intros (m & -> & Hall & q & Hq & Hfq). simpl.
  destruct (Qmax_cases m (f p)) as [[-> Hle]|[-> Hle]].
  - exists m. split; [reflexivity|]. split.
    + apply Forall_app. split; [exact Hall|]. now repeat constructor.
    + exists q. split; [apply elem_of_app; now left|exact Hfq].
  - exists (f p). split; [reflexivity|]. split.
    + apply Forall_app. split.
      * eapply Forall_impl; [exact Hall|]. intros r Hr. simpl in Hr. lra.
      * constructor; [apply Qle_refl|constructor].
    + exists p. split; [|reflexivity].
      apply elem_of_app. right. apply list_elem_of_here.
Qed.

End BoundFacts.

Lemma growBounds_tight (l : list Vector3) :
  forall seen bounds,
    tightBounds seen bounds ->
    tightBounds (seen ++ l) (foldl growBounds bounds l).
Proof.
  induction l as [|p l IH]; intros seen bounds Htight.
  - now rewrite app_nil_r.
  - simpl. rewrite (cons_middle p seen l), app_assoc. apply IH.
    destruct Htight as (H1 & H2 & H3 & H4 & H5 & H6).
    repeat split; simpl;
      first [now apply leastOf_next|now apply greatestOf_next].
Qed.

Lemma growBounds_first_tight (p : Vector3) (l : list Vector3) :
  tightBounds (p :: l) (foldl growBounds initialBounds (p :: l)).
Proof.
  change (p :: l) with ([p] ++ l) at 1. simpl foldl.
  apply growBounds_tight.
  repeat split; simpl;
    first [apply leastOf_first|apply greatestOf_first].
Qed.

Section BoxClaims.

Variable Curve : Type.
Implicit Types (track : ProcessedTrack Curve)
  (tracks : list (ProcessedTrack Curve)).

(** The loop over the tracks visits all their points, in order. *)
Lemma foldl_tracks_points tracks : forall bounds,
  foldl (fun bounds track => foldl growBounds bounds (points3D track))
        bounds tracks
  = foldl growBounds bounds (mbind points3D tracks).
Proof.
  induction tracks as [|track rest IH]; intros bounds; [reflexivity|].
  csimpl. rewrite foldl_app. apply IH.
Qed.

(** X20. Without any point the bounding box is not an error but a box of
    infinities: [min] is all [Infinity], [max] all [-Infinity], [size]
    all [-Infinity] and [center] all [NaN]. *)
Theorem calculateBoundingBox_no_points tracks :
  Forall (fun track => points3D track = []) tracks ->
  calculateBoundingBox Curve tracks
  = {| Box.min := {| XYZ.x := Num.PosInf; XYZ.y := Num.PosInf;
                     XYZ.z := Num.PosInf |};
       Box.max := {| XYZ.x := Num.NegInf; XYZ.y := Num.NegInf;
                     XYZ.z := Num.NegInf |};
       Box.center := {| XYZ.x := Num.NaN; XYZ.y := Num.NaN;
                        XYZ.z := Num.NaN |};
       Box.size := {| XYZ.x := Num.NegInf; XYZ.y := Num.NegInf;
                      XYZ.z := Num.NegInf |} |}.
Proof.
  intros Hempty. unfold calculateBoundingBox.
  rewrite foldl_tracks_points.
  assert (Hall : mbind points3D tracks = []).
  { induction Hempty as [|track rest Hpts _ IH]; [reflexivity|].
    csimpl. now rewrite Hpts, IH. }
  rewrite Hall. reflexivity.
Qed.

End BoxClaims.

(** ** The trail line segments *)

Section TrailClaims.

Variable config : Config.
Variable Curve : Type.
Variable getPoint : Curve -> Q -> Vector3.

Local Abbreviation divisions := (curveSubdivisions config).
Local Abbreviation trail := (Framing.createTrailGeometry config Curve getPoint).

Lemma lineSegments_length (points : list Vector3) :
  length (lineSegments points) = (6 * (length points - 1))%nat.
Proof.
  induction points as [|p [|q rest] IH]; [reflexivity..|].
  change (lineSegments (p :: q :: rest))
    with ([x p; y p; z p; x q; y q; z q] ++ lineSegments (q :: rest)).
  rewrite length_app, IH. simpl. lia.
Qed.

Lemma getPoints_length (c : Curve) (d : Z) :
  length (Framing.getPoints Curve getPoint c d) = Z.to_nat (d + 1).
Proof. unfold Framing.getPoints. now rewrite length_fmap, length_seqZ. Qed.

(** X22. When every track has a curve and [curveSubdivisions] is not
    negative, [createTrailGeometry] returns normally and its position
    array holds [curveSubdivisions] segments of six numbers for each
    track. *)
Theorem createTrailGeometry_length
    (processedTracks : list (ProcessedTrack Curve)) :
  0 <= divisions ->
  Forall (fun track => is_Some (curve track)) processedTracks ->
  exists positions,
    trail processedTracks = Js.Normal positions /\
    length positions
    = (6 * Z.to_nat divisions * length processedTracks)%nat.
Proof.
  intros Hdiv Hall.
  induction Hall as [|track rest [c Hc] _ (positions & IH & Hlen)].
  - exists []. split; [reflexivity|]. simpl. lia.
  - eexists. cbn [Framing.createTrailGeometry]. rewrite Hc, IH.
    split; [reflexivity|].
    rewrite length_app, lineSegments_length, getPoints_length, Hlen.
    cbn [length]. nia.
Qed.

(** X23. [createTrailGeometry] fails exactly when some track has no
    curve, and then with a [TypeError]; it raises no other error. *)
Theorem createTrailGeometry_throws_iff
    (processedTracks : list (ProcessedTrack Curve)) :
  (trail processedTracks = Js.Throw Js.TypeError
   <-> Exists (fun track => curve track = None) processedTracks) /\
  (forall e, trail processedTracks = Js.Throw e -> e = Js.TypeError).
Proof.
  induction processedTracks as [|track rest [IHiff IHerr]].
  - split; [|discriminate]. split; [discriminate|].
    intros H. inversion H.
  - cbn [Framing.createTrailGeometry].
    destruct (curve track) as [c|] eqn:Hc.
    + destruct (trail rest) as [positions|e] eqn:Hrest.
      * split; [|discriminate]. split; [discriminate|].
        intros H. apply Exists_cons in H as [H|H]; [congruence|].
        apply IHiff in H. discriminate H.
      * split.
        -- split.
           ++ intros H. apply Exists_cons_tl, IHiff.
              now rewrite (IHerr e eq_refl).
           ++ intros _. now rewrite (IHerr e eq_refl).
        -- intros e' [= <-]. now apply IHerr.
    + split; [|now intros e [= <-]].
      split; [|reflexivity]. intros _. now apply Exists_cons_hd.
Qed.

End TrailClaims.

Section TrailOfProcessed.

Variable config : Config.
Variable Math_cos : Q -> Q.
Variable Math_PI : Q.
Context {Point : Type} `{EqDecision Point}.
Variable lat lon ele : Point -> Q.
Variable Curve : Type.
Variable CatmullRomCurve3 : list Vector3 -> option Curve.
Variable getPoint : Curve -> Q -> Vector3.

Local Abbreviation processTrack :=
  (Utils.processTrack config Math_cos Math_PI lat lon ele Curve
                      CatmullRomCurve3).
Local Abbreviation processTracks :=
  (Utils.processTracks config Math_cos Math_PI lat lon ele Curve
                       CatmullRomCurve3).
Local Abbreviation survivors :=
  (Utils.survivors config Math_cos Math_PI lat lon ele Curve
                   CatmullRomCurve3).

Lemma processTrack_has_curve center (trackData : TrackData (Point := Point))
    (index : nat) (t : ProcessedTrack Curve) :
  processTrack center trackData index = Js.Normal (Some t) ->
  is_Some (curve t).
Proof.
  unfold Utils.processTrack.
  destruct (_ <? 2)%nat; [discriminate|].
  destruct (CatmullRomCurve3 _) as [c|]; [|discriminate].
  destruct (_ !! 0%nat); [|discriminate].
  destruct (_ !! _); [|discriminate].
  intros [= <-]. now exists c.
Qed.

Lemma survivors_have_curves center
    (tracks : list (TrackData (Point := Point))) : forall index : nat,
  Forall (fun t => is_Some (curve t)) (survivors center tracks index).
Proof.
  induction tracks as [|trackData rest IH]; intros index; simpl;
    [constructor|].
  destruct (processTrack center trackData index) as [[t|]|e] eqn:Hp;
    [|apply IH..].
  constructor; [|apply IH]. exact (processTrack_has_curve _ _ _ _ Hp).
Qed.

(** X24. Whatever [processTracks] returns can be drawn: on its result
    [createTrailGeometry] does not throw, and the position array has
    [curveSubdivisions] segments of six numbers for each processed
    track. *)
Theorem createTrailGeometry_of_processTracks
    (tracks : list (TrackData (Point := Point)))
    (processed : list (ProcessedTrack Curve)) :
  0 <= curveSubdivisions config ->
  processTracks tracks = Js.Normal processed ->
  exists positions,
    Framing.createTrailGeometry config Curve getPoint processed
    = Js.Normal positions /\
    length positions
    = (6 * Z.to_nat (curveSubdivisions config) * length processed)%nat /\
    (length positions
     <= 6 * Z.to_nat (curveSubdivisions config) * length tracks)%nat.
Proof.
  intros Hdiv Hproc.
  rewrite (processTracks_survivors config Math_cos Math_PI lat lon ele
             Curve CatmullRomCurve3 tracks) in Hproc.
  injection Hproc as <-.
  pose proof (survivors_have_curves
                (calculateCenter lat lon tracks) tracks 0) as Hall.
  pose proof (survivors_length config Math_cos Math_PI lat lon ele Curve
                CatmullRomCurve3 (calculateCenter lat lon tracks) tracks 0)
    as Hlen.
  revert Hall Hlen.
  generalize (survivors (calculateCenter lat lon tracks) tracks 0).
  intros processed Hall Hlen.
  induction Hall as [|track rest [c Hc] _ IH].
  - exists []. split; [reflexivity|]. simpl. lia.
  - destruct IH as (positions & Hrest & Hcount & _); [simpl in Hlen; lia|].
    eexists. cbn [Framing.createTrailGeometry]. rewrite Hc, Hrest.
    split; [reflexivity|].
    rewrite length_app, lineSegments_length, getPoints_length, Hcount.
    cbn [length] in *. nia.
Qed.

End TrailOfProcessed.

(** ** The station markers *)

(** X25. The station markers' own projection agrees with the tracks'
    projection at ground level exactly when the configured
    [projectionScale] is the 10000 the component has written in. *)
Theorem Stations_gpsToCartesian_agrees (config : Config)
    (Math_cos : Q -> Q) (Math_PI : Q) :
  (forall (lat lon : Q) (center : Center.t),
     Stations.gpsToCartesian Math_cos Math_PI lat lon center
     =v= Utils.gpsToCartesian config Math_cos Math_PI lat lon 0 center)
  <-> projectionScale config == 10000.
Proof.
  split.
  - intros Hagree.
    destruct (Hagree 1%Q 0%Q {| Center.lat := 0; Center.lon := 0 |})
      as (_ & _ & Hz).
    unfold Stations.gpsToCartesian, Utils.gpsToCartesian in Hz.
    cbn [x y z Center.lat Center.lon] in Hz. lra.
  - intros Hscale lat lon center.
    unfold Stations.gpsToCartesian, Utils.gpsToCartesian, Vector3_eq.
    cbn [x y z]. rewrite Hscale.
    repeat split; ring.
Qed.

(** ** Instances *)

Lemma calculateBoundingBox_no_points_witness :
  let bare : ProcessedTrack Sample.Curve :=
    {| id := 0; points3D := []; curve := None;
       originalPointCount := 0; processedPointCount := 0;
       p_metadata := p_metadata (Sample.trackAt 0 Sample.origin) |} in
  Forall (fun track => points3D track = []) [bare; bare] /\
  Box.center (calculateBoundingBox Sample.Curve [bare; bare])
  = {| XYZ.x := Num.NaN; XYZ.y := Num.NaN; XYZ.z := Num.NaN |}.
Proof.
  intros bare.
  assert (Hall : Forall (fun track => points3D track = []) [bare; bare])
    by (repeat constructor).
  split; [exact Hall|].
  now rewrite (calculateBoundingBox_no_points Sample.Curve _ Hall).
Defined.

Lemma createTrailGeometry_length_witness :
  0 <= curveSubdivisions shippedConfig /\
  Forall (fun track => is_Some (curve track)) Sample.threeTracks /\
  exists positions,
    Framing.createTrailGeometry shippedConfig Sample.Curve Sample.getPoint
                                Sample.threeTracks
    = Js.Normal positions /\
    length positions = 900%nat.
Proof.
  assert (Hdiv : 0 <= curveSubdivisions shippedConfig) by (simpl; lia).
  assert (Hall : Forall (fun track => is_Some (curve track))
                        Sample.threeTracks)
    by (repeat constructor; eexists; reflexivity).
  repeat split; [exact Hdiv|exact Hall|].
  exact (createTrailGeometry_length shippedConfig Sample.Curve
           Sample.getPoint Sample.threeTracks Hdiv Hall).
Defined.

Lemma createTrailGeometry_of_processTracks_witness :
  0 <= curveSubdivisions shippedConfig /\
  exists processed positions,
    Sample.processTracks [Sample.twoPoints; Sample.onePoint]
    = Js.Normal processed /\
    Framing.createTrailGeometry shippedConfig Sample.Curve Sample.getPoint
                                processed
    = Js.Normal positions /\
    (length positions <= 600)%nat.
Proof.
  assert (Hdiv : 0 <= curveSubdivisions shippedConfig) by (simpl; lia).
  split; [exact Hdiv|].
  pose proof (processTracks_survivors shippedConfig Sample.Math_cos
                Sample.Math_PI Sample.lat Sample.lon Sample.ele Sample.Curve
                Sample.CatmullRomCurve3 [Sample.twoPoints; Sample.onePoint])
    as Hproc.
  destruct (createTrailGeometry_of_processTracks shippedConfig
              Sample.Math_cos Sample.Math_PI Sample.lat Sample.lon
              Sample.ele Sample.Curve Sample.CatmullRomCurve3
              Sample.getPoint _ _ Hdiv Hproc)
    as (positions & Htrail & _ & Hlen).
  eexists _, positions. split; [exact Hproc|]. split; [exact Htrail|].
  exact Hlen.
Defined.

(** ** parseGPX *)

Section GpxClaims.

Variable parseFloat : string -> Num.t.
Variable trim : string -> string.

Local Abbreviation readPoint := (Gpx.readPoint parseFloat).
Local Abbreviation pointsOf := (Gpx.pointsOf parseFloat).
Local Abbreviation timestampOf := (Gpx.timestampOf trim).
Local Abbreviation parsedFrom := (Gpx.parsedFrom parseFloat trim).
Local Abbreviation parseGPX := (Gpx.parseGPX parseFloat trim).
Local Abbreviation indexOf :=
  (fun track : TrackData (Point := Gpx.Point) =>
     TrackMetadata.index (metadata track)).

Lemma parseGPX_for_parsedFrom (trkElements : list Gpx.Node) :
  forall (i : Z) tracks,
    Gpx.parseGPX_for parseFloat trim trkElements i tracks
    = tracks ++ parsedFrom trkElements i.
Proof.
  induction trkElements as [|trkElement rest IH]; intros i tracks.
  - simpl. now rewrite app_nil_r.
  - cbn [Gpx.parseGPX_for Gpx.parsedFrom]. unfold Gpx.pointsOf.
    destruct (decide (length (Gpx.getElementsByTagName trkElement "trkpt")
                      = 0%nat)) as [Hnone|Hsome].
    + apply nil_length_inv in Hnone. rewrite Hnone. simpl. apply IH.
    + destruct (omap readPoint _) as [|p ps]; simpl; [apply IH|].
      rewrite IH. now rewrite <- app_assoc.
Qed.

Lemma parseGPX_parsedFrom (xmlDoc : Gpx.Node) :
  parseGPX xmlDoc = parsedFrom (Gpx.getElementsByTagName xmlDoc "trk") 0.
Proof. unfold Gpx.parseGPX. now rewrite parseGPX_for_parsedFrom. Qed.

Lemma readPoint_usable (trkpt : Gpx.Node) (point : Gpx.Point) :
  readPoint trkpt = Some point -> Gpx.usable point.
Proof.
  unfold Gpx.readPoint, Gpx.usable.
  destruct (Num.isNaN (Gpx.parseFloatOf parseFloat
                         (Gpx.getAttribute trkpt "lat"))) eqn:Hlat;
    [discriminate|].
  destruct (Num.isNaN (Gpx.parseFloatOf parseFloat
                         (Gpx.getAttribute trkpt "lon"))) eqn:Hlon;
    [discriminate|].
  intros [= <-]. now split.
Qed.

Lemma pointsOf_usable (trkElement : Gpx.Node) :
  Forall Gpx.usable (pointsOf trkElement).
Proof.
  unfold Gpx.pointsOf. apply Forall_forall. intros point Hin.
  apply list_elem_of_omap in Hin as (trkpt & _ & Hread).
  exact (readPoint_usable _ _ Hread).
Qed.

Local Abbreviation fromElement := (Gpx.fromElement parseFloat trim).

Lemma parsedFrom_fromElement (trkElements : list Gpx.Node) : forall i : Z,
  Forall (fromElement trkElements i) (parsedFrom trkElements i).
Proof.
  induction trkElements as [|trkElement rest IH]; intros i;
    [constructor|].
  assert (Hrest : Forall (fromElement (trkElement :: rest) i)
                         (parsedFrom rest (i + 1))).
  { eapply Forall_impl; [apply IH|].
    intros track (Hle & trk & Hlook & Hpts & Htime).
    split; [lia|]. exists trk. split; [|now split].
    replace (Z.to_nat (indexOf track - i))
      with (S (Z.to_nat (indexOf track - (i + 1)))) by lia.
    exact Hlook. }
  cbn [Gpx.parsedFrom].
  destruct (pointsOf trkElement) as [|p ps] eqn:Hpts; [exact Hrest|].
  constructor; [|exact Hrest].
  split; [simpl; lia|]. exists trkElement. cbn [metadata points
    TrackMetadata.index TrackMetadata.timestamp].
  rewrite Z.sub_diag. now repeat split.
Qed.

Lemma parsedFrom_sorted (trkElements : list Gpx.Node) : forall i : Z,
  StronglySorted Z.lt (indexOf <$> parsedFrom trkElements i).
Proof.
  induction trkElements as [|trkElement rest IH]; intros i;
    [constructor|].
  cbn [Gpx.parsedFrom].
  destruct (pointsOf trkElement) as [|p ps]; [apply IH|].
  csimpl. constructor; [apply IH|].
  apply Forall_fmap, Forall_forall. intros track Hin.
  pose proof (parsedFrom_fromElement rest (i + 1)) as Hall.
  rewrite Forall_forall in Hall. destruct (Hall track Hin) as [Hle _].
  simpl. lia.
Qed.

Lemma sorted_lookup_ge (l : list Z) : forall (base : Z) (k : nat) (v : Z),
  StronglySorted Z.lt l -> Forall (Z.le base) l ->
  l !! k = Some v -> base + Z.of_nat k <= v.
Proof.
  induction l as [|a l IH]; intros base k v Hsorted Hbase Hlook;
    [discriminate|].
  apply StronglySorted_inv in Hsorted as [Hsorted Hlt].
  apply Forall_cons in Hbase as [Ha Hbase].
  destruct k as [|k]; simpl in Hlook.
  - injection Hlook as <-. lia.
  - assert (H1 : (base + 1) + Z.of_nat k <= v).
    { apply (IH (base + 1) k v Hsorted); [|exact Hlook].
      eapply Forall_impl; [exact Hlt|]. simpl. intros; lia. }
    lia.
Qed.

(** X26. [parseGPX] returns no track without points and no point whose
    latitude or longitude is [NaN]; a point without an [<ele>] element
    has elevation 0. *)
Theorem parseGPX_points_usable (xmlDoc : Gpx.Node)
    (track : TrackData (Point := Gpx.Point)) :
  track ∈ parseGPX xmlDoc ->
  points track <> [] /\
  Forall Gpx.usable (points track) /\
  (forall trkpt point,
     readPoint trkpt = Some point ->
     Gpx.getElementsByTagName trkpt "ele" = [] ->
     Gpx.ele point = Num.Fin 0).
Proof.
  rewrite parseGPX_parsedFrom. intros Hin.
  set (trkElements := Gpx.getElementsByTagName xmlDoc "trk") in Hin.
  split; [|split].
  - revert Hin. generalize 0. intros i Hin. revert i Hin.
    induction trkElements as [|trkElement rest IH]; intros i Hin;
      [inversion Hin|].
    cbn [Gpx.parsedFrom] in Hin.
    destruct (pointsOf trkElement) as [|p ps]; [exact (IH _ Hin)|].
    apply elem_of_cons in Hin as [->|Hin]; [discriminate|exact (IH _ Hin)].
  - pose proof (parsedFrom_fromElement trkElements 0) as Hall.
    rewrite Forall_forall in Hall.
    destruct (Hall track Hin) as (_ & trkElement & _ & -> & _).
    apply pointsOf_usable.
  - intros trkpt point Hread Hele. unfold Gpx.readPoint in Hread.
    rewrite Hele in Hread.
    destruct (_ && _); [|discriminate].
    now injection Hread as <-.
Qed.

(** X27. The [index] a parsed track carries is the position of its
    [<trk>] element among the document's [<trk>] elements, whose points
    and [<time>] text the track holds; the indices increase strictly along
    the result, so the track at position [k] has an index of at least [k]
    and there are no more tracks than [<trk>] elements. *)
Theorem parseGPX_index_is_document_position (xmlDoc : Gpx.Node) :
  let trkElements := Gpx.getElementsByTagName xmlDoc "trk" in
  StronglySorted Z.lt (indexOf <$> parseGPX xmlDoc) /\
  (length (parseGPX xmlDoc) <= length trkElements)%nat /\
  forall (k : nat) track,
    parseGPX xmlDoc !! k = Some track ->
    Z.of_nat k <= indexOf track < Z.of_nat (length trkElements) /\
    exists trkElement,
      trkElements !! Z.to_nat (indexOf track) = Some trkElement /\
      points track = pointsOf trkElement /\
      TrackMetadata.timestamp (metadata track) = timestampOf trkElement.
Proof.
  intros trkElements. rewrite parseGPX_parsedFrom. fold trkElements.
  pose proof (parsedFrom_fromElement trkElements 0) as Hall.
  pose proof (parsedFrom_sorted trkElements 0) as Hsorted.
  assert (Hlookup : forall (k : nat) track,
             parsedFrom trkElements 0 !! k = Some track ->
             Z.of_nat k <= indexOf track < Z.of_nat (length trkElements) /\
             exists trkElement,
               trkElements !! Z.to_nat (indexOf track) = Some trkElement /\
               points track = pointsOf trkElement /\
               TrackMetadata.timestamp (metadata track)
               = timestampOf trkElement).
  { intros k track Hk.
    rewrite Forall_forall in Hall.
    destruct (Hall track (list_elem_of_lookup_2 _ _ _ Hk))
      as (Hle & trkElement & Hlook & Hrest).
    rewrite Z.sub_0_r in Hlook.
    split; [|now exists trkElement].
    split.
    - apply (sorted_lookup_ge (indexOf <$> parsedFrom trkElements 0) 0 k);
        [exact Hsorted| |now rewrite list_lookup_fmap, Hk].
      apply Forall_fmap, Forall_forall. intros t Ht.
      exact (proj1 (Hall t Ht)).
    - apply lookup_lt_Some in Hlook. lia. }
  split; [exact Hsorted|]. split; [|exact Hlookup].
  destruct (parsedFrom trkElements 0) as [|t ts] eqn:Hparsed using rev_ind;
    [simpl; lia|].
  clear IHts.
  destruct (Hlookup (length ts) t) as [[Hlo Hhi] _].
  { rewrite lookup_app_r by lia. now rewrite Nat.sub_diag. }
  rewrite length_app. simpl. lia.
Qed.

(** X28. When every [<trk>] element has a point with a readable latitude
    and longitude, no track is dropped: the result has one track for each
    element and each track's [index] is its position in the result, the
    number [processTracks] would give it as [id]. *)
Theorem parseGPX_keeps_every_track (xmlDoc : Gpx.Node) :
  Forall (fun trkElement => pointsOf trkElement <> [])
         (Gpx.getElementsByTagName xmlDoc "trk") ->
  indexOf <$> parseGPX xmlDoc
  = seqZ 0 (Z.of_nat (length (Gpx.getElementsByTagName xmlDoc "trk"))) /\
  forall (k : nat) track,
    parseGPX xmlDoc !! k = Some track -> indexOf track = Z.of_nat k.
Proof.
  intros Hall. rewrite parseGPX_parsedFrom.
  assert (Hseq : forall trkElements (i : Z),
             Forall (fun trkElement => pointsOf trkElement <> [])
                    trkElements ->
             indexOf <$> parsedFrom trkElements i
             = seqZ i (Z.of_nat (length trkElements))).
  { clear. intros trkElements.
    induction trkElements as [|trkElement rest IH]; intros i Hall;
      [reflexivity|].
    apply Forall_cons in Hall as [Hpts Hall].
    cbn [Gpx.parsedFrom].
    destruct (pointsOf trkElement) as [|p ps]; [contradiction|].
    csimpl. rewrite (IH (i + 1) Hall).
    replace (Z.of_nat (S (length rest)))
      with (Z.succ (Z.of_nat (length rest))) by lia.
    rewrite (seqZ_cons i (Z.succ (Z.of_nat (length rest)))) by lia.
    now replace (Z.succ i) with (i + 1) by lia;
      replace (Z.pred (Z.succ (Z.of_nat (length rest))))
        with (Z.of_nat (length rest)) by lia. }
  split; [exact (Hseq _ 0 Hall)|].
  intros k track Hk.
  assert (Hidx : (indexOf <$> parsedFrom (Gpx.getElementsByTagName xmlDoc
                                                                  "trk") 0)
                 !! k = Some (indexOf track))
    by now rewrite list_lookup_fmap, Hk.
  rewrite (Hseq _ 0 Hall) in Hidx.
  apply lookup_seqZ in Hidx as [-> _]. lia.
Qed.

End GpxClaims.

Lemma parseGPX_points_usable_witness :
  exists track,
    track ∈ Gpx.parseGPX GpxSample.parseFloat GpxSample.trim
                         GpxSample.document /\
    points track <> [] /\
    Forall Gpx.usable (points track).
Proof.
  destruct (Gpx.parseGPX GpxSample.parseFloat GpxSample.trim
                         GpxSample.document) as [|track rest] eqn:Hparsed;
    [vm_compute in Hparsed; discriminate Hparsed|].
  exists track.
  assert (Hin : track ∈ Gpx.parseGPX GpxSample.parseFloat GpxSample.trim
                                     GpxSample.document)
    by (rewrite Hparsed; apply list_elem_of_here).
  rewrite Hparsed in Hin at 1.
  split; [exact Hin|].
  rewrite <- Hparsed in Hin.
  destruct (parseGPX_points_usable GpxSample.parseFloat GpxSample.trim
              GpxSample.document track Hin) as (Hne & Husable & _).
  split; assumption.
Defined.

Lemma parseGPX_index_is_document_position_witness :
  exists track,
    Gpx.parseGPX GpxSample.parseFloat GpxSample.trim GpxSample.document
    !! 1%nat = Some track /\
    1 <= TrackMetadata.index (metadata track) < 3.
Proof.
  destruct (Gpx.parseGPX GpxSample.parseFloat GpxSample.trim
                         GpxSample.document !! 1%nat) as [track|] eqn:Hk;
    [|vm_compute in Hk; discriminate Hk].
  exists track. split; [reflexivity|].
  destruct (parseGPX_index_is_document_position GpxSample.parseFloat
              GpxSample.trim GpxSample.document) as (_ & _ & Hlookup).
  exact (proj1 (Hlookup 1%nat track Hk)).
Defined.

Lemma parseGPX_keeps_every_track_witness :
  Forall (fun trkElement =>
            Gpx.pointsOf GpxSample.parseFloat trkElement <> [])
         (Gpx.getElementsByTagName GpxSample.fullDocument "trk") /\
  (fun track : TrackData (Point := Gpx.Point) =>
     TrackMetadata.index (metadata track))
    <$> Gpx.parseGPX GpxSample.parseFloat GpxSample.trim
                     GpxSample.fullDocument
  = [0; 1].
Proof.
  assert (Hall : Forall (fun trkElement =>
                           Gpx.pointsOf GpxSample.parseFloat trkElement
                           <> [])
                        (Gpx.getElementsByTagName GpxSample.fullDocument
                                                  "trk"))
    by (repeat constructor; discriminate).
  split; [exact Hall|].
  exact (proj1 (parseGPX_keeps_every_track GpxSample.parseFloat
                  GpxSample.trim GpxSample.fullDocument Hall)).
Defined.



(** ** Rounding to double precision *)

Section Rounding.

Local Open Scope Q_scope.

Lemma pow2_pos (e : Z) : 0 < F64.pow2 e.
Proof. apply Qpower_0_lt. reflexivity. Qed.

Lemma pow2_add (a b : Z) : F64.pow2 (a + b) == F64.pow2 a * F64.pow2 b.
Proof. apply Qpower_plus. discriminate. Qed.

Lemma pow2_le (a b : Z) : (a <= b)%Z -> F64.pow2 a <= F64.pow2 b.
Proof. intros H. apply Qpower_le_compat_l; [exact H|discriminate]. Qed.

Lemma pow2_lt_inv (a b : Z) : F64.pow2 a < F64.pow2 b -> (a < b)%Z.
Proof. intros H. apply (Qpower_lt_compat_l_inv 2); [exact H|reflexivity]. Qed.

Lemma pow2_inject (n : Z) : (0 <= n)%Z -> F64.pow2 n == inject_Z (2 ^ n).
Proof. intros H. unfold F64.pow2. now rewrite Zpower_Qpower. Qed.

(** [q / 2^e] scaled back is [q]. *)
Lemma pow2_scale (q : Q) (e : Z) : q / F64.pow2 e * F64.pow2 e == q.
Proof.
  field. intros H. pose proof (pow2_pos e) as Hp. rewrite H in Hp.
  discriminate Hp.
Qed.

Lemma div_pow2_le (p q : Q) (e : Z) :
  p <= q -> p / F64.pow2 e <= q / F64.pow2 e.
Proof.
  intros H. apply Qmult_le_compat_r; [exact H|].
  apply Qlt_le_weak, Qinv_lt_0_compat, pow2_pos.
Qed.

(** An integer above [q] is above its rounding, and likewise below. *)
Lemma nearestEven_le_int (q : Q) (n : Z) :
  q <= inject_Z n -> (F64.nearestEven q <= n)%Z.
Proof.
  intros Hq. unfold F64.nearestEven.
  pose proof (Qfloor_le q) as Hlo.
  assert (Hfn : (Qfloor q <= n)%Z).
  { rewrite <- (Qfloor_Z n). now apply Qfloor_resp_le. }
  destruct (Z.eq_dec (Qfloor q) n) as [Heq|Hne].
  - assert (Hzero : q - inject_Z (Qfloor q) == 0).
    { rewrite Heq in *. lra. }
    rewrite Hzero. simpl. exact Hfn.
  - destruct (Qcompare _ _); [destruct (Z.even _)| |]; lia.
Qed.

Lemma nearestEven_ge_int (q : Q) (n : Z) :
  inject_Z n <= q -> (n <= F64.nearestEven q)%Z.
Proof.
  intros Hq. unfold F64.nearestEven.
  assert (Hfn : (n <= Qfloor q)%Z).
  { rewrite <- (Qfloor_Z n). now apply Qfloor_resp_le. }
  destruct (Qcompare _ _); [destruct (Z.even _)| |]; lia.
Qed.

Lemma nearestEven_int (n : Z) : F64.nearestEven (inject_Z n) = n.
Proof.
  apply Z.le_antisymm.
  - apply nearestEven_le_int. apply Qle_refl.
  - apply nearestEven_ge_int. apply Qle_refl.
Qed.

Lemma nearestEven_mono (p q : Q) :
  p <= q -> (F64.nearestEven p <= F64.nearestEven q)%Z.
Proof.
  intros Hpq.
  pose proof (Qfloor_resp_le _ _ Hpq) as Hfloor.
  destruct (Z.eq_dec (Qfloor p) (Qfloor q)) as [Heq|Hne].
  - unfold F64.nearestEven. rewrite Heq.
    assert (Hd : p - inject_Z (Qfloor q) <= q - inject_Z (Qfloor q)) by lra.
    destruct (Qcompare (p - inject_Z (Qfloor q)) (1 # 2)) eqn:Ep;
      destruct (Qcompare (q - inject_Z (Qfloor q)) (1 # 2)) eqn:Eq;
      repeat match goal with
             | H : Qcompare _ _ = Datatypes.Eq |- _ => apply Qeq_alt in H
             | H : Qcompare _ _ = Lt |- _ => rewrite <- Qlt_alt in H
             | H : Qcompare _ _ = Gt |- _ => rewrite <- Qgt_alt in H
             end;
      try (destruct (Z.even (Qfloor q))); try lia; exfalso; lra.
  - apply Z.le_trans with (Qfloor q).
    + apply nearestEven_le_int.
      apply Qle_trans with (inject_Z (Qfloor p + 1)).
      * apply Qlt_le_weak, Qlt_floor.
      * rewrite <- Zle_Qle. lia.
    + apply nearestEven_ge_int, Qfloor_le.
Qed.

End Rounding.

Section Exponent.

Local Open Scope Q_scope.

Lemma pow2_quotient (a b : Z) :
  (0 <= a)%Z -> (0 <= b)%Z ->
  F64.pow2 (a - b) == inject_Z (2 ^ a) / inject_Z (2 ^ b).
Proof.
  intros Ha Hb. unfold Z.sub. rewrite pow2_add.
  rewrite <- !pow2_inject by assumption.
  unfold F64.pow2 at 2. rewrite Qpower_opp. reflexivity.
Qed.

(** [ilog2 q] is the exponent of the leading bit of [q]. *)
Lemma ilog2_spec (q : Q) :
  0 < q ->
  F64.pow2 (F64.ilog2 q) <= q /\ q < F64.pow2 (F64.ilog2 q + 1).
Proof.
  intros Hq. destruct q as [n d].
  assert (Hn : (0 < n)%Z).
  { unfold Qlt in Hq. simpl in Hq. lia. }
  pose proof (Z.log2_spec n Hn) as [HnA HnB].
  pose proof (Z.log2_spec (Z.pos d) ltac:(lia)) as [HdA HdB].
  pose proof (Z.log2_nonneg n) as Ha.
  pose proof (Z.log2_nonneg (Z.pos d)) as Hb.
  set (a := Z.log2 n) in *. set (b := Z.log2 (Z.pos d)) in *.
  assert (HA : (0 < 2 ^ a)%Z) by (apply Z.pow_pos_nonneg; lia).
  assert (HB : (0 < 2 ^ b)%Z) by (apply Z.pow_pos_nonneg; lia).
  rewrite Z.pow_succ_r in HnB, HdB by assumption.
  assert (HqB : inject_Z (2 ^ b) > 0) by (rewrite <- (Zlt_Qlt 0); exact HB).
  assert (Hqd : inject_Z (Z.pos d) > 0) by reflexivity.
  assert (Hup : n # d < F64.pow2 (a - b + 1)).
  { replace (a - b + 1)%Z with ((a + 1) - b)%Z by lia.
    rewrite pow2_quotient by lia. rewrite Qmake_Qdiv.
    apply Qlt_shift_div_l; [exact HqB|].
    unfold Qdiv. rewrite <- Qmult_assoc, (Qmult_comm (/ _)), Qmult_assoc.
    apply Qlt_shift_div_r; [exact Hqd|].
    rewrite <- !inject_Z_mult, <- Zlt_Qlt.
    rewrite Z.pow_add_r, Z.pow_1_r by lia. nia. }
  assert (Hlow : F64.pow2 (a - b - 1) <= n # d).
  { replace (a - b - 1)%Z with (a - (b + 1))%Z by lia.
    rewrite pow2_quotient by lia. rewrite Qmake_Qdiv.
    apply Qle_shift_div_l; [exact Hqd|].
    unfold Qdiv. rewrite <- Qmult_assoc, (Qmult_comm (/ _)), Qmult_assoc.
    apply Qle_shift_div_r.
    - rewrite <- (Zlt_Qlt 0). apply Z.pow_pos_nonneg; lia.
    - rewrite <- !inject_Z_mult, <- Zle_Qle.
      rewrite Z.pow_add_r, Z.pow_1_r by lia. nia. }
  unfold F64.ilog2. cbn [Qnum Qden]. fold a b.
  destruct (Qle_bool (F64.pow2 (a - b)) (n # d)) eqn:E.
  - apply Qle_bool_iff in E. split; assumption.
  - assert (Hlt : n # d < F64.pow2 (a - b)).
    { apply Qnot_le_lt. intros H. apply Qle_bool_iff in H. congruence. }
    replace (a - b - 1 + 1)%Z with (a - b)%Z by lia.
    split; assumption.
Qed.

Lemma ilog2_mono (p q : Q) :
  0 < p -> p <= q -> (F64.ilog2 p <= F64.ilog2 q)%Z.
Proof.
  intros Hp Hpq.
  destruct (ilog2_spec p Hp) as [Hlo _].
  destruct (ilog2_spec q ltac:(lra)) as [_ Hhi].
  assert (H : F64.pow2 (F64.ilog2 p) < F64.pow2 (F64.ilog2 q + 1)) by lra.
  apply pow2_lt_inv in H. lia.
Qed.

(** The exponent found between two powers of two. *)
Lemma ilog2_unique (q : Q) (e : Z) :
  F64.pow2 e <= q -> q < F64.pow2 (e + 1) -> F64.ilog2 q = e.
Proof.
  intros Hlo Hhi.
  assert (Hq : 0 < q) by (pose proof (pow2_pos e); lra).
  destruct (ilog2_spec q Hq) as [Hlo' Hhi'].
  assert (H1 : F64.pow2 e < F64.pow2 (F64.ilog2 q + 1)) by lra.
  assert (H2 : F64.pow2 (F64.ilog2 q) < F64.pow2 (e + 1)) by lra.
  apply pow2_lt_inv in H1, H2. lia.
Qed.

End Exponent.

Section RoundQ.

Local Open Scope Q_scope.

(** A multiple of the spacing below [q] stays below the rounded [q], and
    one above stays above. *)
Lemma scaled_ge_int (q : Q) (e n : Z) :
  inject_Z n * F64.pow2 e <= q ->
  inject_Z n * F64.pow2 e
  <= inject_Z (F64.nearestEven (q / F64.pow2 e)) * F64.pow2 e.
Proof.
  intros H. apply Qmult_le_compat_r; [|apply Qlt_le_weak, pow2_pos].
  rewrite <- Zle_Qle. apply nearestEven_ge_int.
  apply Qle_shift_div_l; [apply pow2_pos|exact H].
Qed.

Lemma scaled_le_int (q : Q) (e n : Z) :
  q <= inject_Z n * F64.pow2 e ->
  inject_Z (F64.nearestEven (q / F64.pow2 e)) * F64.pow2 e
  <= inject_Z n * F64.pow2 e.
Proof.
  intros H. apply Qmult_le_compat_r; [|apply Qlt_le_weak, pow2_pos].
  rewrite <- Zle_Qle. apply nearestEven_le_int.
  apply Qle_shift_div_r; [apply pow2_pos|exact H].
Qed.

Lemma pow2_split (k e : Z) :
  (0 <= k)%Z -> inject_Z (2 ^ k) * F64.pow2 e == F64.pow2 (k + e).
Proof. intros Hk. rewrite pow2_add, (pow2_inject k Hk). reflexivity. Qed.

Lemma roundQ_zero (q : Q) : q == 0 -> F64.roundQ q = 0.
Proof.
  intros H. unfold F64.roundQ.
  destruct (Qeq_bool q 0) eqn:E; [reflexivity|].
  apply Qeq_bool_neq in E. contradiction.
Qed.

Lemma roundQ_nonzero (q : Q) :
  ~ q == 0 ->
  F64.roundQ q
  = inject_Z (F64.nearestEven (q / F64.pow2 (F64.ulpExp q)))
    * F64.pow2 (F64.ulpExp q).
Proof.
  intros H. unfold F64.roundQ.
  destruct (Qeq_bool q 0) eqn:E; [|reflexivity].
  apply Qeq_bool_iff in E. contradiction.
Qed.

Lemma roundQ_nonneg (q : Q) : 0 <= q -> 0 <= F64.roundQ q.
Proof.
  intros Hq. unfold F64.roundQ. destruct (Qeq_bool q 0); [apply Qle_refl|].
  apply Qle_trans with (inject_Z 0 * F64.pow2 (F64.ulpExp q));
    [|apply scaled_ge_int];
    change (inject_Z 0) with 0; rewrite Qmult_0_l; [apply Qle_refl|exact Hq].
Qed.

Lemma roundQ_nonpos (q : Q) : q <= 0 -> F64.roundQ q <= 0.
Proof.
  intros Hq. unfold F64.roundQ. destruct (Qeq_bool q 0); [apply Qle_refl|].
  apply Qle_trans with (inject_Z 0 * F64.pow2 (F64.ulpExp q));
    [apply scaled_le_int|];
    change (inject_Z 0) with 0; rewrite Qmult_0_l; [exact Hq|apply Qle_refl].
Qed.

Lemma Qabs_pos_nonzero (p : Q) : ~ p == 0 -> 0 < Qabs p.
Proof.
  intros Hp. destruct (Qlt_le_dec 0 (Qabs p)) as [H|H]; [exact H|].
  exfalso. apply Hp.
  pose proof (Qle_Qabs p) as H1. pose proof (Qle_Qabs (- p)) as H2.
  rewrite Qabs_opp in H2. lra.
Qed.

Lemma ulpExp_mono (p q : Q) :
  ~ p == 0 -> Qabs p <= Qabs q -> (F64.ulpExp p <= F64.ulpExp q)%Z.
Proof.
  intros Hp Hpq. unfold F64.ulpExp.
  assert (H0 : 0 < Qabs p) by now apply Qabs_pos_nonzero.
  pose proof (ilog2_mono _ _ H0 Hpq). lia.
Qed.

End RoundQ.

Section RoundMonotone.

Local Open Scope Q_scope.

Lemma ulpExp_pos (q : Q) :
  0 < q -> F64.ulpExp q = Z.max (F64.ilog2 q - 52) (-1074).
Proof.
  intros Hq. unfold F64.ulpExp. destruct q as [n d].
  unfold Qlt in Hq. simpl in Hq.
  destruct n as [|n|n]; try lia. reflexivity.
Qed.

Lemma roundQ_mono_pos (p q : Q) :
  0 < p -> p <= q -> F64.roundQ p <= F64.roundQ q.
Proof.
  intros Hp Hpq.
  assert (Hq : 0 < q) by lra.
  rewrite !roundQ_nonzero by lra.
  pose proof (ulpExp_pos p Hp) as Ep. pose proof (ulpExp_pos q Hq) as Eq.
  pose proof (ilog2_mono p q Hp Hpq) as Hlog.
  destruct (Z.eq_dec (F64.ulpExp p) (F64.ulpExp q)) as [Heq|Hne].
  - rewrite Heq.
    apply Qmult_le_compat_r; [|apply Qlt_le_weak, pow2_pos].
    rewrite <- Zle_Qle. apply nearestEven_mono. now apply div_pow2_le.
  - destruct (ilog2_spec p Hp) as [_ Hphi].
    destruct (ilog2_spec q Hq) as [Hqlo _].
    set (E := F64.ilog2 q) in *.
    assert (Hqe : F64.ulpExp q = (E - 52)%Z) by lia.
    assert (Hlt : (F64.ilog2 p + 1 <= E)%Z) by lia.
    apply Qle_trans with (F64.pow2 E).
    + set (k := (E - F64.ulpExp p)%Z).
      assert (Hk : (0 <= k)%Z) by (unfold k; lia).
      replace E with (k + F64.ulpExp p)%Z at 1 by (unfold k; lia).
      rewrite <- (pow2_split k _ Hk).
      apply scaled_le_int. rewrite (pow2_split k _ Hk).
      replace (k + F64.ulpExp p)%Z with E by (unfold k; lia).
      pose proof (pow2_le _ _ Hlt). lra.
    + rewrite Hqe.
      replace E with (52 + (E - 52))%Z at 1 by lia.
      rewrite <- (pow2_split 52 _ ltac:(lia)).
      apply scaled_ge_int. rewrite (pow2_split 52 _ ltac:(lia)).
      now replace (52 + (E - 52))%Z with E by lia.
Qed.

Lemma ulpExp_neg (q : Q) :
  q < 0 -> F64.ulpExp q = Z.max (F64.ilog2 (- q) - 52) (-1074).
Proof.
  intros Hq. unfold F64.ulpExp. destruct q as [n d].
  unfold Qlt in Hq. simpl in Hq.
  destruct n as [|n|n]; try lia. reflexivity.
Qed.

Lemma roundQ_mono_neg (p q : Q) :
  q < 0 -> p <= q -> F64.roundQ p <= F64.roundQ q.
Proof.
  intros Hq Hpq.
  assert (Hp : p < 0) by lra.
  rewrite !roundQ_nonzero by lra.
  pose proof (ulpExp_neg p Hp) as Ep. pose proof (ulpExp_neg q Hq) as Eq.
  pose proof (ilog2_mono (- q) (- p) ltac:(lra) ltac:(lra)) as Hlog.
  destruct (Z.eq_dec (F64.ulpExp p) (F64.ulpExp q)) as [Heq|Hne].
  - rewrite Heq.
    apply Qmult_le_compat_r; [|apply Qlt_le_weak, pow2_pos].
    rewrite <- Zle_Qle. apply nearestEven_mono. now apply div_pow2_le.
  - destruct (ilog2_spec (- q) ltac:(lra)) as [_ Hqhi].
    destruct (ilog2_spec (- p) ltac:(lra)) as [Hplo _].
    set (E := F64.ilog2 (- p)) in *.
    assert (Hpe : F64.ulpExp p = (E - 52)%Z) by lia.
    assert (Hlt : (F64.ilog2 (- q) + 1 <= E)%Z) by lia.
    apply Qle_trans with (- F64.pow2 E).
    + rewrite Hpe.
      assert (Hs : - F64.pow2 E
                   == inject_Z (- 2 ^ 52) * F64.pow2 (E - 52)).
      { rewrite inject_Z_opp.
        transitivity (- (inject_Z (2 ^ 52) * F64.pow2 (E - 52))); [|ring].
        rewrite (pow2_split 52 _ ltac:(lia)).
        now replace (52 + (E - 52))%Z with E by lia. }
      rewrite Hs. apply scaled_le_int. rewrite <- Hs. lra.
    + set (k := (E - F64.ulpExp q)%Z).
      assert (Hk : (0 <= k)%Z) by (unfold k; lia).
      assert (Hs : - F64.pow2 E
                   == inject_Z (- 2 ^ k) * F64.pow2 (F64.ulpExp q)).
      { rewrite inject_Z_opp.
        transitivity (- (inject_Z (2 ^ k) * F64.pow2 (F64.ulpExp q)));
          [|ring].
        rewrite (pow2_split k _ Hk).
        now replace (k + F64.ulpExp q)%Z with E by (unfold k; lia). }
      rewrite Hs. apply scaled_ge_int. rewrite <- Hs.
      pose proof (pow2_le _ _ Hlt). lra.
Qed.

(** Rounding is monotone. *)
Lemma roundQ_mono (p q : Q) : p <= q -> F64.roundQ p <= F64.roundQ q.
Proof.
  intros Hpq.
  destruct (Qlt_le_dec 0 p) as [Hp|Hp].
  - now apply roundQ_mono_pos.
  - destruct (Qlt_le_dec q 0) as [Hq|Hq].
    + now apply roundQ_mono_neg.
    + apply Qle_trans with 0;
        [now apply roundQ_nonpos|now apply roundQ_nonneg].
Qed.

(** Equal numbers round to equal numbers. *)
Lemma roundQ_comp (p q : Q) : p == q -> F64.roundQ p == F64.roundQ q.
Proof.
  intros H. apply Qle_antisym; apply roundQ_mono; rewrite H; apply Qle_refl.
Qed.

#[global] Instance roundQ_proper : Proper (Qeq ==> Qeq) F64.roundQ.
Proof. intros p q H. now apply roundQ_comp. Qed.

(** A multiple of the spacing at [q] is not moved by rounding. *)
Lemma roundQ_exact (q : Q) (m : Z) :
  q == inject_Z m * F64.pow2 (F64.ulpExp q) -> F64.roundQ q == q.
Proof.
  intros H. unfold F64.roundQ.
  destruct (Qeq_bool q 0) eqn:E; [apply Qeq_bool_iff in E; now rewrite E|].
  assert (Hm : q / F64.pow2 (F64.ulpExp q) == inject_Z m).
  { rewrite H at 1. field. intros Hz.
    pose proof (pow2_pos (F64.ulpExp q)) as Hp. rewrite Hz in Hp.
    discriminate Hp. }
  assert (Hn : F64.nearestEven (q / F64.pow2 (F64.ulpExp q)) = m).
  { apply Z.le_antisymm.
    - apply nearestEven_le_int. rewrite Hm. apply Qle_refl.
    - apply nearestEven_ge_int. rewrite Hm. apply Qle_refl. }
  rewrite Hn. now rewrite <- H.
Qed.

(** Numbers with a significand of at most 53 bits and an exponent in
    range are doubles. *)
Lemma roundQ_dyadic (m j : Z) :
  (Z.abs m < 2 ^ 53)%Z -> (-1074 <= j)%Z ->
  F64.roundQ (inject_Z m * F64.pow2 j) == inject_Z m * F64.pow2 j.
Proof.
  intros Hm Hj.
  destruct (Z.eq_dec m 0%Z) as [->|Hnz].
  { rewrite roundQ_zero; [|change (inject_Z 0) with 0]; ring. }
  set (q := inject_Z m * F64.pow2 j).
  assert (Habs : Qabs q == inject_Z (Z.abs m) * F64.pow2 j).
  { unfold q. rewrite Qabs_Qmult.
    rewrite (Qabs_pos (F64.pow2 j)) by apply Qlt_le_weak, pow2_pos.
    reflexivity. }
  assert (Hpos : 0 < Qabs q).
  { rewrite Habs. apply Qmult_lt_0_compat; [|apply pow2_pos].
    rewrite <- (Zlt_Qlt 0). lia. }
  destruct (ilog2_spec _ Hpos) as [Hlo _].
  assert (Hlog : (F64.ilog2 (Qabs q) <= 52 + j)%Z).
  { assert (H : F64.pow2 (F64.ilog2 (Qabs q)) < F64.pow2 (53 + j)).
    { apply Qle_lt_trans with (Qabs q); [exact Hlo|].
      rewrite Habs, <- (pow2_split 53 j) by lia.
      apply Qmult_lt_compat_r; [apply pow2_pos|].
      rewrite <- Zlt_Qlt. exact Hm. }
    apply pow2_lt_inv in H. lia. }
  set (e := F64.ulpExp q).
  assert (He : (-1074 <= e <= j)%Z) by (unfold e, F64.ulpExp; lia).
  apply (roundQ_exact _ (m * 2 ^ (j - e))%Z). fold e. unfold q.
  rewrite inject_Z_mult, <- Qmult_assoc.
  rewrite (pow2_split (j - e) e) by lia.
  now replace (j - e + e)%Z with j by lia.
Qed.

(** Integers below [2^53] in size are doubles. *)
Lemma roundQ_integer (z : Z) :
  (Z.abs z < 2 ^ 53)%Z -> F64.roundQ (inject_Z z) == inject_Z z.
Proof.
  intros Hz. pose proof (roundQ_dyadic z 0 Hz ltac:(lia)) as H.
  change (F64.pow2 0) with 1 in H. now rewrite Qmult_1_r in H.
Qed.

(** The significand rounding yields has at most 53 bits, or is [2^53]. *)
Lemma significand_bound (q : Q) :
  ~ q == 0 ->
  (Z.abs (F64.nearestEven (q / F64.pow2 (F64.ulpExp q))) <= 2 ^ 53)%Z.
Proof.
  intros Hq.
  pose proof (Qabs_pos_nonzero q Hq) as Hpos.
  destruct (ilog2_spec _ Hpos) as [_ Hhi].
  set (e := F64.ulpExp q).
  assert (He : (F64.ilog2 (Qabs q) + 1 <= 53 + e)%Z)
    by (unfold e, F64.ulpExp; lia).
  assert (Hbound : Qabs q <= inject_Z (2 ^ 53) * F64.pow2 e).
  { rewrite (pow2_split 53 e) by lia.
    pose proof (pow2_le _ _ He). lra. }
  pose proof (Qle_Qabs q) as H1. pose proof (Qle_Qabs (- q)) as H2.
  rewrite Qabs_opp in H2.
  apply Z.abs_le. split.
  - apply nearestEven_ge_int.
    apply Qle_shift_div_l; [apply pow2_pos|].
    rewrite inject_Z_opp. lra.
  - apply nearestEven_le_int.
    apply Qle_shift_div_r; [apply pow2_pos|]. lra.
Qed.

(** Rounding a double gives it back. *)
Lemma roundQ_idem (q : Q) : F64.roundQ (F64.roundQ q) == F64.roundQ q.
Proof.
  destruct (Qeq_dec q 0) as [Hz|Hnz].
  { rewrite (roundQ_zero q Hz). reflexivity. }
  rewrite (roundQ_nonzero q Hnz).
  pose proof (significand_bound q Hnz) as Hm.
  set (m := F64.nearestEven (q / F64.pow2 (F64.ulpExp q))) in *.
  set (e := F64.ulpExp q).
  assert (He : (-1074 <= e)%Z) by (unfold e, F64.ulpExp; lia).
  destruct (Z.eq_dec (Z.abs m) (2 ^ 53)%Z) as [Hmax|Hsmall].
  - assert (Hs : inject_Z m * F64.pow2 e
                 == inject_Z (m / 2) * F64.pow2 (e + 1)).
    { assert (Hm2 : m = (2 * (m / 2))%Z).
      { destruct (Z.abs_spec m) as [[_ Ha]|[_ Ha]]; rewrite Ha in Hmax.
        - rewrite Hmax. reflexivity.
        - assert (Hmm : m = (- 2 ^ 53)%Z) by lia. rewrite Hmm.
          reflexivity. }
      rewrite Hm2 at 1. rewrite inject_Z_mult, (Z.add_comm e 1), pow2_add.
      change (F64.pow2 1) with 2. change (inject_Z 2) with 2. ring. }
    rewrite (roundQ_comp _ _ Hs), Hs.
    apply roundQ_dyadic; [|lia].
    destruct (Z.abs_spec m) as [[_ Ha]|[_ Ha]]; rewrite Ha in Hmax.
    + rewrite Hmax. reflexivity.
    + assert (Hmm : m = (- 2 ^ 53)%Z) by lia. rewrite Hmm. reflexivity.
  - apply roundQ_dyadic; lia.
Qed.

End RoundMonotone.

Section RoundError.

Local Open Scope Q_scope.

Lemma nearestEven_above (q : Q) : inject_Z (F64.nearestEven q) <= q + (1 # 2).
Proof.
  unfold F64.nearestEven. pose proof (Qfloor_le q) as Hf.
  destruct (Qcompare (q - inject_Z (Qfloor q)) (1 # 2)) eqn:E.
  - apply Qeq_alt in E.
    destruct (Z.even (Qfloor q)); rewrite ?inject_Z_plus;
      change (inject_Z 1) with 1; lra.
  - lra.
  - rewrite <- Qgt_alt in E. rewrite inject_Z_plus.
    change (inject_Z 1) with 1. lra.
Qed.

(** Above the subnormal range rounding adds at most one part in [2^53]. *)
Lemma roundQ_above (q : Q) :
  F64.pow2 (-1022) <= q -> F64.roundQ q <= q * (1 + F64.pow2 (-53)).
Proof.
  intros Hq.
  assert (Hpos : 0 < q) by (pose proof (pow2_pos (-1022)); lra).
  rewrite roundQ_nonzero by lra.
  destruct (ilog2_spec q Hpos) as [Hlo Hhi].
  assert (HE : (-1022 <= F64.ilog2 q)%Z).
  { assert (H : F64.pow2 (-1022) < F64.pow2 (F64.ilog2 q + 1)) by lra.
    apply pow2_lt_inv in H. lia. }
  rewrite (ulpExp_pos q Hpos).
  replace (Z.max (F64.ilog2 q - 52) (-1074)) with (F64.ilog2 q - 52)%Z
    by lia.
  set (e := (F64.ilog2 q - 52)%Z).
  apply Qle_trans with ((q / F64.pow2 e + (1 # 2)) * F64.pow2 e).
  - apply Qmult_le_compat_r; [apply nearestEven_above|].
    apply Qlt_le_weak, pow2_pos.
  - assert (Hhalf : (1 # 2) * F64.pow2 e
                    == F64.pow2 (F64.ilog2 q) * F64.pow2 (-53)).
    { rewrite <- pow2_add.
      replace (F64.ilog2 q + -53)%Z with (-1 + e)%Z by (unfold e; lia).
      rewrite pow2_add. reflexivity. }
    assert (Hs : (q / F64.pow2 e + (1 # 2)) * F64.pow2 e
                 == q + (1 # 2) * F64.pow2 e).
    { rewrite Qmult_plus_distr_l, pow2_scale. reflexivity. }
    rewrite Hs, Hhalf.
    assert (Hu : 0 <= F64.pow2 (-53)) by apply Qlt_le_weak, pow2_pos.
    pose proof (Qmult_le_compat_r _ _ _ Hlo Hu). lra.
Qed.

End RoundError.

(** ** Doubles *)

Section RoundNum.

Local Open Scope Q_scope.

Lemma Qred_inject_Z (z : Z) : Qred (inject_Z z) = inject_Z z.
Proof.
  unfold Qred, inject_Z.
  pose proof (Z.ggcd_gcd z 1) as Hg.
  pose proof (Z.ggcd_correct_divisors z 1) as Hd.
  destruct (Z.ggcd z 1) as [g [a b]]. simpl in *.
  rewrite Z.gcd_1_r in Hg. subst g. destruct Hd as [Ha Hb].
  rewrite Z.mul_1_l in Ha, Hb. now subst a b.
Qed.

Lemma Qred_idem (q : Q) : Qred (Qred q) = Qred q.
Proof. apply Qred_complete, Qred_correct. Qed.

(** A rounded value inside the range of the doubles is a finite double. *)
Lemma round_finite (q : Q) :
  - F64.pow2 1024 < F64.roundQ q -> F64.roundQ q < F64.pow2 1024 ->
  F64.round q = Num.Fin (Qred (F64.roundQ q)).
Proof.
  intros Hlo Hhi. unfold F64.round.
  destruct (Qle_bool (F64.pow2 1024) (Qred (F64.roundQ q))) eqn:E1.
  { apply Qle_bool_iff in E1. rewrite Qred_correct in E1. lra. }
  destruct (Qle_bool (Qred (F64.roundQ q)) (- F64.pow2 1024)) eqn:E2.
  { apply Qle_bool_iff in E2. rewrite Qred_correct in E2. lra. }
  reflexivity.
Qed.

Lemma round_comp (p q : Q) : p == q -> F64.round p = F64.round q.
Proof.
  intros H. unfold F64.round.
  now rewrite (Qred_complete _ _ (roundQ_comp _ _ H)).
Qed.

(** Between two doubles in range, rounding stays between them. *)
Lemma round_between (lo hi q : Q) :
  F64.roundQ lo == lo -> F64.roundQ hi == hi ->
  - F64.pow2 1024 < lo -> hi < F64.pow2 1024 ->
  lo <= q <= hi ->
  F64.round q = Num.Fin (Qred (F64.roundQ q)) /\
  lo <= F64.roundQ q <= hi.
Proof.
  intros Hlo Hhi Hmin Hmax [H1 H2].
  pose proof (roundQ_mono _ _ H1) as M1.
  pose proof (roundQ_mono _ _ H2) as M2.
  rewrite Hlo in M1. rewrite Hhi in M2.
  split; [apply round_finite; lra|split; assumption].
Qed.

Lemma round_exact (q : Q) :
  F64.roundQ q == q -> - F64.pow2 1024 < q -> q < F64.pow2 1024 ->
  F64.round q = Num.Fin (Qred q).
Proof.
  intros H Hlo Hhi. rewrite round_finite by (rewrite H; assumption).
  now rewrite (Qred_complete _ _ H).
Qed.

Lemma ofZ_exact (z : Z) :
  (Z.abs z < 2 ^ 53)%Z -> F64.ofZ z = Num.Fin (inject_Z z).
Proof.
  intros Hz. unfold F64.ofZ.
  assert (Hb : - inject_Z (2 ^ 53) < inject_Z z /\
               inject_Z z < inject_Z (2 ^ 53)).
  { rewrite <- inject_Z_opp, <- !Zlt_Qlt. lia. }
  rewrite round_exact.
  - now rewrite Qred_inject_Z.
  - now apply roundQ_integer.
  - apply Qlt_trans with (- inject_Z (2 ^ 53)); [reflexivity|apply Hb].
  - apply Qlt_trans with (inject_Z (2 ^ 53)); [apply Hb|reflexivity].
Qed.

End RoundNum.


Section StrideRange.

Local Open Scope Q_scope.

Lemma rounded_product_below (len maxPoints i : Z) (s : Q) :
  (1 <= maxPoints < len)%Z -> (maxPoints <= 2 ^ 51)%Z ->
  (1 <= i < maxPoints)%Z ->
  1 <= s -> s <= inject_Z len / inject_Z maxPoints * (1 + F64.pow2 (-53)) ->
  F64.roundQ (inject_Z i * s) < inject_Z len.
Proof.
  intros Hmax Hbig Hi Hs1 Hs.
  set (a := inject_Z len / inject_Z maxPoints) in *.
  assert (Hm0 : 0 < inject_Z maxPoints) by (rewrite <- (Zlt_Qlt 0); lia).
  assert (Hlen : inject_Z maxPoints * a == inject_Z len).
  { unfold a. field. lra. }
  assert (Ha : 1 <= a).
  { unfold a. apply Qle_shift_div_l; [exact Hm0|].
    rewrite Qmult_1_l, <- Zle_Qle. lia. }
  assert (Hiq : 1 <= inject_Z i /\ inject_Z i <= inject_Z maxPoints - 1).
  { split; [rewrite <- (Zle_Qle 1); lia|].
    assert (Hsub : inject_Z (maxPoints - 1) == inject_Z maxPoints - 1)
      by (unfold Z.sub; rewrite inject_Z_plus, inject_Z_opp; reflexivity).
    rewrite <- Hsub, <- Zle_Qle. lia. }
  destruct Hiq as [Hi1 Hi2].
  assert (Hprod : 1 <= inject_Z i * s).
  { pose proof (Qmult_le_compat_r _ _ s Hi1 ltac:(lra)). lra. }
  pose proof (roundQ_above (inject_Z i * s)
                ltac:(apply Qle_trans with 1; [discriminate|exact Hprod]))
    as Hround.
  assert (H1 : inject_Z i * s <= (inject_Z maxPoints - 1) * s).
  { apply Qmult_le_compat_r; [exact Hi2|lra]. }
  assert (H2 : (inject_Z maxPoints - 1) * s
               <= (inject_Z maxPoints - 1) * (a * (1 + F64.pow2 (-53)))).
  { rewrite !(Qmult_comm (inject_Z maxPoints - 1)).
    apply Qmult_le_compat_r; [exact Hs|lra]. }
  assert (H3 : (inject_Z maxPoints - 1) * (a * (1 + F64.pow2 (-53)))
               == (inject_Z len - a) * (1 + F64.pow2 (-53))).
  { rewrite <- Hlen. ring. }
  assert (Hcap : inject_Z len <= inject_Z (2 ^ 51) * a).
  { rewrite <- Hlen. apply Qmult_le_compat_r; [|lra].
    rewrite <- Zle_Qle. exact Hbig. }
  assert (Hu : 0 <= 1 + F64.pow2 (-53)) by (vm_compute; discriminate).
  assert (H4 : inject_Z i * s * (1 + F64.pow2 (-53))
               <= (inject_Z len - a) * (1 + F64.pow2 (-53))
                  * (1 + F64.pow2 (-53))).
  { apply Qmult_le_compat_r; [|exact Hu]. rewrite <- H3. lra. }
  apply Qle_lt_trans
    with ((inject_Z len - a) * (1 + F64.pow2 (-53)) * (1 + F64.pow2 (-53)));
    [lra|].
  change (F64.pow2 (-53)) with (1 # 9007199254740992).
  change (inject_Z (2 ^ 51)) with (2251799813685248 # 1) in Hcap.
  lra.
Qed.

Lemma strideIndex_in_range (len maxPoints i : Z) :
  (1 <= maxPoints < len)%Z -> (len < 2 ^ 32)%Z -> (0 <= i < maxPoints)%Z ->
  exists k : Z,
    Doubles.strideIndex len maxPoints i = Num.Fin (inject_Z k) /\
    (0 <= k < len)%Z.
Proof.
  intros Hmax Hlen Hi.
  assert (H32 : (2 ^ 32 < 2 ^ 51)%Z) by reflexivity.
  assert (H53 : (2 ^ 32 < 2 ^ 53)%Z) by reflexivity.
  unfold Doubles.strideIndex.
  rewrite !ofZ_exact by lia.
  set (a := inject_Z len / inject_Z maxPoints).
  assert (Hm0 : 0 < inject_Z maxPoints) by (rewrite <- (Zlt_Qlt 0); lia).
  assert (Hdiv : F64.div (Num.Fin (inject_Z len))
                         (Num.Fin (inject_Z maxPoints))
                 = F64.round a).
  { unfold F64.div, Num.div.
    destruct (Qeq_bool (inject_Z maxPoints) 0) eqn:E; [|reflexivity].
    apply Qeq_bool_iff in E. lra. }
  rewrite Hdiv.
  assert (Ha : 1 <= a <= inject_Z (2 ^ 32)).
  { unfold a. split.
    - apply Qle_shift_div_l; [exact Hm0|].
      rewrite Qmult_1_l, <- Zle_Qle. lia.
    - apply Qle_shift_div_r; [exact Hm0|].
      rewrite <- inject_Z_mult, <- Zle_Qle. nia. }
  destruct (round_between 1 (inject_Z (2 ^ 32)) a) as [Hra [Hs1 Hs2]];
    [reflexivity|reflexivity|reflexivity|reflexivity|exact Ha|].
  rewrite Hra.
  set (s := Qred (F64.roundQ a)).
  assert (Hs : s == F64.roundQ a) by apply Qred_correct.
  assert (Hmul : F64.mul (Num.Fin (inject_Z i)) (Num.Fin s)
                 = F64.round (inject_Z i * s)) by reflexivity.
  rewrite Hmul.
  assert (Hi0 : 0 <= inject_Z i /\ inject_Z i <= inject_Z (2 ^ 32)).
  { rewrite <- (Zle_Qle 0), <- Zle_Qle. lia. }
  assert (Hprod : 0 <= inject_Z i * s <= inject_Z (2 ^ 64)).
  { split.
    - apply Qmult_le_0_compat; lra.
    - change (inject_Z (2 ^ 64)) with (inject_Z (2 ^ 32) * inject_Z (2 ^ 32)).
      apply Qle_trans with (inject_Z (2 ^ 32) * s).
      + apply Qmult_le_compat_r; lra.
      + rewrite !(Qmult_comm (inject_Z (2 ^ 32))).
        apply Qmult_le_compat_r; [lra|discriminate]. }
  destruct (round_between 0 (inject_Z (2 ^ 64)) (inject_Z i * s))
    as [Hry [Hy1 Hy2]];
    [reflexivity|reflexivity|reflexivity|reflexivity|exact Hprod|].
  rewrite Hry. cbn [F64.floor].
  set (y := Qred (F64.roundQ (inject_Z i * s))).
  assert (Hy : y == F64.roundQ (inject_Z i * s)) by apply Qred_correct.
  exists (Qfloor y). split; [reflexivity|].
  split.
  - rewrite <- (Qfloor_Z 0). apply Qfloor_resp_le. rewrite Hy. exact Hy1.
  - assert (Hbelow : y < inject_Z len).
    { rewrite Hy. destruct (Z.eq_dec i 0%Z) as [->|Hnz].
      - rewrite roundQ_zero by (change (inject_Z 0) with 0; ring).
        rewrite <- (Zlt_Qlt 0). lia.
      - apply (rounded_product_below len maxPoints i s);
          [exact Hmax|lia|lia|lra|].
        rewrite Hs. apply roundQ_above.
        apply Qle_trans with 1; [discriminate|apply Ha]. }
    pose proof (Qfloor_le y) as Hf.
    rewrite Zlt_Qlt. lra.
Qed.

End StrideRange.

(** ** downsampleTrack in double precision *)

Section DownsampleRounded.

Context {A : Type} `{EqDecision A}.

Implicit Types (points : list A) (maxPoints : Z).

Lemma downsample_loop_picks points maxPoints (count : nat) :
  forall (i : Z) (downsampled : list (option A)),
    Doubles.downsample_loop points maxPoints count i downsampled
    = downsampled
      ++ ((fun k =>
             Doubles.at_index points
               (Doubles.strideIndex (Z.of_nat (length points)) maxPoints k))
            <$> seqZ i (Z.of_nat count)).
Proof.
  induction count as [|count IH]; intros i downsampled.
  - simpl. now rewrite app_nil_r.
  - cbn [Doubles.downsample_loop]. rewrite IH, <- app_assoc.
    replace (Z.of_nat (S count)) with (Z.succ (Z.of_nat count)) by lia.
    rewrite (seqZ_cons i) by lia.
    replace (Z.pred (Z.succ (Z.of_nat count))) with (Z.of_nat count) by lia.
    replace (Z.succ i) with (i + 1) by lia. reflexivity.
Qed.

(** C3, as amended. For every point list and every [maxPoints >= 1] the
    result of [downsampleTrack] has at most [maxPoints + 1] elements and
    holds the last original point (as its own last element); when the
    input is longer than [maxPoints], element [i] of the result, for
    [0 <= i < maxPoints], is [points[Math.floor(i * step)]] with
    [step = len / maxPoints], the quotient and the product each rounded
    to double precision; when the input has at most [maxPoints] elements
    it is returned unchanged. For an array within the length limit of
    JavaScript that index is a position of the array, so the element is
    a point and not [undefined]. *)
Theorem downsampleTrack_bounded_rounded_stride points maxPoints :
  1 <= maxPoints ->
  let len := Z.of_nat (length points) in
  let out := Doubles.downsampleTrack points maxPoints in
  Z.of_nat (length out) <= maxPoints + 1 /\
  mjoin (last out) = last points /\
  (forall final, last points = Some final -> Some final ∈ out) /\
  (maxPoints < len ->
   forall i, 0 <= i < maxPoints ->
     let index :=
       F64.floor
         (F64.mul (F64.ofZ i) (F64.div (F64.ofZ len) (F64.ofZ maxPoints))) in
     out !! Z.to_nat i = Some (Doubles.at_index points index) /\
     (len < 2 ^ 32 ->
      exists (k : Z) p,
        index = Num.Fin (inject_Z k) /\ 0 <= k < len /\
        points !! Z.to_nat k = Some p /\
        out !! Z.to_nat i = Some (Some p))) /\
  (len <= maxPoints -> out = Some <$> points).
Proof.
  intros Hmax len out.
  assert (Hshape :
    (len <= maxPoints /\ out = Some <$> points) \/
    (maxPoints < len /\
     exists picked,
       picked = (fun k => Doubles.at_index points
                            (Doubles.strideIndex len maxPoints k))
                <$> seqZ 0 maxPoints /\
       ((mjoin (last picked) = last points /\ out = picked) \/
        out = picked ++ [last points]))).
  { subst out. unfold Doubles.downsampleTrack. fold len.
    destruct (Z.leb_spec len maxPoints) as [Hle|Hgt]; [left; auto|].
    right. split; [exact Hgt|].
    rewrite downsample_loop_picks. fold len. rewrite app_nil_l.
    rewrite Z2Nat.id by lia.
    eexists. split; [reflexivity|].
    destruct (decide _) as [Hlast|Hlast]; [left; auto|right; reflexivity]. }
  assert (Hlast : mjoin (last out) = last points).
  { destruct Hshape as [[_ ->]|(_ & picked & _ & [[Hl ->]| ->])].
    - rewrite fmap_last. now destruct (last points).
    - exact Hl.
    - now rewrite last_snoc. }
  destruct Hshape as [[Hle Hout]|(Hgt & picked & Hpicked & Hout)].
  - split; [|split; [exact Hlast|split; [|split]]].
    + rewrite Hout, length_fmap. fold len. lia.
    + intros final Hfinal. rewrite Hfinal in Hlast.
      destruct (last out) as [[v|]|] eqn:E; try discriminate.
      injection Hlast as ->. now apply last_Some_elem_of.
    + lia.
    + intros _. exact Hout.
  - assert (Hlen : length picked = Z.to_nat maxPoints).
    { rewrite Hpicked, length_fmap, length_seqZ. reflexivity. }
    split; [|split; [exact Hlast|split; [|split]]].
    + destruct Hout as [[_ ->]| ->]; rewrite ?length_app; simpl; lia.
    + intros final Hfinal. rewrite Hfinal in Hlast.
      destruct (last out) as [[v|]|] eqn:E; try discriminate.
      injection Hlast as ->. now apply last_Some_elem_of.
    + intros _ i Hi index.
      assert (Hi' : picked !! Z.to_nat i
                    = Some (Doubles.at_index points
                              (Doubles.strideIndex len maxPoints i))).
      { rewrite Hpicked, list_lookup_fmap.
        rewrite (lookup_seqZ_lt 0 maxPoints (Z.to_nat i)) by lia.
        simpl. now rewrite Z2Nat.id by lia. }
      assert (Hpick : out !! Z.to_nat i
                      = Some (Doubles.at_index points index)).
      { destruct Hout as [[_ ->]| ->]; [exact Hi'|].
        now apply lookup_app_l_Some. }
      split; [exact Hpick|]. intros Hlimit.
      destruct (strideIndex_in_range len maxPoints i) as (k & Hk & Hrange);
        [lia|exact Hlimit|exact Hi|].
      destruct (lookup_lt_is_Some_2 points (Z.to_nat k) ltac:(lia))
        as [p Hp].
      exists k, p. split; [exact Hk|]. split; [exact Hrange|].
      split; [exact Hp|]. rewrite Hpick. f_equal.
      change index with (Doubles.strideIndex len maxPoints i).
      rewrite Hk. unfold Doubles.at_index. rewrite Qfloor_Z.
      rewrite Qeq_bool_refl.
      destruct (Z.leb_spec 0 k) as [_|Hneg]; [exact Hp|lia].
    + lia.
Qed.

End DownsampleRounded.

(** C3, as stated, fails: of 122 points cut down to 14 the eighth pick is
    point 60, where [floor(7 * 122 / 14)] is 61. *)
Lemma downsampleTrack_stride_not_exact :
  Doubles.downsampleTrack (seq 0 122) 14 !! 7%nat = Some (Some 60%nat) /\
  seq 0 122 !! Z.to_nat (Js.floor (inject_Z 7 * inject_Z 122 / inject_Z 14))
  = Some 61%nat /\
  ~ (forall i, 0 <= i < 14 ->
       exists p,
         Doubles.downsampleTrack (seq 0 122) 14 !! Z.to_nat i
         = Some (Some p) /\
         seq 0 122
           !! Z.to_nat (Js.floor (inject_Z i * inject_Z 122 / inject_Z 14))
         = Some p).
Proof.
  assert (Hcode : Doubles.downsampleTrack (seq 0 122) 14 !! 7%nat
                  = Some (Some 60%nat)) by (vm_compute; reflexivity).
  assert (Hclaim : seq 0 122
                     !! Z.to_nat (Js.floor (inject_Z 7 * inject_Z 122
                                            / inject_Z 14))
                   = Some 61%nat) by (vm_compute; reflexivity).
  split; [exact Hcode|split; [exact Hclaim|]].
  intros H. destruct (H 7 ltac:(lia)) as (p & Hp & Hq).
  change (Z.to_nat 7) with 7%nat in Hp.
  rewrite Hcode in Hp. rewrite Hclaim in Hq. congruence.
Qed.

Lemma downsampleTrack_bounded_rounded_stride_witness :
  1 <= 14 /\
  Z.of_nat (length (Doubles.downsampleTrack (seq 0 122) 14)) <= 14 + 1 /\
  mjoin (last (Doubles.downsampleTrack (seq 0 122) 14)) = last (seq 0 122).
Proof.
  assert (Hmax : 1 <= 14) by lia.
  split; [exact Hmax|].
  destruct (downsampleTrack_bounded_rounded_stride (seq 0 122) 14 Hmax)
    as (Hlen & Hlast & _).
  split; assumption.
Defined.

(** ** The frame progress in double precision *)

Section ProgressFacts.

Local Open Scope Q_scope.

Variable d : Q.
Hypothesis d_positive : 0 < d.

Lemma specProgress_period (t : Q) :
  specProgress true d (t + d) == specProgress true d t.
Proof.
  unfold specProgress.
  assert (Hne : ~ d == 0) by lra.
  assert (Hshift : (t + d) / d == t / d + 1) by (field; exact Hne).
  rewrite (Qfloor_comp _ _ Hshift), Qfloor_succ, inject_Z_plus.
  change (inject_Z 1) with 1. field. exact Hne.
Qed.

Lemma specProgress_comp (t1 t2 : Q) :
  t1 == t2 -> specProgress true d t1 == specProgress true d t2.
Proof.
  intros H. unfold specProgress.
  assert (Hq : t1 / d == t2 / d) by now rewrite H.
  rewrite (Qfloor_comp _ _ Hq), H. reflexivity.
Qed.

Lemma specProgress_mono_in_cycle (t1 t2 : Q) :
  t1 <= t2 -> Qfloor (t1 / d) = Qfloor (t2 / d) ->
  specProgress true d t1 <= specProgress true d t2.
Proof.
  intros Hle Hcycle. unfold specProgress. rewrite Hcycle.
  apply Qdiv_le_mono; [exact d_positive|]. lra.
Qed.

(** The looping progress of the specification lies in [[0, 1)]. *)
Lemma specProgress_unit (t : Q) :
  0 <= specProgress true d t /\ specProgress true d t < 1.
Proof.
  unfold specProgress.
  pose proof (Qfloor_le (t / d)) as Hlo.
  pose proof (Qlt_floor (t / d)) as Hhi.
  rewrite inject_Z_plus in Hhi. change (inject_Z 1) with 1 in Hhi.
  set (f := inject_Z (Qfloor (t / d))) in *.
  assert (Ht : t == t / d * d) by (field; lra).
  assert (H1 : f * d <= t).
  { apply Qle_trans with (t / d * d); [|rewrite <- Ht; apply Qle_refl].
    apply Qmult_le_compat_r; lra. }
  assert (H2 : t < (f + 1) * d).
  { apply Qle_lt_trans with (t / d * d); [rewrite <- Ht; apply Qle_refl|].
    apply Qmult_lt_compat_r; lra. }
  split.
  - apply Qle_shift_div_l; [exact d_positive|]. lra.
  - apply Qlt_shift_div_r; [exact d_positive|]. lra.
Qed.

(** The truncated remainder is the floored one on elapsed times. *)
Lemma rem_floor (t : Q) :
  0 <= t -> Js.rem t d / d == specProgress true d t.
Proof.
  intros Ht. unfold Js.rem, specProgress.
  rewrite trunc_nonneg; [reflexivity|]. now apply Qdiv_nonneg.
Qed.

End ProgressFacts.

Section ElapsedFacts.

Local Open Scope Q_scope.

Lemma sub_ofZ (a b : Z) :
  (0 <= b <= a)%Z -> (a < 2 ^ 53)%Z ->
  F64.sub (F64.ofZ a) (F64.ofZ b) = Num.Fin (inject_Z (a - b)).
Proof.
  intros Hab Ha. rewrite !ofZ_exact by lia.
  unfold F64.sub, Num.sub. cbn [Num.neg Num.add F64.rounded].
  assert (E : inject_Z a + - inject_Z b == inject_Z (a - b)).
  { unfold Z.sub. rewrite inject_Z_plus, inject_Z_opp. reflexivity. }
  rewrite (round_comp _ _ E). apply ofZ_exact. lia.
Qed.

(** The elapsed seconds of a frame: the milliseconds over 1000, rounded
    once. *)
Lemma elapsedSeconds_value (now start : Z) :
  (0 <= start <= now)%Z -> (now < 2 ^ 53)%Z ->
  Doubles.elapsedSeconds now start
  = Num.Fin (Qred (F64.roundQ (inject_Z (now - start) / 1000))) /\
  0 <= F64.roundQ (inject_Z (now - start) / 1000).
Proof.
  intros Hs Hn. unfold Doubles.elapsedSeconds.
  rewrite sub_ofZ by assumption.
  assert (Hq : 0 <= inject_Z (now - start) / 1000 <= inject_Z (2 ^ 53)).
  { assert (H0 : 0 <= inject_Z (now - start) <= inject_Z (2 ^ 53)).
    { rewrite <- (Zle_Qle 0), <- Zle_Qle. lia. }
    split.
    - apply Qle_shift_div_l; [reflexivity|]. lra.
    - apply Qle_shift_div_r; [reflexivity|]. lra. }
  destruct (round_between 0 (inject_Z (2 ^ 53)) _ eq_refl eq_refl
              eq_refl eq_refl Hq) as [Hr [H0 _]].
  split; [exact Hr|exact H0].
Qed.

End ElapsedFacts.

Section ProgressRounded.

Local Open Scope Q_scope.

Variable config : Config.

(** C6, as amended. With [elapsed] the milliseconds since the start over
    1000, rounded to a double, and [d] the double of the loop duration,
    the progress of a frame is the elapsed time modulo [d] over [d],
    rounded, when looping is enabled, and [min(elapsed / d, 1)] with the
    quotient rounded otherwise. With looping enabled the progress lies in
    [[0, 1]]; two frames whose elapsed times differ by exactly [d] have
    the same progress, as do, for a duration of whole seconds, frames one
    duration apart that fall on a multiple of 125 ms after the start;
    and progress does not decrease between two frames of the same loop
    cycle. *)
Theorem frameProgress_wraps_rounded (start : Z) (d : Q) :
  F64.lit (animationDuration config) = Num.Fin d -> 0 < d ->
  let elapsed := fun now : Z =>
    F64.roundQ (inject_Z (now - start) / 1000) in
  let inRange := fun now : Z => (0 <= start <= now /\ now < 2 ^ 53)%Z in
  let progress := Doubles.frameProgress config in
  (forall now, inRange now ->
     progress now start
     = if animationLoop config
       then F64.round (specProgress true d (elapsed now))
       else Num.min (F64.round (elapsed now / d)) (Num.Fin 1)) /\
  (animationLoop config = true ->
   (forall now, inRange now ->
      exists p, progress now start = Num.Fin p /\ 0 <= p <= 1) /\
   (forall now1 now2, inRange now1 -> inRange now2 ->
      elapsed now2 == elapsed now1 + d ->
      progress now2 start = progress now1 start) /\
   (forall now a k : Z, inRange now -> inRange (now + 1000 * k)%Z ->
      (now - start = 125 * a)%Z -> d == inject_Z k ->
      progress (now + 1000 * k)%Z start = progress now start) /\
   (forall now1 now2 p1 p2, inRange now1 -> inRange now2 ->
      (now1 <= now2)%Z ->
      Qfloor (elapsed now1 / d) = Qfloor (elapsed now2 / d) ->
      progress now1 start = Num.Fin p1 ->
      progress now2 start = Num.Fin p2 ->
      p1 <= p2)).
Proof.
  intros Hd Hpos elapsed inRange progress.
  assert (Hne : Qeq_bool d 0 = false).
  { destruct (Qeq_bool d 0) eqn:E; [|reflexivity].
    apply Qeq_bool_iff in E. lra. }
  assert (Hformula : forall now, inRange now ->
            progress now start
            = if animationLoop config
              then F64.round (specProgress true d (elapsed now))
              else Num.min (F64.round (elapsed now / d)) (Num.Fin 1)).
  { intros now [Hs Hn]. unfold progress, Doubles.frameProgress.
    destruct (elapsedSeconds_value now start Hs Hn) as [-> He].
    rewrite Hd. fold (elapsed now) in *.
    destruct (animationLoop config).
    - unfold F64.rem, F64.div, Num.div. rewrite Hne.
      cbn [F64.rounded]. apply round_comp.
      rewrite (Qred_correct (Js.rem _ _)).
      rewrite (rem_floor d Hpos) by (rewrite Qred_correct; exact He).
      apply (specProgress_comp d), Qred_correct.
    - unfold F64.div, Num.div. rewrite Hne. cbn [F64.rounded].
      f_equal. apply round_comp. now rewrite Qred_correct. }
  split; [exact Hformula|]. intros Hloop.
  assert (Hvalue : forall now, inRange now ->
            progress now start
            = Num.Fin (Qred (F64.roundQ (specProgress true d (elapsed now))))
            /\ 0 <= F64.roundQ (specProgress true d (elapsed now)) <= 1).
  { intros now Hnow. rewrite (Hformula now Hnow), Hloop.
    destruct (specProgress_unit d Hpos (elapsed now)) as [H0 H1].
    apply (round_between 0 1); try reflexivity. lra. }
  assert (Hperiod : forall now1 now2, inRange now1 -> inRange now2 ->
            elapsed now2 == elapsed now1 + d ->
            progress now2 start = progress now1 start).
  { intros now1 now2 H1 H2 Hshift.
    rewrite (Hformula now1 H1), (Hformula now2 H2), Hloop.
    apply round_comp.
    rewrite (specProgress_comp d _ _ Hshift).
    apply (specProgress_period d Hpos). }
  split; [|split; [exact Hperiod|split]].
  - intros now Hnow. destruct (Hvalue now Hnow) as [-> Hp].
    eexists. split; [reflexivity|]. now rewrite Qred_correct.
  - intros now a k H1 H2 Ha Hk. apply Hperiod; [exact H1|exact H2|].
    unfold elapsed.
    replace (now + 1000 * k - start)%Z with (125 * (a + 8 * k))%Z by lia.
    rewrite Ha, Hk.
    assert (Hgrid : forall m : Z,
              inject_Z (125 * m) / 1000 == inject_Z m * F64.pow2 (-3)).
    { intros m. rewrite inject_Z_mult.
      change (F64.pow2 (-3)) with (1 # 8). change (inject_Z 125) with 125.
      field. }
    destruct H1 as [H1a H1b]. destruct H2 as [H2a H2b].
    assert (H53 : (2 ^ 53 = 9007199254740992)%Z) by reflexivity.
    rewrite (roundQ_comp _ _ (Hgrid a)), (roundQ_comp _ _ (Hgrid _)).
    rewrite !roundQ_dyadic by lia.
    rewrite inject_Z_plus, inject_Z_mult.
    change (F64.pow2 (-3)) with (1 # 8). change (inject_Z 8) with 8.
    ring.
  - intros now1 now2 p1 p2 H1 H2 Hle Hcycle Hp1 Hp2.
    destruct (Hvalue now1 H1) as [E1 _]. destruct (Hvalue now2 H2) as [E2 _].
    rewrite E1 in Hp1. rewrite E2 in Hp2.
    injection Hp1 as <-. injection Hp2 as <-.
    rewrite !Qred_correct. apply roundQ_mono.
    apply (specProgress_mono_in_cycle d Hpos); [|exact Hcycle].
    unfold elapsed. apply roundQ_mono.
    apply Qdiv_le_mono; [reflexivity|].
    rewrite <- Zle_Qle. lia.
Qed.

End ProgressRounded.

(** C6, as stated, fails: with the shipped 60-second loop the frames at
    1 ms and at 60001 ms after the start, one loop duration apart, get
    different progress. *)
Lemma frameProgress_period_not_exact :
  Doubles.frameProgress shippedConfig 1 0
  = Num.Fin (2459565876494607 # 147573952589676412928) /\
  Doubles.frameProgress shippedConfig 60001 0
  = Num.Fin (4919131752977749 # 295147905179352825856) /\
  Doubles.frameProgress shippedConfig (1 + 60 * 1000) 0
  <> Doubles.frameProgress shippedConfig 1 0.
Proof.
  assert (H1 : Doubles.frameProgress shippedConfig 1 0
               = Num.Fin (2459565876494607 # 147573952589676412928))
    by (vm_compute; reflexivity).
  assert (H2 : Doubles.frameProgress shippedConfig 60001 0
               = Num.Fin (4919131752977749 # 295147905179352825856))
    by (vm_compute; reflexivity).
  split; [exact H1|split; [exact H2|]].
  change (1 + 60 * 1000)%Z with 60001%Z. rewrite H1, H2. discriminate.
Qed.

Lemma frameProgress_wraps_rounded_witness :
  F64.lit (animationDuration shippedConfig) = Num.Fin 60 /\
  (0 < 60)%Q /\
  Doubles.frameProgress shippedConfig 61500 1000
  = Doubles.frameProgress shippedConfig 1500 1000.
Proof.
  assert (Hd : F64.lit (animationDuration shippedConfig) = Num.Fin 60)
    by (vm_compute; reflexivity).
  assert (Hpos : (0 < 60)%Q) by reflexivity.
  split; [exact Hd|split; [exact Hpos|]].
  destruct (frameProgress_wraps_rounded shippedConfig 1000 60 Hd Hpos)
    as [_ Hloop].
  destruct (Hloop eq_refl) as (_ & _ & Hgrid & _).
  apply (Hgrid 1500%Z 4%Z 60%Z);
    [split; [lia|reflexivity]|split; [lia|reflexivity]|reflexivity
    |reflexivity].
Defined.

(** ** The end of a camera transition in double precision *)

Section RoundOne.

Local Open Scope Q_scope.

Lemma round_Fin_inv (q r : Q) :
  F64.round q = Num.Fin r -> r = Qred (F64.roundQ q) /\ F64.roundQ r == r.
Proof.
  unfold F64.round. intros H.
  destruct (Qle_bool _ _); [discriminate|].
  destruct (Qle_bool _ _); [discriminate|].
  injection H as <-. split; [reflexivity|].
  rewrite (roundQ_comp _ _ (Qred_correct _)), Qred_correct.
  apply roundQ_idem.
Qed.

(** A quotient of at least 1 is cut to exactly 1. *)
Lemma min_round_one (q : Q) :
  1 <= q -> Num.min (F64.round q) (Num.Fin 1) = Num.Fin 1.
Proof.
  intros Hq. pose proof (roundQ_mono _ _ Hq) as Hr.
  assert (H1 : F64.roundQ 1 == 1) by (vm_compute; reflexivity).
  rewrite H1 in Hr. unfold F64.round.
  destruct (Qle_bool (F64.pow2 1024) _); [reflexivity|].
  destruct (Qle_bool _ (- F64.pow2 1024)) eqn:E.
  { apply Qle_bool_iff in E. rewrite Qred_correct in E.
    assert (Hbig : - F64.pow2 1024 < 1) by reflexivity. lra. }
  cbn [Num.min]. f_equal.
  destruct (Qmin_cases (Qred (F64.roundQ q)) 1) as [[-> Hle]|[-> _]];
    [|reflexivity].
  rewrite Qred_correct in Hle.
  apply (Qred_complete _ 1). lra.
Qed.

End RoundOne.

Section TransitionRounded.

Local Open Scope Q_scope.

Variable config : Config.
Variable Math_pow : Num.t -> Num.t -> Num.t.
Variable OrbitControls_update : XYZ.t * XYZ.t -> XYZ.t * XYZ.t.

Local Abbreviation cfg := (cameraAnimation config).
Local Abbreviation frame :=
  (Doubles.CameraAnimation_useFrame config Math_pow OrbitControls_update).

(** C1, as amended. A frame update that runs in state TRANSITIONING with
    recorded transition data computes its progress from the clock and
    the recorded start: the milliseconds since the start over 1000, over
    [transitionSeconds], each quotient rounded, capped at 1. When the
    time since the start is at least [transitionSeconds] the progress is
    1 and so is the eased progress; the frame writes
    [start + (end - start) * 1], evaluated in double precision, to the
    camera position and (with controls mounted) to the orbit target, lets
    the controls update from these, clears the transition data and sets
    the state to AUTO. *)
Theorem CameraAnimation_useFrame_completes_rounded
    (s : Doubles.Transition) (clock : Clock)
    (data : Doubles.TransitionData) (start : Z) (t : Q) :
  Doubles.animationState s = TRANSITIONING ->
  Doubles.transitionDataRef s = Some data ->
  Doubles.transitionStartRef s = Some start ->
  let now := ticks clock (reads clock) in
  (0 <= start <= now)%Z -> (now < 2 ^ 53)%Z ->
  F64.lit (transitionSeconds cfg) = Num.Fin t -> 0 < t ->
  let position :=
    Doubles.lerpVectors (Doubles.startPosition data)
                        (Doubles.targetPosition data) (Num.Fin 1) in
  let newTarget :=
    Doubles.lerpVectors (Doubles.startTarget data)
                        (Doubles.targetLookAt data) (Num.Fin 1) in
  Doubles.transitionProgress config now s
  = Num.min (F64.round (F64.roundQ (inject_Z (now - start) / 1000) / t))
            (Num.Fin 1) /\
  (t <= inject_Z (now - start) / 1000 ->
   Math_pow (Num.Fin 0) (Num.Fin 3) = Num.Fin 0 ->
   Doubles.transitionProgress config now s = Num.Fin 1 /\
   Doubles.easeInOutCubic Math_pow (Num.Fin 1) = Num.Fin 1 /\
   Doubles.animationState (fst (frame s clock)) = AUTO /\
   Doubles.transitionDataRef (fst (frame s clock)) = None /\
   reads (snd (frame s clock)) = S (reads clock) /\
   (Doubles.cameraPosition (fst (frame s clock)),
    Doubles.orbitTarget (fst (frame s clock)))
   = match Doubles.orbitTarget s with
     | Some _ =>
         (fst (OrbitControls_update (position, newTarget)),
          Some (snd (OrbitControls_update (position, newTarget))))
     | None => (position, None)
     end).
Proof.
  intros Hstate Hdata Hstart now Hs Hn Ht Hpos position newTarget.
  assert (Hne : Qeq_bool t 0 = false).
  { destruct (Qeq_bool t 0) eqn:E; [|reflexivity].
    apply Qeq_bool_iff in E. lra. }
  assert (Hformula :
            Doubles.transitionProgress config now s
            = Num.min
                (F64.round (F64.roundQ (inject_Z (now - start) / 1000) / t))
                (Num.Fin 1)).
  { destruct (elapsedSeconds_value now start Hs Hn) as [He _].
    unfold Doubles.elapsedSeconds in He.
    unfold Doubles.transitionProgress. rewrite Hstart.
    change (default 0%Z (Some start)) with start. rewrite He, Ht.
    unfold F64.div, Num.div. rewrite Hne. cbn [F64.rounded].
    f_equal. apply round_comp. now rewrite Qred_correct. }
  split; [exact Hformula|]. intros Hle Hpow.
  assert (Hprog : Doubles.transitionProgress config now s = Num.Fin 1).
  { rewrite Hformula. apply min_round_one.
    destruct (round_Fin_inv _ _ Ht) as [_ Hdouble].
    apply Qle_shift_div_l; [exact Hpos|]. rewrite Qmult_1_l.
    rewrite <- Hdouble. now apply roundQ_mono. }
  assert (Hease : Doubles.easeInOutCubic Math_pow (Num.Fin 1) = Num.Fin 1).
  { unfold Doubles.easeInOutCubic.
    change (F64.ltb (Num.Fin 1) (F64.lit (1 # 2))) with false.
    change (F64.add (F64.mul (Num.Fin (-2)) (Num.Fin 1)) (Num.Fin 2))
      with (Num.Fin 0).
    rewrite Hpow. reflexivity. }
  split; [exact Hprog|]. split; [exact Hease|].
  unfold Doubles.CameraAnimation_useFrame.
  destruct (decide (Doubles.animationState s <> TRANSITIONING)) as [Hno|_];
    [contradiction|].
  rewrite Hdata. cbn [Date_now]. fold now. rewrite Hprog, Hease.
  change (F64.geb (Num.Fin 1) (Num.Fin 1)) with true.
  fold position newTarget.
  destruct (Doubles.orbitTarget s) as [target|].
  - destruct (OrbitControls_update (position, newTarget)) as [p tg].
    repeat split.
  - repeat split.
Qed.

End TransitionRounded.

(** C1, as stated, fails: the frame that ends the sample transition, two
    seconds after its start, leaves the camera at height 25, not at the
    recorded end height [24.999999999999996], even with controls whose
    update leaves the camera alone. *)
Lemma CameraAnimation_useFrame_misses_end :
  let s' :=
    fst (Doubles.CameraAnimation_useFrame
           shippedConfig DoublesSample.Math_pow
           DoublesSample.OrbitControls_update
           DoublesSample.transitioning Sample.clock) in
  Doubles.animationState s' = AUTO /\
  XYZ.y (Doubles.cameraPosition s') = Num.Fin 25 /\
  XYZ.y (Doubles.targetPosition DoublesSample.transition)
  = Num.Fin (7036874417766399 # 281474976710656) /\
  Doubles.cameraPosition s'
  <> Doubles.targetPosition DoublesSample.transition.
Proof.
  vm_compute. repeat split. discriminate.
Qed.

Lemma CameraAnimation_useFrame_completes_rounded_witness :
  F64.lit (transitionSeconds (cameraAnimation shippedConfig))
  = Num.Fin (3 # 2) /\
  ((3 # 2) <= inject_Z (61000 - 59000) / 1000)%Q /\
  Doubles.animationState
    (fst (Doubles.CameraAnimation_useFrame
            shippedConfig DoublesSample.Math_pow
            DoublesSample.OrbitControls_update
            DoublesSample.transitioning Sample.clock)) = AUTO.
Proof.
  assert (Ht : F64.lit (transitionSeconds (cameraAnimation shippedConfig))
               = Num.Fin (3 # 2)) by (vm_compute; reflexivity).
  assert (Hle : ((3 # 2) <= inject_Z (61000 - 59000) / 1000)%Q)
    by (vm_compute; discriminate).
  split; [exact Ht|split; [exact Hle|]].
  destruct (CameraAnimation_useFrame_completes_rounded
              shippedConfig DoublesSample.Math_pow
              DoublesSample.OrbitControls_update
              DoublesSample.transitioning Sample.clock
              DoublesSample.transition 59000 (3 # 2) eq_refl eq_refl
              eq_refl ltac:(vm_compute; split; discriminate) eq_refl Ht
              eq_refl) as [_ Hdone].
  exact (proj1 (proj2 (proj2 (Hdone Hle eq_refl)))).
Defined.

(** ** Bounding boxes over arbitrary numbers *)

Section BoundsRounded.

Local Open Scope Q_scope.

Lemma foldl_growBounds_finite (pts : list Vector3) : forall bounds,
  foldl Doubles.growBounds bounds (finite <$> pts)
  = foldl Framing.growBounds bounds pts.
Proof.
  induction pts as [|p pts IH]; intros bounds; [reflexivity|].
  csimpl. rewrite IH. reflexivity.
Qed.

Lemma finitePoints_lift (points : list XYZ.t) :
  Forall Doubles.finitePoint points ->
  exists pts : list Vector3, points = finite <$> pts.
Proof.
  induction 1 as [|p points [v ->] _ [pts ->]].
  - now exists [].
  - now exists (v :: pts).
Qed.

(** Each bound is a running minimum or maximum of one coordinate. *)
Lemma foldl_growBounds_fields (points : list XYZ.t) : forall bounds,
  let final := foldl Doubles.growBounds bounds points in
  Framing.minX final = foldl Num.min (Framing.minX bounds) (XYZ.x <$> points)
  /\ Framing.maxX final
     = foldl Num.max (Framing.maxX bounds) (XYZ.x <$> points)
  /\ Framing.minY final
     = foldl Num.min (Framing.minY bounds) (XYZ.y <$> points)
  /\ Framing.maxY final
     = foldl Num.max (Framing.maxY bounds) (XYZ.y <$> points)
  /\ Framing.minZ final
     = foldl Num.min (Framing.minZ bounds) (XYZ.z <$> points)
  /\ Framing.maxZ final
     = foldl Num.max (Framing.maxZ bounds) (XYZ.z <$> points).
Proof.
  induction points as [|p points IH]; intros bounds; [now repeat split|].
  exact (IH (Doubles.growBounds bounds p)).
Qed.

Lemma min_NaN_r (a : Num.t) : Num.min a Num.NaN = Num.NaN.
Proof. now destruct a. Qed.

Lemma max_NaN_r (a : Num.t) : Num.max a Num.NaN = Num.NaN.
Proof. now destruct a. Qed.

(** [Math.min] and [Math.max] never recover from a [NaN]. *)
Lemma foldl_min_NaN (ns : list Num.t) : forall a,
  a = Num.NaN \/ Num.NaN ∈ ns -> foldl Num.min a ns = Num.NaN.
Proof.
  induction ns as [|n ns IH]; intros a [Ha|Hin].
  - exact Ha.
  - inversion Hin.
  - subst a. simpl. apply IH. left. reflexivity.
  - simpl. apply IH. apply elem_of_cons in Hin as [<-|Hin];
      [left; apply min_NaN_r|now right].
Qed.

Lemma foldl_max_NaN (ns : list Num.t) : forall a,
  a = Num.NaN \/ Num.NaN ∈ ns -> foldl Num.max a ns = Num.NaN.
Proof.
  induction ns as [|n ns IH]; intros a [Ha|Hin].
  - exact Ha.
  - inversion Hin.
  - subst a. simpl. apply IH. left. reflexivity.
  - simpl. apply IH. apply elem_of_cons in Hin as [<-|Hin];
      [left; apply max_NaN_r|now right].
Qed.

(** One [NaN] coordinate among the points poisons the box along its
    axis. *)
Lemma box_poisoned (points : list XYZ.t) (p : XYZ.t) :
  p ∈ points ->
  let box :=
    Doubles.boxOf (foldl Doubles.growBounds Framing.initialBounds points) in
  (XYZ.x p = Num.NaN -> Doubles.poisoned XYZ.x box) /\
  (XYZ.y p = Num.NaN -> Doubles.poisoned XYZ.y box) /\
  (XYZ.z p = Num.NaN -> Doubles.poisoned XYZ.z box).
Proof.
  intros Hp box.
  destruct (foldl_growBounds_fields points Framing.initialBounds)
    as (Hx0 & Hx1 & Hy0 & Hy1 & Hz0 & Hz1).
  assert (Hin : forall axis : XYZ.t -> Num.t,
            axis p = Num.NaN -> Num.NaN ∈ axis <$> points).
  { intros axis <-. now apply list_elem_of_fmap_2. }
  unfold Doubles.poisoned. subst box. unfold Doubles.boxOf.
  cbn [Box.min Box.max Box.center Box.size XYZ.x XYZ.y XYZ.z].
  repeat split; intros;
    rewrite ?Hx0, ?Hx1, ?Hy0, ?Hy1, ?Hz0, ?Hz1;
    rewrite ?foldl_min_NaN, ?foldl_max_NaN by (right; auto);
    reflexivity.
Qed.

(** Over finite points the corners are finite and tight. *)
Lemma box_tight (pts : list Vector3) :
  pts <> [] ->
  let box :=
    Doubles.boxOf
      (foldl Doubles.growBounds Framing.initialBounds (finite <$> pts)) in
  exists lo hi : Vector3,
    Box.min box = finite lo /\
    Box.max box = finite hi /\
    Box.center box
    = {| XYZ.x := F64.div (F64.add (Num.Fin (x lo)) (Num.Fin (x hi)))
                          (Num.Fin 2);
         XYZ.y := F64.div (F64.add (Num.Fin (y lo)) (Num.Fin (y hi)))
                          (Num.Fin 2);
         XYZ.z := F64.div (F64.add (Num.Fin (z lo)) (Num.Fin (z hi)))
                          (Num.Fin 2) |} /\
    Box.size box
    = {| XYZ.x := F64.sub (Num.Fin (x hi)) (Num.Fin (x lo));
         XYZ.y := F64.sub (Num.Fin (y hi)) (Num.Fin (y lo));
         XYZ.z := F64.sub (Num.Fin (z hi)) (Num.Fin (z lo)) |} /\
    Forall (inside lo hi) pts /\
    inside lo hi lo /\
    (exists p, p ∈ pts /\ x p = x lo) /\
    (exists p, p ∈ pts /\ x p = x hi) /\
    (exists p, p ∈ pts /\ y p = y lo) /\
    (exists p, p ∈ pts /\ y p = y hi) /\
    (exists p, p ∈ pts /\ z p = z lo) /\
    (exists p, p ∈ pts /\ z p = z hi).
Proof.
  intros Hne box. subst box. rewrite foldl_growBounds_finite.
  destruct pts as [|p0 rest]; [contradiction|].
  destruct (growBounds_first_tight p0 rest)
    as ((x0 & Ex0 & Ax0 & Px0) & (x1 & Ex1 & Ax1 & Px1)
        & (y0 & Ey0 & Ay0 & Py0) & (y1 & Ey1 & Ay1 & Py1)
        & (z0 & Ez0 & Az0 & Pz0) & (z1 & Ez1 & Az1 & Pz1)).
  exists {| x := x0; y := y0; z := z0 |}, {| x := x1; y := y1; z := z1 |}.
  unfold Doubles.boxOf, finite. rewrite Ex0, Ex1, Ey0, Ey1, Ez0, Ez1.
  cbn [x y z].
  split; [reflexivity|]. split; [reflexivity|]. split; [reflexivity|].
  split; [reflexivity|].
  assert (Hall : Forall (inside {| x := x0; y := y0; z := z0 |}
                                {| x := x1; y := y1; z := z1 |})
                        (p0 :: rest)).
  { rewrite Forall_forall in *. intros p Hp. unfold inside. cbn [x y z].
    pose proof (Ax0 p Hp). pose proof (Ax1 p Hp). pose proof (Ay0 p Hp).
    pose proof (Ay1 p Hp). pose proof (Az0 p Hp). pose proof (Az1 p Hp).
    simpl in *. lra. }
  split; [exact Hall|]. split; [|tauto].
  apply Forall_cons in Hall as [Hp _]. unfold inside in *. simpl in *. lra.
Qed.

End BoundsRounded.

Section BoxClaimsRounded.

Local Open Scope Q_scope.

Implicit Types (track : Doubles.Track) (tracks : list Doubles.Track).

(** X18. The bounding box of a track with at least one point, all of
    whose coordinates are finite numbers, has finite [min] and [max]
    corners and is tight: every point lies between the corners, each face
    of the box touches a point, [center] is the rounded midpoint of the
    corners and [size] their rounded difference. A point with a [NaN]
    coordinate, which an elevation that did not parse produces, turns
    [min], [max], [center] and [size] into [NaN] along that axis. *)
Theorem calculateTrackBoundingBox_tight track :
  let box := Doubles.calculateTrackBoundingBox track in
  (Doubles.points track <> [] ->
   Forall Doubles.finitePoint (Doubles.points track) ->
   exists lo hi : Vector3,
     Box.min box = finite lo /\
     Box.max box = finite hi /\
     Box.center box
     = {| XYZ.x := F64.div (F64.add (Num.Fin (x lo)) (Num.Fin (x hi)))
                           (Num.Fin 2);
          XYZ.y := F64.div (F64.add (Num.Fin (y lo)) (Num.Fin (y hi)))
                           (Num.Fin 2);
          XYZ.z := F64.div (F64.add (Num.Fin (z lo)) (Num.Fin (z hi)))
                           (Num.Fin 2) |} /\
     Box.size box
     = {| XYZ.x := F64.sub (Num.Fin (x hi)) (Num.Fin (x lo));
          XYZ.y := F64.sub (Num.Fin (y hi)) (Num.Fin (y lo));
          XYZ.z := F64.sub (Num.Fin (z hi)) (Num.Fin (z lo)) |} /\
     (forall p, p ∈ Doubles.points track ->
        exists v, p = finite v /\ inside lo hi v) /\
     inside lo hi lo /\
     (exists p, p ∈ Doubles.points track /\ XYZ.x p = Num.Fin (x lo)) /\
     (exists p, p ∈ Doubles.points track /\ XYZ.x p = Num.Fin (x hi)) /\
     (exists p, p ∈ Doubles.points track /\ XYZ.y p = Num.Fin (y lo)) /\
     (exists p, p ∈ Doubles.points track /\ XYZ.y p = Num.Fin (y hi)) /\
     (exists p, p ∈ Doubles.points track /\ XYZ.z p = Num.Fin (z lo)) /\
     (exists p, p ∈ Doubles.points track /\ XYZ.z p = Num.Fin (z hi))) /\
  (forall p, p ∈ Doubles.points track ->
     (XYZ.x p = Num.NaN -> Doubles.poisoned XYZ.x box) /\
     (XYZ.y p = Num.NaN -> Doubles.poisoned XYZ.y box) /\
     (XYZ.z p = Num.NaN -> Doubles.poisoned XYZ.z box)).
Proof.
  intros box. subst box. unfold Doubles.calculateTrackBoundingBox.
  split; [|intros p Hp; now apply box_poisoned].
  intros Hne Hfinite.
  destruct (finitePoints_lift _ Hfinite) as [pts Hpts].
  rewrite Hpts in *.
  assert (Hne' : pts <> []) by (intros ->; now apply Hne).
  destruct (box_tight pts Hne')
    as (lo & hi & Hmin & Hmax & Hcenter & Hsize & Hin & Hlo
        & Fx0 & Fx1 & Fy0 & Fy1 & Fz0 & Fz1).
  assert (Hface : forall coord (axis : XYZ.t -> Num.t) (c : Q),
            (forall v, axis (finite v) = Num.Fin (coord v)) ->
            (exists v, v ∈ pts /\ coord v = c) ->
            exists p, p ∈ finite <$> pts /\ axis p = Num.Fin c).
  { intros coord axis c Haxis (v & Hv & <-).
    exists (finite v). split; [now apply list_elem_of_fmap_2|apply Haxis]. }
  exists lo, hi. repeat split; try assumption;
    try (apply Hlo);
    try (now apply (Hface x XYZ.x));
    try (now apply (Hface y XYZ.y));
    try (now apply (Hface z XYZ.z)).
  intros p Hp. apply list_elem_of_fmap in Hp as (v & -> & Hv).
  exists v. split; [reflexivity|].
  rewrite Forall_forall in Hin. now apply Hin.
Qed.

Lemma foldl_tracks_all_points tracks : forall bounds,
  foldl (fun bounds track =>
           foldl Doubles.growBounds bounds (Doubles.points track))
        bounds tracks
  = foldl Doubles.growBounds bounds (mbind Doubles.points tracks).
Proof.
  induction tracks as [|track rest IH]; intros bounds; [reflexivity|].
  csimpl. rewrite foldl_app. apply IH.
Qed.

(** X19. The box of a whole data set is the box of all its points taken
    together: it equals the box of one track holding the points of every
    track, so for a single track the two functions agree. When the data
    set has a point and every coordinate is a finite number, the corners
    are finite and every point of every track lies between them; a point
    with a [NaN] coordinate anywhere turns the box into [NaN] along that
    axis. *)
Theorem calculateBoundingBox_all_points tracks :
  let box := Doubles.calculateBoundingBox tracks in
  box
  = Doubles.calculateTrackBoundingBox
      {| Doubles.points := mbind Doubles.points tracks |} /\
  (forall track,
     Doubles.calculateBoundingBox [track]
     = Doubles.calculateTrackBoundingBox track) /\
  (mbind Doubles.points tracks <> [] ->
   Forall (fun track => Forall Doubles.finitePoint (Doubles.points track))
          tracks ->
   exists lo hi : Vector3,
     Box.min box = finite lo /\
     Box.max box = finite hi /\
     forall track p,
       track ∈ tracks -> p ∈ Doubles.points track ->
       exists v, p = finite v /\ inside lo hi v) /\
  (forall track p,
     track ∈ tracks -> p ∈ Doubles.points track ->
     (XYZ.x p = Num.NaN -> Doubles.poisoned XYZ.x box) /\
     (XYZ.y p = Num.NaN -> Doubles.poisoned XYZ.y box) /\
     (XYZ.z p = Num.NaN -> Doubles.poisoned XYZ.z box)).
Proof.
  intros box. subst box.
  assert (Hall : Doubles.calculateBoundingBox tracks
                 = Doubles.boxOf
                     (foldl Doubles.growBounds Framing.initialBounds
                            (mbind Doubles.points tracks))).
  { unfold Doubles.calculateBoundingBox.
    now rewrite foldl_tracks_all_points. }
  split; [exact Hall|]. split; [reflexivity|]. rewrite Hall. split.
  - intros Hne Hfinite.
    assert (Hflat : Forall Doubles.finitePoint
                           (mbind Doubles.points tracks)).
    { apply Forall_forall. intros p Hp.
      apply list_elem_of_bind in Hp as (track & Hp & Htrack).
      rewrite Forall_forall in Hfinite.
      specialize (Hfinite track Htrack).
      rewrite Forall_forall in Hfinite. now apply Hfinite. }
    destruct (finitePoints_lift _ Hflat) as [pts Hpts].
    rewrite Hpts in *.
    assert (Hne' : pts <> []) by (intros ->; now apply Hne).
    destruct (box_tight pts Hne')
      as (lo & hi & Hmin & Hmax & _ & _ & Hin & _).
    exists lo, hi. split; [exact Hmin|]. split; [exact Hmax|].
    intros track p Htrack Hp.
    assert (Hmem : p ∈ finite <$> pts).
    { rewrite <- Hpts. apply list_elem_of_bind. eauto. }
    apply list_elem_of_fmap in Hmem as (v & -> & Hv).
    exists v. split; [reflexivity|].
    rewrite Forall_forall in Hin. now apply Hin.
  - intros track p Htrack Hp. apply box_poisoned.
    apply list_elem_of_bind. eauto.
Qed.

End BoxClaimsRounded.

Lemma calculateTrackBoundingBox_tight_witness :
  Doubles.points DoublesSample.level <> [] /\
  Forall Doubles.finitePoint (Doubles.points DoublesSample.level) /\
  (exists lo hi : Vector3,
     Box.min (Doubles.calculateTrackBoundingBox DoublesSample.level)
     = finite lo /\
     Box.max (Doubles.calculateTrackBoundingBox DoublesSample.level)
     = finite hi) /\
  Doubles.poisoned XYZ.y
    (Doubles.calculateTrackBoundingBox DoublesSample.broken).
Proof.
  assert (Hne : Doubles.points DoublesSample.level <> []) by discriminate.
  assert (Hfinite : Forall Doubles.finitePoint
                           (Doubles.points DoublesSample.level)).
  { repeat constructor.
    - now exists {| x := 1; y := 2; z := 3 |}.
    - now exists {| x := 4; y := 0; z := -1 |}. }
  split; [exact Hne|]. split; [exact Hfinite|]. split.
  - destruct (calculateTrackBoundingBox_tight DoublesSample.level)
      as [Htight _].
    destruct (Htight Hne Hfinite) as (lo & hi & Hmin & Hmax & _).
    exists lo, hi. split; assumption.
  - destruct (calculateTrackBoundingBox_tight DoublesSample.broken)
      as [_ Hnan].
    apply (Hnan {| XYZ.x := Num.Fin 4; XYZ.y := Num.NaN;
                   XYZ.z := Num.Fin (-1) |}).
    + apply list_elem_of_further, list_elem_of_here.
    + reflexivity.
Defined.

Lemma calculateBoundingBox_all_points_witness :
  mbind Doubles.points [DoublesSample.level; DoublesSample.level] <> [] /\
  exists lo hi : Vector3,
    Box.min (Doubles.calculateBoundingBox
               [DoublesSample.level; DoublesSample.level]) = finite lo /\
    Box.max (Doubles.calculateBoundingBox
               [DoublesSample.level; DoublesSample.level]) = finite hi.
Proof.
  assert (Hne : mbind Doubles.points
                      [DoublesSample.level; DoublesSample.level] <> [])
    by discriminate.
  split; [exact Hne|].
  destruct (calculateBoundingBox_all_points
              [DoublesSample.level; DoublesSample.level])
    as (_ & _ & Hbox & _).
  destruct Hbox as (lo & hi & Hmin & Hmax & _); [exact Hne| |].
  - repeat constructor.
    + now exists {| x := 1; y := 2; z := 3 |}.
    + now exists {| x := 4; y := 0; z := -1 |}.
    + now exists {| x := 1; y := 2; z := 3 |}.
    + now exists {| x := 4; y := 0; z := -1 |}.
  - exists lo, hi. split; assumption.
Defined.

(** ** The viewing pose in double precision *)

Section NotNaN.

Local Open Scope Q_scope.

Lemma round_not_NaN (q : Q) : Num.isNaN (F64.round q) = false.
Proof.
  unfold F64.round.
  destruct (Qle_bool _ _); [reflexivity|].
  destruct (Qle_bool _ _); reflexivity.
Qed.

Lemma rounded_not_NaN (a : Num.t) :
  Num.isNaN a = false -> Num.isNaN (F64.rounded a) = false.
Proof. destruct a; try easy. intros _. apply round_not_NaN. Qed.

Lemma max_not_NaN (a b : Num.t) :
  Num.isNaN a = false -> Num.isNaN b = false ->
  Num.isNaN (Num.max a b) = false.
Proof. destruct a, b; easy. Qed.

Lemma div_not_NaN (a : Num.t) (q : Q) :
  Num.isNaN a = false -> ~ q == 0 ->
  Num.isNaN (F64.div a (Num.Fin q)) = false.
Proof.
  intros Ha Hq. apply rounded_not_NaN.
  assert (Hne : Qeq_bool q 0 = false).
  { destruct (Qeq_bool q 0) eqn:E; [|reflexivity].
    apply Qeq_bool_iff in E. contradiction. }
  destruct a; try easy; simpl; rewrite ?Hne; try reflexivity;
    destruct (q ?= 0); reflexivity.
Qed.

Lemma mul_not_NaN (a : Num.t) (q : Q) :
  Num.isNaN a = false -> ~ q == 0 ->
  Num.isNaN (F64.mul a (Num.Fin q)) = false.
Proof.
  intros Ha Hq. apply rounded_not_NaN.
  assert (Hne : (q ?= 0) <> Datatypes.Eq).
  { intros E. apply Qeq_alt in E. contradiction. }
  destruct a; try easy; simpl; unfold Num.scaleInf;
    destruct (q ?= 0); try reflexivity; contradiction.
Qed.

(** Clamping a number that is not [NaN] between two finite bounds gives a
    finite number between them. *)
Lemma clamp_finite (lo hi : Q) (a : Num.t) :
  lo <= hi -> Num.isNaN a = false ->
  exists c, Num.max (Num.Fin lo) (Num.min (Num.Fin hi) a) = Num.Fin c /\
            lo <= c <= hi.
Proof.
  intros Hle Ha. destruct a as [q| | |]; try discriminate; simpl.
  - eexists. split; [reflexivity|]. split; [apply Q.le_max_l|].
    apply Q.max_lub; [exact Hle|apply Q.le_min_l].
  - eexists. split; [reflexivity|]. split; [apply Q.le_max_l|].
    apply Q.max_lub; [exact Hle|apply Qle_refl].
  - exists lo. split; [reflexivity|]. split; [apply Qle_refl|exact Hle].
Qed.

End NotNaN.

(** The centre of a box that a [NaN] height poisons. *)
Lemma calculateOptimal_poisoned (track : Doubles.Track) (p : XYZ.t) :
  p ∈ Doubles.points track -> XYZ.y p = Num.NaN ->
  XYZ.y (Box.center (Doubles.calculateTrackBoundingBox track)) = Num.NaN /\
  XYZ.y (Box.size (Doubles.calculateTrackBoundingBox track)) = Num.NaN.
Proof.
  intros Hp Hnan. unfold Doubles.calculateTrackBoundingBox.
  destruct (box_poisoned (Doubles.points track) p Hp) as (_ & Hy & _).
  destruct (Hy Hnan) as (_ & _ & Hcenter & Hsize). now split.
Qed.

Section PoseRounded.

Local Open Scope Q_scope.

Variable config : Config.
Variable Math_tan Math_sin Math_cos : Num.t -> Num.t.
Variable Math_PI : Num.t.

Local Abbreviation cfg := (cameraAnimation config).
Local Abbreviation pose :=
  (Doubles.calculateOptimalCameraPosition config Math_tan Math_sin Math_cos
                                          Math_PI).

(** X21. For a track with at least one point and finite coordinates, a
    field of view whose half-angle tangent is a finite number other than
    zero, a padding factor other than zero and
    [minDistance <= maxDistance], the pose computation uses exactly two
    random draws, returns the track's bounding box, looks at its centre,
    and places the camera at a finite distance between [minDistance] and
    [maxDistance] from it (before the height offset), in the direction
    the two drawn angles give. A point with a [NaN] height makes the
    height of the camera and of its target [NaN]. *)
Theorem calculateOptimalCameraPosition_clamped
    (track : Doubles.Track) (cameraFov : Num.t) (r1 r2 : Q)
    (rest : list Q) :
  let box := Doubles.calculateTrackBoundingBox track in
  let horizontalAngle :=
    F64.mul (F64.mul (Num.Fin r1) Math_PI) (Num.Fin 2) in
  let verticalAngle :=
    F64.div (F64.mul (F64.add (Num.Fin 10)
                              (F64.mul (Num.Fin r2) (Num.Fin 80)))
                     Math_PI)
            (Num.Fin 180) in
  (forall tangent near far padding : Q,
     Doubles.points track <> [] ->
     Forall Doubles.finitePoint (Doubles.points track) ->
     Math_tan (F64.div (F64.div (F64.mul cameraFov Math_PI) (Num.Fin 180))
                       (Num.Fin 2))
     = Num.Fin tangent ->
     ~ tangent == 0 ->
     F64.lit (minDistance cfg) = Num.Fin near ->
     F64.lit (maxDistance cfg) = Num.Fin far ->
     near <= far ->
     F64.lit (distancePaddingFactor cfg) = Num.Fin padding ->
     ~ padding == 0 ->
     exists (distance : Q) (result : Doubles.Pose),
       pose track cameraFov (r1 :: r2 :: rest) = Returned result rest /\
       near <= distance <= far /\
       Doubles.bbox result = box /\
       Doubles.target result = Box.center box /\
       Doubles.position result
       = {| XYZ.x :=
              F64.add (XYZ.x (Box.center box))
                (F64.mul (F64.mul (Num.Fin distance)
                                  (Math_cos verticalAngle))
                         (Math_cos horizontalAngle));
            XYZ.y :=
              F64.add
                (F64.add (XYZ.y (Box.center box))
                         (F64.mul (Num.Fin distance)
                                  (Math_sin verticalAngle)))
                (F64.mul (XYZ.y (Box.size box))
                         (F64.lit (heightOffsetFactor cfg)));
            XYZ.z :=
              F64.add (XYZ.z (Box.center box))
                (F64.mul (F64.mul (Num.Fin distance)
                                  (Math_cos verticalAngle))
                         (Math_sin horizontalAngle)) |}) /\
  (forall p, p ∈ Doubles.points track -> XYZ.y p = Num.NaN ->
     exists result : Doubles.Pose,
       pose track cameraFov (r1 :: r2 :: rest) = Returned result rest /\
       XYZ.y (Doubles.position result) = Num.NaN /\
       XYZ.y (Doubles.target result) = Num.NaN).
Proof.
  intros box horizontalAngle verticalAngle. split.
  - intros tangent near far padding Hne Hfinite Htan Htan0 Hnear Hfar
           Hle Hpad Hpad0.
    destruct (finitePoints_lift _ Hfinite) as [pts Hpts].
    assert (Hne' : pts <> []).
    { intros ->. apply Hne. exact Hpts. }
    assert (Hsize : Num.isNaN (XYZ.x (Box.size box)) = false /\
                    Num.isNaN (XYZ.z (Box.size box)) = false).
    { subst box. unfold Doubles.calculateTrackBoundingBox. rewrite Hpts.
      destruct (box_tight pts Hne') as (lo & hi & _ & _ & _ & -> & _).
      cbn [XYZ.x XYZ.z]. split; apply round_not_NaN. }
    destruct Hsize as [Hsx Hsz].
    set (base :=
           F64.mul
             (F64.div
                (F64.div (Num.max (XYZ.x (Box.size box))
                                  (XYZ.z (Box.size box)))
                         (Num.Fin 2))
                (Num.Fin tangent))
             (Num.Fin padding)).
    assert (Hbase : Num.isNaN base = false).
    { apply mul_not_NaN; [|exact Hpad0].
      apply div_not_NaN; [|exact Htan0].
      apply div_not_NaN; [|discriminate].
      now apply max_not_NaN. }
    destruct (clamp_finite near far base Hle Hbase)
      as (distance & Hdistance & Hrange).
    exists distance. eexists.
    unfold Doubles.calculateOptimalCameraPosition.
    fold box. rewrite Htan, Hnear, Hfar, Hpad. fold base.
    rewrite Hdistance. fold horizontalAngle verticalAngle.
    split; [reflexivity|]. split; [exact Hrange|].
    cbn [Doubles.bbox Doubles.target Doubles.position].
    split; [reflexivity|]. split; [|reflexivity].
    now destruct (Box.center box).
  - intros p Hp Hnan. eexists. split; [reflexivity|].
    destruct (calculateOptimal_poisoned track p Hp Hnan) as [Hc _].
    cbn [Doubles.position Doubles.target XYZ.y].
    rewrite Hc. split; reflexivity.
Qed.

End PoseRounded.

Lemma calculateOptimalCameraPosition_clamped_witness :
  Doubles.points DoublesSample.level <> [] /\
  F64.lit (minDistance (cameraAnimation shippedConfig)) = Num.Fin 50 /\
  F64.lit (maxDistance (cameraAnimation shippedConfig)) = Num.Fin 300 /\
  exists (distance : Q) (result : Doubles.Pose),
    Doubles.calculateOptimalCameraPosition
      shippedConfig (fun _ => Num.Fin 1) (fun _ => Num.Fin 0)
      (fun _ => Num.Fin 1) (F64.lit (355 # 113)) DoublesSample.level
      (Num.Fin 75) [1 # 2; 1 # 4; 1 # 8]
    = Returned result [1 # 8] /\
    (50 <= distance <= 300)%Q.
Proof.
  assert (Hne : Doubles.points DoublesSample.level <> []) by discriminate.
  assert (Hnear : F64.lit (minDistance (cameraAnimation shippedConfig))
                  = Num.Fin 50) by (vm_compute; reflexivity).
  assert (Hfar : F64.lit (maxDistance (cameraAnimation shippedConfig))
                 = Num.Fin 300) by (vm_compute; reflexivity).
  split; [exact Hne|]. split; [exact Hnear|]. split; [exact Hfar|].
  destruct (calculateOptimalCameraPosition_clamped
              shippedConfig (fun _ => Num.Fin 1) (fun _ => Num.Fin 0)
              (fun _ => Num.Fin 1) (F64.lit (355 # 113))
              DoublesSample.level (Num.Fin 75) (1 # 2) (1 # 4) [1 # 8])
    as [Hpose _].
  destruct (Hpose 1%Q 50%Q 300%Q (Qred (F64.roundQ (18 # 10))))
    as (distance & result & Hresult & Hrange & _).
  - exact Hne.
  - repeat constructor.
    + now exists {| x := 1; y := 2; z := 3 |}.
    + now exists {| x := 4; y := 0; z := -1 |}.
  - reflexivity.
  - discriminate.
  - exact Hnear.
  - exact Hfar.
  - discriminate.
  - vm_compute. reflexivity.
  - intros E. vm_compute in E. discriminate E.
  - exists distance, result. split; [exact Hresult|exact Hrange].
Defined.
